(** * Live translator: capture engine, frame encoder, transcript persister

  A shallow embedding of the audio recorder (lib/audio-recorder) and of
  the Broadcaster component, together with the properties stated about
  them in the design document. *)

From Stdlib Require Import ZArith QArith Lia Bool List String.
From Stdlib Require Import Floats.SpecFloat.
From stdpp Require Import base list strings gmap.
From stdpp Require Import pretty.
Import ListNotations.

Close Scope Q_scope.
Local Open Scope Z_scope.
Set Warnings "-clear-no-such-hyp".

(** ** JavaScript numbers

  A JavaScript Number is an IEEE 754 binary64 value.  The Standard
  Library's [spec_float] with [prec = 53] and [emax = 1024] is that
  format (without NaN payloads, which JavaScript does not expose). *)

Module Number.

Definition prec : Z := 53.
Definition emax : Z := 1024.

Abbreviation number := spec_float.

Definition NaN : number := S754_nan.
Definition pos_infinity : number := S754_infinity false.
Definition neg_infinity : number := S754_infinity true.

(** A well-formed binary64 datum. *)
Definition valid (x : number) : bool := valid_binary prec emax x.

(** Integer literals such as [1], [0x8000], [0x7FFF]. *)
Definition of_Z (z : Z) : number := binary_normalize prec emax z 0 false.

(** [x * y] *)
Definition mul (x y : number) : number := SFmul prec emax x y.

(** [x < y] (false as soon as one side is NaN) *)
Definition lt (x y : number) : bool := SFltb x y.

Definition is_nan (x : number) : bool :=
  match x with S754_nan => true | _ => false end.

Definition is_pos_zero (x : number) : bool :=
  match x with S754_zero false => true | _ => false end.

Definition is_neg_zero (x : number) : bool :=
  match x with S754_zero true => true | _ => false end.

(** [Math.min(...args)]: NaN if an argument is NaN, otherwise the least
    argument, where -0 counts as smaller than +0. *)
Definition min_step (lowest x : number) : number :=
  if is_neg_zero x && is_pos_zero lowest then x
  else if lt x lowest then x else lowest.

Definition Math_min (args : list number) : number :=
  if existsb is_nan args then NaN else fold_left min_step args pos_infinity.

(** [Math.max(...args)], symmetrically. *)
Definition max_step (highest x : number) : number :=
  if is_pos_zero x && is_neg_zero highest then x
  else if lt highest x then x else highest.

Definition Math_max (args : list number) : number :=
  if existsb is_nan args then NaN else fold_left max_step args neg_infinity.

(** The mathematical integer obtained by dropping the fractional part of
    a finite number. *)
Definition truncate (x : number) : Z :=
  match x with
  | S754_finite s m e => cond_Zopp s (Z.shiftl (Zpos m) e)
  | _ => 0
  end.

(** [ToInt16]: the conversion applied when a Number is stored into an
    [Int16Array] element. *)
Definition ToInt16 (x : number) : Z :=
  match x with
  | S754_nan | S754_infinity _ | S754_zero _ => 0
  | S754_finite _ _ _ =>
      let int16bit := truncate x mod 2 ^ 16 in
      if 2 ^ 15 <=? int16bit then int16bit - 2 ^ 16 else int16bit
  end.

(** [|x| < 1], read off the significand and exponent of a finite
    binary64 number ([1 = 2 ^ 52 * 2 ^ -52]). *)
Definition below_one (m : positive) (e : Z) : Prop :=
  e < -52 \/ (e = -52 /\ Zpos m < 4503599627370496).

(** The rational number denoted by a finite Number ([0] otherwise). *)
Definition to_Q (x : number) : Q :=
  match x with
  | S754_finite s m e =>
      if 0 <=? e then inject_Z (cond_Zopp s (Zpos m) * 2 ^ e)
      else cond_Zopp s (Zpos m) # Z.to_pos (2 ^ (- e))
  | _ => 0%Q
  end.

End Number.

(** ** Values held by a [Float32Array]

  Reading an element of a [Float32Array] yields a Number that is exactly
  representable in binary32: its odd significand has at most 24 bits and
  its exponent lies in the binary32 range. *)

Module Float32.
Import Number.

Fixpoint trailing_zeros (p : positive) : Z :=
  match p with
  | xO q => Z.succ (trailing_zeros q)
  | _ => 0
  end.

Fixpoint odd_part (p : positive) : positive :=
  match p with
  | xO q => odd_part q
  | _ => p
  end.

Definition representable (x : number) : bool :=
  valid x &&
  match x with
  | S754_finite _ m e =>
      let m0 := Zdigits2 (Zpos (odd_part m)) in
      let e0 := e + trailing_zeros m in
      (m0 <=? 24) && (-149 <=? e0) && (m0 + e0 <=? 128)
  | _ => true
  end.

End Float32.

(** ** The frame encoder of [AudioRecorder] *)

Module AudioRecorderEncoder.
Import Number.

(** One iteration of the loop body of [convertFloat32ToInt16]: the
    clamped sample [s], and the value stored at [int16[i]] for the sample
    [float32[i]]. *)
Definition clamp (x : number) : number :=
  Math_max [of_Z (-1); Math_min [of_Z 1; x]].

Definition convert_sample (x : number) : Z :=
  let s := clamp x in
  ToInt16 (if lt s (of_Z 0) then mul s (of_Z 0x8000) else mul s (of_Z 0x7FFF)).

(** [convertFloat32ToInt16]: a zero-filled [Int16Array] of the input's
    length, written index by index. *)
Definition convertFloat32ToInt16 (float32 : list number) : list Z :=
  fold_left
    (fun (int16 : list Z) (i : nat) =>
       match float32 !! i with
       | Some x => <[i := convert_sample x]> int16
       | None => int16
       end)
    (seq 0 (length float32))
    (replicate (length float32) 0).

End AudioRecorderEncoder.

(** ** The conversion rule of the frame encoder, as the design states it

  Each sample is clamped to [-1, 1]; negative values scale by 32768,
  non-negative values by 32767; the result is truncated to an integer.
  The rule is written over exact rationals, extended with the two
  infinities a float sample may be. *)

Module EncoderRule.

Inductive sample :=
| Real (q : Q)
| PlusInfinity
| MinusInfinity.

Definition sample_of (x : Number.number) : option sample :=
  match x with
  | S754_nan => None
  | S754_infinity false => Some PlusInfinity
  | S754_infinity true => Some MinusInfinity
  | _ => Some (Real (Number.to_Q x))
  end.

Definition Qclamp (lo hi q : Q) : Q :=
  if Qlt_le_dec q lo then lo else if Qlt_le_dec hi q then hi else q.

Definition clamp_sample (v : sample) : Q :=
  match v with
  | Real q => Qclamp (-1) 1 q
  | PlusInfinity => 1
  | MinusInfinity => -1
  end%Q.

(** Truncation toward zero. *)
Definition Qtruncate (q : Q) : Z := Z.quot (Qnum q) (Zpos (Qden q)).

Definition encode (v : sample) : Z :=
  let s := clamp_sample v in
  Qtruncate (if Qlt_le_dec s 0 then s * 32768 else s * 32767)%Q.

End EncoderRule.

(** ** Effects: mutable state with exceptions

  A JavaScript method mutates its receiver and the browser around it,
  and may throw; what it assigned before throwing stays assigned.  A
  computation therefore maps a state to an outcome and the state it
  leaves behind. *)

Module Eff.

Definition error := string.

Inductive outcome (A : Type) :=
| Returns (a : A)
| Throws (e : error).
Arguments Returns {A} a.
Arguments Throws {A} e.

Definition M (S A : Type) : Type := S -> outcome A * S.

Definition ret {S A} (a : A) : M S A := fun s => (Returns a, s).

Definition bind {S A B} (c : M S A) (k : A -> M S B) : M S B :=
  fun s =>
    match c s with
    | (Returns a, s') => k a s'
    | (Throws e, s') => (Throws e, s')
    end.

Definition throw {S A} (e : error) : M S A := fun s => (Throws e, s).

(** [try { c } catch (e) { h e }] *)
Definition try_catch {S A} (c : M S A) (h : error -> M S A) : M S A :=
  fun s =>
    match c s with
    | (Returns a, s') => (Returns a, s')
    | (Throws e, s') => h e s'
    end.

Definition get {S} : M S S := fun s => (Returns s, s).
Definition modify {S} (f : S -> S) : M S unit := fun s => (Returns tt, f s).

(** [if (x) { c }] for a nullable [x] *)
Definition when_some {S A} (x : option A) (c : A -> M S unit) : M S unit :=
  match x with
  | Some a => c a
  | None => ret tt
  end.

Module Notations.
  Notation "x <- c ;; k" := (bind c (fun x => k))
    (at level 100, c at next level, right associativity).
  Notation "c ;; k" := (bind c (fun _ => k))
    (at level 100, right associativity).
End Notations.

End Eff.

(** ** The browser seen from the recorder

  Media streams, audio contexts and audio nodes are objects of the
  browser; the recorder holds references to them.  A reference is a
  [handle].  The browser keeps, for every stream, whether its tracks are
  still live (the capture device is engaged), for every audio context
  whether it is still open, and the connections of the audio graph. *)

Module Browser.
Import Eff.

Abbreviation handle := nat.

(** The calls the recorder makes. *)
Inductive api :=
| GetDisplayMedia           (* navigator.mediaDevices.getDisplayMedia *)
| GetUserMedia              (* navigator.mediaDevices.getUserMedia *)
| NewAudioContext           (* new AudioContext *)
| CreateMediaStreamSource   (* audioContext.createMediaStreamSource *)
| CreateScriptProcessor     (* audioContext.createScriptProcessor *)
| SourceConnect             (* source.connect(processor) *)
| ProcessorConnect          (* processor.connect(audioContext.destination) *)
| ProcessorDisconnect       (* processor.disconnect() *)
| SourceDisconnect          (* source.disconnect() *)
| TracksStop                (* stream.getTracks().forEach(track => track.stop()) *)
| ContextClose.             (* audioContext.close() *)

(** Which calls fail, and with which error. *)
Definition faults := api -> option error.

Definition no_faults : faults := fun _ => None.

Record world := {
  live : gset handle;               (* streams with live tracks *)
  running : gset handle;            (* audio contexts not closed *)
  edges : gset (handle * handle);   (* node -> node; a context stands for its destination *)
  next : handle;                    (* next fresh reference *)
  trace : list (api * handle);      (* completed calls, oldest first *)
  console : list string             (* console.error lines, oldest first *)
}.

Definition empty_world : world :=
  {| live := ∅; running := ∅; edges := ∅; next := 0%nat; trace := []; console := [] |}.

Definition log_call (a : api) (h : handle) (w : world) : world :=
  {| live := live w; running := running w; edges := edges w; next := next w;
     trace := trace w ++ [(a, h)]; console := console w |}.

Definition console_error (line : string) (w : world) : world :=
  {| live := live w; running := running w; edges := edges w; next := next w;
     trace := trace w; console := console w ++ [line] |}.

Definition fresh (w : world) : handle * world :=
  (next w,
   {| live := live w; running := running w; edges := edges w; next := S (next w);
      trace := trace w; console := console w |}).

Definition set_live (f : gset handle -> gset handle) (w : world) : world :=
  {| live := f (live w); running := running w; edges := edges w; next := next w;
     trace := trace w; console := console w |}.

Definition set_running (f : gset handle -> gset handle) (w : world) : world :=
  {| live := live w; running := f (running w); edges := edges w; next := next w;
     trace := trace w; console := console w |}.

Definition set_edges (f : gset (handle * handle) -> gset (handle * handle))
           (w : world) : world :=
  {| live := live w; running := running w; edges := f (edges w); next := next w;
     trace := trace w; console := console w |}.

(** A call that creates an object: it fails as [fl] says, or registers a
    fresh object. *)
Definition create (fl : faults) (a : api) (register : handle -> world -> world)
           (w : world) : outcome handle * world :=
  match fl a with
  | Some e => (Throws e, w)
  | None =>
      let '(h, w1) := fresh w in
      (Returns h, log_call a h (register h w1))
  end.

(** A call on an existing object [h]. *)
Definition invoke (fl : faults) (a : api) (h : handle) (effect : world -> world)
           (w : world) : outcome unit * world :=
  match fl a with
  | Some e => (Throws e, w)
  | None => (Returns tt, log_call a h (effect w))
  end.

Definition getUserMedia (fl : faults) : world -> outcome handle * world :=
  create fl GetUserMedia (fun h => set_live (union {[h]})).

Definition newAudioContext (fl : faults) : world -> outcome handle * world :=
  create fl NewAudioContext (fun h => set_running (union {[h]})).

(** [ctx.createMediaStreamSource(stream)]: a new, unconnected node. *)
Definition createMediaStreamSource (fl : faults) (ctx stream : handle) :
  world -> outcome handle * world :=
  create fl CreateMediaStreamSource (fun _ w => w).

(** [ctx.createScriptProcessor(4096, 1, 1)]: a new, unconnected node. *)
Definition createScriptProcessor (fl : faults) (ctx : handle) :
  world -> outcome handle * world :=
  create fl CreateScriptProcessor (fun _ w => w).

(** [a.connect(b)] *)
Definition connect (fl : faults) (site : api) (a b : handle) :
  world -> outcome unit * world :=
  invoke fl site a (set_edges (union {[(a, b)]})).

(** [a.disconnect()]: drops every outgoing connection of [a]. *)
Definition disconnect (fl : faults) (site : api) (a : handle) :
  world -> outcome unit * world :=
  invoke fl site a (set_edges (filter (fun e => e.1 ≠ a))).

Definition stopTracks (fl : faults) (s : handle) : world -> outcome unit * world :=
  invoke fl TracksStop s (set_live (fun l => l ∖ {[s]})).

Definition closeContext (fl : faults) (c : handle) : world -> outcome unit * world :=
  invoke fl ContextClose c (set_running (fun l => l ∖ {[c]})).

End Browser.

(** ** [AudioRecorder]: [start] and [stop] *)

Module AudioRecorder.
Import Eff Eff.Notations Browser.

(** The four nullable fields of the class. *)
Record fields := {
  stream : option handle;
  audioContext : option handle;
  source : option handle;
  processor : option handle
}.

(** [new AudioRecorder()] *)
Definition fresh_recorder : fields :=
  {| stream := None; audioContext := None; source := None; processor := None |}.

Definition state : Type := fields * world.

Definition in_world {A} (c : world -> outcome A * world) : M state A :=
  fun '(r, w) => let '(o, w') := c w in (o, (r, w')).

Definition set_stream (v : option handle) : M state unit :=
  modify (fun '(r, w) =>
    ({| stream := v; audioContext := audioContext r;
        source := source r; processor := processor r |}, w)).

Definition set_audioContext (v : option handle) : M state unit :=
  modify (fun '(r, w) =>
    ({| stream := stream r; audioContext := v;
        source := source r; processor := processor r |}, w)).

Definition set_source (v : option handle) : M state unit :=
  modify (fun '(r, w) =>
    ({| stream := stream r; audioContext := audioContext r;
        source := v; processor := processor r |}, w)).

Definition set_processor (v : option handle) : M state unit :=
  modify (fun '(r, w) =>
    ({| stream := stream r; audioContext := audioContext r;
        source := source r; processor := v |}, w)).

Definition this : M state fields := fun '(r, w) => (Returns r, (r, w)).

(** [async start(stream?)] *)
Definition start (fl : faults) (given : option handle) : M state unit :=
  try_catch
    (s <- match given with
          | Some s => ret s
          | None => in_world (getUserMedia fl)
          end ;;
     set_stream (Some s) ;;
     ctx <- in_world (newAudioContext fl) ;;
     set_audioContext (Some ctx) ;;
     src <- in_world (createMediaStreamSource fl ctx s) ;;
     set_source (Some src) ;;
     proc <- in_world (createScriptProcessor fl ctx) ;;
     set_processor (Some proc) ;;
     in_world (connect fl SourceConnect src proc) ;;
     in_world (connect fl ProcessorConnect proc ctx))
    (fun e =>
       in_world (fun w => (Returns tt, console_error "Error starting recorder:" w)) ;;
       throw e).

(** [stop()] *)
Definition stop (fl : faults) : M state unit :=
  r <- this ;;
  when_some (processor r) (fun p =>
    in_world (disconnect fl ProcessorDisconnect p) ;; set_processor None) ;;
  r <- this ;;
  when_some (source r) (fun s =>
    in_world (disconnect fl SourceDisconnect s) ;; set_source None) ;;
  r <- this ;;
  when_some (stream r) (fun s =>
    in_world (stopTracks fl s) ;; set_stream None) ;;
  r <- this ;;
  when_some (audioContext r) (fun c =>
    in_world (closeContext fl c) ;; set_audioContext None).

(** The release calls [stop] has to make for the fields [r], in the
    order in which [stop] makes them. *)
Definition release_plan (r : fields) : list (api * handle) :=
  match processor r with Some p => [(ProcessorDisconnect, p)] | None => [] end ++
  match source r with Some s => [(SourceDisconnect, s)] | None => [] end ++
  match stream r with Some s => [(TracksStop, s)] | None => [] end ++
  match audioContext r with Some c => [(ContextClose, c)] | None => [] end.

(** No release call fails. *)
Definition releases_succeed (fl : faults) : Prop :=
  fl ProcessorDisconnect = None /\ fl SourceDisconnect = None /\
  fl TracksStop = None /\ fl ContextClose = None.

(** Nothing the fields refer to is still engaged in the browser. *)
Definition released (r : fields) (w : world) : Prop :=
  (forall s, stream r = Some s -> s ∉ live w) /\
  (forall c, audioContext r = Some c -> c ∉ running w) /\
  (forall n, source r = Some n \/ processor r = Some n ->
             forall b, (n, b) ∉ edges w).

End AudioRecorder.

(** ** The transcripts table

  The persister talks to one table through three calls of the database
  client: [select('id').eq('session_id', sid).single()],
  [update({...}).eq('id', id)] and [insert({...})].  The client
  (lib/supabase) and the table are not among the sources; the table is
  the one the design describes: a session identifier, an owner marker,
  the transcript text, a last-updated timestamp and a source-language
  marker, under a generated primary key. *)

Module Store.
Import Eff.

Record row := {
  id : Z;
  session_id : string;
  user_id : string;
  full_transcript_text : string;
  updated_at : option Z;            (* [None]: left to the column default *)
  source_language : option string   (* [None]: left to the column default *)
}.

Abbreviation table := (list row).

Inductive call := Select | Update | Insert | Upsert.

(** A failing call either resolves with [{ data: null, error }] or its
    promise rejects. *)
Inductive failure :=
| ErrorResult
| Rejects (e : error).

Definition faults := call -> option failure.

Definition no_faults : faults := fun _ => None.

Inductive request :=
| ReqSelect (sid : string)
| ReqUpdate (rid : Z) (text : string) (now : Z)
| ReqInsert (sid user text lang : string)
| ReqUpsert (sid user text : string) (now : Z).

Definition is_write (q : request) : bool :=
  match q with
  | ReqSelect _ => false
  | _ => true
  end.

Definition text_of (q : request) : option string :=
  match q with
  | ReqSelect _ => None
  | ReqUpdate _ text _ => Some text
  | ReqInsert _ _ text _ => Some text
  | ReqUpsert _ _ text _ => Some text
  end.

Definition matching (sid : string) (t : table) : table :=
  filter (fun r => session_id r = sid) t.

(** [.single()] yields the row when exactly one row matches, and no data
    otherwise. *)
Definition select_single (sid : string) (t : table) : option Z :=
  match matching sid t with
  | [r] => Some (id r)
  | _ => None
  end.

Definition update_row (text : string) (now : Z) (r : row) : row :=
  {| id := id r; session_id := session_id r; user_id := user_id r;
     full_transcript_text := text; updated_at := Some now;
     source_language := source_language r |}.

Definition update (rid : Z) (text : string) (now : Z) (t : table) : table :=
  map (fun r => if Z.eqb (id r) rid then update_row text now r else r) t.

(** The identity column numbers the rows from 1. *)
Definition fresh_id (t : table) : Z :=
  1 + fold_right Z.max 0 (map id t).

Definition insert (sid user text lang : string) (t : table) : table :=
  t ++ [{| id := fresh_id t; session_id := sid; user_id := user;
           full_transcript_text := text; updated_at := None;
           source_language := Some lang |}].

(** [upsert({...}, { onConflict: 'id' })] without an [id]: nothing can
    conflict, a row is added. *)
Definition upsert (sid user text : string) (now : Z) (t : table) : table :=
  t ++ [{| id := fresh_id t; session_id := sid; user_id := user;
           full_transcript_text := text; updated_at := Some now;
           source_language := None |}].

(** Primary key: row identifiers are positive and pairwise distinct. *)
Definition primary_key (t : table) : Prop :=
  NoDup (map id t) /\ Forall (fun r => 0 < id r) t.

End Store.

(** ** The [Broadcaster] component *)

Module Broadcaster.
Import Eff Eff.Notations.

Inductive AudioSource := microphone | screen_tab.

(** [debounce(func, wait)]: the closure keeps one timer slot; a call
    clears the pending timer and arms a new one that will apply [func]
    to the arguments of this call. *)
Section Debounce.
Context {A : Type}.

Definition timer_slot : Type := option (Z * A).   (* deadline, arguments *)

(** [clearTimeout(timeout); timeout = setTimeout(() => func(...args), wait)]:
    whatever was pending is dropped. *)
Definition debounce (wait : Z) (now : Z) (args : A) (timeout : timer_slot) :
  timer_slot :=
  Some (now + wait, args).

(** The timer that is due at time [t], if any. *)
Definition due (t : Z) (timeout : timer_slot) : option (Z * A) :=
  match timeout with
  | Some (deadline, args) => if deadline <=? t then Some (deadline, args) else None
  | None => None
  end.
End Debounce.

Record state := {
  (* useState *)
  isRecording : bool;
  micVolume : Number.number;
  transcript : string;
  sessionId : string;
  audioSource : AudioSource;
  (* useRef *)
  recorderRef : option AudioRecorder.fields;
  transcriptRef : string;
  sessionIdRef : string;
  dbUpdateRef : bool;                    (* the debounced save is installed *)
  (* the closure of [debounce] *)
  timeout : @timer_slot string;
  (* the handler set on the shared video track *)
  onended : option Browser.handle;
  (* the surroundings *)
  connected : bool;                      (* the live connection is open *)
  clock : Z;                             (* milliseconds *)
  browser : Browser.world;
  table : Store.table;
  requests : list Store.request;         (* requests sent to the store, oldest first *)
  unhandled : list error                 (* unhandled promise rejections *)
}.

Definition initial (src : AudioSource) (w : Browser.world) (t : Store.table) (now : Z) :
  state :=
  {| isRecording := false; micVolume := Number.of_Z 0; transcript := "";
     sessionId := ""; audioSource := src;
     recorderRef := None; transcriptRef := ""; sessionIdRef := "";
     dbUpdateRef := false; timeout := None; onended := None;
     connected := false; clock := now; browser := w; table := t;
     requests := []; unhandled := [] |}.

(** What the surroundings answer during one event. *)
Inductive display_media :=
| Shared (audio_tracks : nat)
| Refused (name : string).

Record environment := {
  recorder_faults : Browser.faults;
  store_faults : Store.faults;
  getDisplayMedia : display_media;
  connect_error : option error
}.

Definition calm : environment :=
  {| recorder_faults := Browser.no_faults; store_faults := Store.no_faults;
     getDisplayMedia := Shared 1; connect_error := None |}.

Definition upd (f : state -> state) : M state unit := modify f.

Definition setIsRecording (b : bool) : M state unit :=
  upd (fun s =>
    {| isRecording := b; micVolume := micVolume s; transcript := transcript s;
       sessionId := sessionId s; audioSource := audioSource s;
       recorderRef := recorderRef s; transcriptRef := transcriptRef s;
       sessionIdRef := sessionIdRef s; dbUpdateRef := dbUpdateRef s;
       timeout := timeout s; onended := onended s; connected := connected s;
       clock := clock s; browser := browser s; table := table s;
       requests := requests s; unhandled := unhandled s |}).

Definition setMicVolume (v : Number.number) : M state unit :=
  upd (fun s =>
    {| isRecording := isRecording s; micVolume := v; transcript := transcript s;
       sessionId := sessionId s; audioSource := audioSource s;
       recorderRef := recorderRef s; transcriptRef := transcriptRef s;
       sessionIdRef := sessionIdRef s; dbUpdateRef := dbUpdateRef s;
       timeout := timeout s; onended := onended s; connected := connected s;
       clock := clock s; browser := browser s; table := table s;
       requests := requests s; unhandled := unhandled s |}).

Definition set_session (sid : string) : M state unit :=
  upd (fun s =>
    {| isRecording := isRecording s; micVolume := micVolume s; transcript := transcript s;
       sessionId := sid; audioSource := audioSource s;
       recorderRef := recorderRef s; transcriptRef := transcriptRef s;
       sessionIdRef := sid; dbUpdateRef := dbUpdateRef s;
       timeout := timeout s; onended := onended s; connected := connected s;
       clock := clock s; browser := browser s; table := table s;
       requests := requests s; unhandled := unhandled s |}).

Definition set_dbUpdateRef (b : bool) : M state unit :=
  upd (fun s =>
    {| isRecording := isRecording s; micVolume := micVolume s; transcript := transcript s;
       sessionId := sessionId s; audioSource := audioSource s;
       recorderRef := recorderRef s; transcriptRef := transcriptRef s;
       sessionIdRef := sessionIdRef s; dbUpdateRef := b;
       timeout := timeout s; onended := onended s; connected := connected s;
       clock := clock s; browser := browser s; table := table s;
       requests := requests s; unhandled := unhandled s |}).

Definition set_recorder (r : option AudioRecorder.fields) (w : Browser.world) :
  M state unit :=
  upd (fun s =>
    {| isRecording := isRecording s; micVolume := micVolume s; transcript := transcript s;
       sessionId := sessionId s; audioSource := audioSource s;
       recorderRef := r; transcriptRef := transcriptRef s;
       sessionIdRef := sessionIdRef s; dbUpdateRef := dbUpdateRef s;
       timeout := timeout s; onended := onended s; connected := connected s;
       clock := clock s; browser := w; table := table s;
       requests := requests s; unhandled := unhandled s |}).

Definition set_transcript (text : string) : M state unit :=
  upd (fun s =>
    {| isRecording := isRecording s; micVolume := micVolume s; transcript := text;
       sessionId := sessionId s; audioSource := audioSource s;
       recorderRef := recorderRef s; transcriptRef := text;
       sessionIdRef := sessionIdRef s; dbUpdateRef := dbUpdateRef s;
       timeout := timeout s; onended := onended s; connected := connected s;
       clock := clock s; browser := browser s; table := table s;
       requests := requests s; unhandled := unhandled s |}).

Definition set_timeout (t : @timer_slot string) : M state unit :=
  upd (fun s =>
    {| isRecording := isRecording s; micVolume := micVolume s; transcript := transcript s;
       sessionId := sessionId s; audioSource := audioSource s;
       recorderRef := recorderRef s; transcriptRef := transcriptRef s;
       sessionIdRef := sessionIdRef s; dbUpdateRef := dbUpdateRef s;
       timeout := t; onended := onended s; connected := connected s;
       clock := clock s; browser := browser s; table := table s;
       requests := requests s; unhandled := unhandled s |}).

Definition set_onended (h : option Browser.handle) : M state unit :=
  upd (fun s =>
    {| isRecording := isRecording s; micVolume := micVolume s; transcript := transcript s;
       sessionId := sessionId s; audioSource := audioSource s;
       recorderRef := recorderRef s; transcriptRef := transcriptRef s;
       sessionIdRef := sessionIdRef s; dbUpdateRef := dbUpdateRef s;
       timeout := timeout s; onended := h; connected := connected s;
       clock := clock s; browser := browser s; table := table s;
       requests := requests s; unhandled := unhandled s |}).

Definition set_connected (b : bool) : M state unit :=
  upd (fun s =>
    {| isRecording := isRecording s; micVolume := micVolume s; transcript := transcript s;
       sessionId := sessionId s; audioSource := audioSource s;
       recorderRef := recorderRef s; transcriptRef := transcriptRef s;
       sessionIdRef := sessionIdRef s; dbUpdateRef := dbUpdateRef s;
       timeout := timeout s; onended := onended s; connected := b;
       clock := clock s; browser := browser s; table := table s;
       requests := requests s; unhandled := unhandled s |}).

Definition set_clock (t : Z) : M state unit :=
  upd (fun s =>
    {| isRecording := isRecording s; micVolume := micVolume s; transcript := transcript s;
       sessionId := sessionId s; audioSource := audioSource s;
       recorderRef := recorderRef s; transcriptRef := transcriptRef s;
       sessionIdRef := sessionIdRef s; dbUpdateRef := dbUpdateRef s;
       timeout := timeout s; onended := onended s; connected := connected s;
       clock := t; browser := browser s; table := table s;
       requests := requests s; unhandled := unhandled s |}).

Definition set_store (t : Store.table) (q : list Store.request) : M state unit :=
  upd (fun s =>
    {| isRecording := isRecording s; micVolume := micVolume s; transcript := transcript s;
       sessionId := sessionId s; audioSource := audioSource s;
       recorderRef := recorderRef s; transcriptRef := transcriptRef s;
       sessionIdRef := sessionIdRef s; dbUpdateRef := dbUpdateRef s;
       timeout := timeout s; onended := onended s; connected := connected s;
       clock := clock s; browser := browser s; table := t;
       requests := q; unhandled := unhandled s |}).

Definition set_unhandled (u : list error) : M state unit :=
  upd (fun s =>
    {| isRecording := isRecording s; micVolume := micVolume s; transcript := transcript s;
       sessionId := sessionId s; audioSource := audioSource s;
       recorderRef := recorderRef s; transcriptRef := transcriptRef s;
       sessionIdRef := sessionIdRef s; dbUpdateRef := dbUpdateRef s;
       timeout := timeout s; onended := onended s; connected := connected s;
       clock := clock s; browser := browser s; table := table s;
       requests := requests s; unhandled := u |}).

Definition console_error (line : string) : M state unit :=
  s <- get ;; set_recorder (recorderRef s) (Browser.console_error line (browser s)).

(** Modelled from the spec: [connect] and [disconnect] of the live-API
    context, which is not among the sources; they open, respectively
    close, the connection to the streaming service. *)
Definition connect (env : environment) : M state unit :=
  match connect_error env with
  | Some e => throw e
  | None => set_connected true
  end.

Definition disconnect : M state unit := set_connected false.

(** A method call on [recorderRef.current]. *)
Definition on_recorder {A} (r : AudioRecorder.fields)
           (c : M AudioRecorder.state A) : M state A :=
  fun s =>
    let '(o, (r', w')) := c (r, browser s) in
    let '(_, s') := set_recorder (Some r') w' s in
    (o, s').

(** [recorderRef.current?.stop()] *)
Definition recorder_stop (env : environment) : M state unit :=
  s <- get ;;
  when_some (recorderRef s) (fun r =>
    on_recorder r (AudioRecorder.stop (recorder_faults env))).

(** [stopBroadcast] *)
Definition stopBroadcast (env : environment) : M state unit :=
  recorder_stop env ;;
  disconnect ;;
  setIsRecording false ;;
  setMicVolume (Number.of_Z 0).

(** The first half of the start branch of [toggleBroadcast]: the shared
    stream, if one is asked for.  [None] stands for the early
    [return]s. *)
Definition acquire_display (env : environment) :
  M state (option (option Browser.handle)) :=
  s <- get ;;
  match audioSource s with
  | microphone => ret (Some None)
  | screen_tab =>
      match getDisplayMedia env with
      | Refused name =>
          console_error "Error getting display media:" ;;
          ret None
      | Shared audio_tracks =>
          let '(o, w) :=
            Browser.create Browser.no_faults Browser.GetDisplayMedia
              (fun h => Browser.set_live (union {[h]})) (browser s) in
          set_recorder (recorderRef s) w ;;
          match o with
          | Throws e => throw e
          | Returns h =>
              if Nat.eqb audio_tracks 0 then
                s <- get ;;
                let '(_, w) := Browser.stopTracks Browser.no_faults h (browser s) in
                set_recorder (recorderRef s) w ;;
                ret None
              else
                set_onended (Some h) ;;
                ret (Some (Some h))
          end
      end
  end.

(** [toggleBroadcast] *)
Definition toggleBroadcast (env : environment) : M state unit :=
  s <- get ;;
  if isRecording s then stopBroadcast env
  else
    try_catch
      (acquired <- acquire_display env ;;
       match acquired with
       | None => ret tt
       | Some stream =>
           connect env ;;
           setIsRecording true ;;
           s <- get ;;
           set_recorder (Some AudioRecorder.fresh_recorder) (browser s) ;;
           on_recorder AudioRecorder.fresh_recorder
             (AudioRecorder.start (recorder_faults env) stream)
       end)
      (fun e =>
         console_error "Failed to start broadcast" ;;
         stopBroadcast env).

(** Incoming content: [serverContent.modelTurn?.parts], each part with
    its optional [text]. *)
Abbreviation part := (option string).
Abbreviation serverContent := (option (list part)).

Definition is_empty (text : string) : bool :=
  match text with
  | EmptyString => true
  | _ => false
  end.

(** [debouncedSave(text)], the debounced function stored in
    [dbUpdateRef.current]: it arms the timer with [text]. *)
Definition debouncedSave (text : string) : M state unit :=
  s <- get ;; set_timeout (debounce 2000 (clock s) text (timeout s)).

Definition handle_part (p : part) : M state unit :=
  match p with
  | Some newText =>
      if is_empty newText then ret tt
      else
        s <- get ;;
        set_transcript (transcriptRef s ++ newText) ;;
        s <- get ;;
        if dbUpdateRef s
        then debouncedSave (transcriptRef s)
        else ret tt
  | None => ret tt
  end.

Fixpoint forEach {A} (l : list A) (f : A -> M state unit) : M state unit :=
  match l with
  | [] => ret tt
  | x :: l' => f x ;; forEach l' f
  end.

Definition handleContent (sc : serverContent) : M state unit :=
  match sc with
  | Some parts => forEach parts handle_part
  | None => ret tt
  end.

(** An awaited call of the database client.  The request goes out; then
    the call rejects, resolves without data, or takes effect. *)
Definition store_call {A} (env : environment) (c : Store.call) (q : Store.request)
           (effect : Store.table -> Store.table) (data : Store.table -> A) (nodata : A) :
  M state A :=
  s <- get ;;
  set_store (table s) (requests s ++ [q]) ;;
  match store_faults env c with
  | Some (Store.Rejects e) => throw e
  | Some Store.ErrorResult => ret nodata
  | None =>
      set_store (effect (table s)) (requests s ++ [q]) ;;
      ret (data (table s))
  end.

(** The asynchronous function that [debounce] wraps in [debouncedSave]. *)
Definition debouncedSave_body (env : environment) (text : string) : M state unit :=
  s <- get ;;
  let sid := sessionIdRef s in
  data <- store_call env Store.Select (Store.ReqSelect sid)
            (fun t => t) (Store.select_single sid) None ;;
  match data with
  | Some rid =>
      if Z.eqb rid 0 then                       (* [data?.id] is falsy *)
        store_call env Store.Insert
          (Store.ReqInsert sid "broadcaster-user" text "auto")
          (Store.insert sid "broadcaster-user" text "auto") (fun _ => tt) tt
      else
        store_call env Store.Update (Store.ReqUpdate rid text (clock s))
          (Store.update rid text (clock s)) (fun _ => tt) tt
  | None =>
      store_call env Store.Insert
        (Store.ReqInsert sid "broadcaster-user" text "auto")
        (Store.insert sid "broadcaster-user" text "auto") (fun _ => tt) tt
  end.

(** [saveToDb], defined next to [debouncedSave] and never called. *)
Definition saveToDb (env : environment) (fullText : string) : M state unit :=
  s <- get ;;
  let sid := sessionIdRef s in
  if is_empty sid || is_empty fullText then ret tt
  else
    try_catch
      (store_call env Store.Upsert
         (Store.ReqUpsert sid "broadcaster-user" fullText (clock s))
         (Store.upsert sid "broadcaster-user" fullText (clock s)) (fun _ => tt) tt)
      (fun e => console_error "DB Save Error").

(** The event loop runs the timer callback [() => func(...args)] once
    its deadline has passed.  The callback drops the promise of [func]:
    a rejection is nobody's to handle. *)
Definition run_timers (env : environment) (until : Z) : M state unit :=
  s <- get ;;
  match due until (timeout s) with
  | Some (deadline, text) =>
      set_timeout None ;;
      set_clock deadline ;;
      try_catch (debouncedSave_body env text)
        (fun e => s <- get ;; set_unhandled (unhandled s ++ [e]))
  | None => ret tt
  end.

Inductive event :=
| Mount (uuid : string)              (* the mount effects; [crypto.randomUUID()] gave [uuid] *)
| SelectSource (src : AudioSource)   (* a source button *)
| Click                              (* the broadcast button *)
| VideoTrackEnded                    (* the browser ends the shared track *)
| ContentEvent (sc : serverContent)  (* the client's 'content' event *)
| VolumeEvent (v : Number.number)    (* the recorder's 'volume' event *)
| Elapse (ms : Z).                   (* time passes *)

Definition set_audioSource (src : AudioSource) : M state unit :=
  upd (fun s =>
    {| isRecording := isRecording s; micVolume := micVolume s; transcript := transcript s;
       sessionId := sessionId s; audioSource := src;
       recorderRef := recorderRef s; transcriptRef := transcriptRef s;
       sessionIdRef := sessionIdRef s; dbUpdateRef := dbUpdateRef s;
       timeout := timeout s; onended := onended s; connected := connected s;
       clock := clock s; browser := browser s; table := table s;
       requests := requests s; unhandled := unhandled s |}).

Definition react (env : environment) (ev : event) : M state unit :=
  match ev with
  | Mount uuid => set_session uuid ;; set_dbUpdateRef true
  | SelectSource src =>
      s <- get ;; if isRecording s then ret tt else set_audioSource src
  | Click => toggleBroadcast env
  | VideoTrackEnded =>
      s <- get ;; when_some (onended s) (fun _ => stopBroadcast env)
  | ContentEvent sc => handleContent sc
  | VolumeEvent v => setMicVolume v
  | Elapse ms =>
      s <- get ;;
      run_timers env (clock s + ms) ;;
      set_clock (clock s + ms)
  end.

(** An exception that escapes a handler ends that handler only. *)
Definition step (env : environment) (ev : event) (s : state) : state :=
  snd (react env ev s).

Definition run (evs : list (environment * event)) (s : state) : state :=
  fold_left (fun s '(env, ev) => step env ev s) evs s.

(** Text deltas arriving one by one, each with the time elapsed since
    the event before it. *)
Definition arrivals (env : environment) (deltas : list (Z * string)) :
  list (environment * event) :=
  flat_map
    (fun '(gap, d) => [(env, Elapse gap); (env, ContentEvent (Some [Some d]))])
    deltas.

Definition concat_texts (deltas : list string) : string :=
  fold_right append "" deltas.

(** The writes among the requests sent to the store. *)
Definition writes (s : state) : list Store.request :=
  filter (fun q => Store.is_write q = true) (requests s).

(** *** Relations between the state before and after an operation *)

Definition is_mount (ev : event) : bool :=
  match ev with
  | Mount _ => true
  | _ => false
  end.

(** The session identifier is the same, and the transcript buffer has
    only grown. *)
Definition same_session (s s' : state) : Prop :=
  sessionIdRef s' = sessionIdRef s /\ sessionId s' = sessionId s /\
  exists suffix, transcriptRef s' = (transcriptRef s ++ suffix)%string.

(** The transcript buffer, the capture and the connection are as they
    were, and so is the browser, its console included. *)
Definition session_untouched (s s' : state) : Prop :=
  transcriptRef s' = transcriptRef s /\ isRecording s' = isRecording s /\
  recorderRef s' = recorderRef s /\ connected s' = connected s /\
  browser s' = browser s.

(** [c] relates every state to the state it leaves. *)
Definition preserves (R : state -> state -> Prop) {A} (c : M state A) : Prop :=
  forall s, R s (snd (c s)).

End Broadcaster.

(** ** What a capture engages: the calls of [start], and references in use *)

Module Capture.
Import Eff Eff.Notations Browser AudioRecorder.

(** The calls [start] makes do not fail. *)
Definition setup_succeeds (fl : faults) (given : option handle) : Prop :=
  (given = None -> fl GetUserMedia = None) /\
  fl NewAudioContext = None /\ fl CreateMediaStreamSource = None /\
  fl CreateScriptProcessor = None /\ fl SourceConnect = None /\
  fl ProcessorConnect = None.

(** The calls of a [start] that goes through, in order. *)
Definition setup_plan (given : option handle) (s c n p : handle) : list (api * handle) :=
  match given with Some _ => [] | None => [(GetUserMedia, s)] end ++
  [(NewAudioContext, c); (CreateMediaStreamSource, n); (CreateScriptProcessor, p);
   (SourceConnect, n); (ProcessorConnect, p)].

(** Every reference the browser knows was handed out before [next]. *)
Definition allocated (w : world) : Prop :=
  (forall s, s ∈ live w -> (s < next w)%nat) /\
  (forall c, c ∈ running w -> (c < next w)%nat) /\
  (forall a b, (a, b) ∈ edges w -> (a < next w)%nat).

End Capture.

(** ** The volume meter of the [onaudioprocess] handler *)

Module Volume.
Import Number.

(** [x + y], [x / y] and [Math.sqrt(x)] *)
Definition add (x y : number) : number := SFadd prec emax x y.
Definition div (x y : number) : number := SFdiv prec emax x y.
Definition Math_sqrt (x : number) : number := SFsqrt prec emax x.

(** The sum of squares accumulated by the index loop of the volume
    meter. *)
Definition sum_squares (inputData : list number) : number :=
  fold_left
    (fun (sum : number) (i : nat) =>
       match inputData !! i with
       | Some x => add sum (mul x x)
       | None => sum
       end)
    (seq 0 (length inputData))
    (of_Z 0).

(** [Math.sqrt(sum / inputData.length)] *)
Definition rms (inputData : list number) : number :=
  Math_sqrt (div (sum_squares inputData) (of_Z (Z.of_nat (length inputData)))).

(** The sign bit is clear, or the value is NaN. *)
Definition nonnegative (x : number) : Prop :=
  match x with
  | S754_zero s | S754_infinity s | S754_finite s _ _ => s = false
  | S754_nan => True
  end.

Definition is_zero (x : number) : bool :=
  match x with S754_zero _ => true | _ => false end.

End Volume.

(** ** The payload of the 'data' event

  [btoa] is the browser's; it is written out here as the encoding it
  computes on a binary string, a string whose characters have codes
  below 256 (it throws on any other, and the recorder gives it
  none). *)

Module Base64.

(** The 64 digits, and the digit of a 6-bit value. *)
Definition alphabet : string :=
  "ABCDEFGHIJKLMNOPQRSTUVWXYZabcdefghijklmnopqrstuvwxyz0123456789+/".

(** The padding character [=]. *)
Definition pad : Ascii.ascii := Ascii.ascii_of_nat 61.

Definition digit (n : Z) : Ascii.ascii :=
  match String.get (Z.to_nat n) alphabet with
  | Some c => c
  | None => pad
  end.

(** The code unit of a character of a binary string. *)
Definition code (c : Ascii.ascii) : Z := Z.of_N (Ascii.N_of_ascii c).

(** [btoa(binary)]: three characters give four digits; one or two
    characters left over give two or three digits, padded with [=] to
    four. *)
Fixpoint btoa (binary : string) : string :=
  match binary with
  | EmptyString => EmptyString
  | String a EmptyString =>
      let n := code a * 16 in
      String (digit (n / 64)) (String (digit (n mod 64)) "==")
  | String a (String b EmptyString) =>
      let n := (code a * 256 + code b) * 4 in
      String (digit (n / 4096))
        (String (digit (n / 64 mod 64)) (String (digit (n mod 64)) "="))
  | String a (String b (String c rest)) =>
      let n := code a * 65536 + code b * 256 + code c in
      String (digit (n / 262144))
        (String (digit (n / 4096 mod 64))
           (String (digit (n / 64 mod 64))
              (String (digit (n mod 64)) (btoa rest))))
  end.

(** The position of a character among the digits ([64] if it is none). *)
Fixpoint index_from (i : Z) (c : Ascii.ascii) (digits : string) : Z :=
  match digits with
  | EmptyString => i
  | String d rest => if Ascii.eqb c d then i else index_from (i + 1) c rest
  end.

Definition index (c : Ascii.ascii) : Z := index_from 0 c alphabet.

End Base64.

Module Transport.
Import Number AudioRecorderEncoder Base64.

(** [new Uint8Array(int16.buffer)]: the storage of an [Int16Array], two
    bytes per element in two's complement, low byte first (typed arrays
    use the byte order of the platform, little-endian wherever browsers
    run). *)
Definition bytes_of_int16 (z : Z) : list Z :=
  let u := z mod 65536 in [u mod 256; u / 256].

Definition buffer (int16 : list Z) : list Z := flat_map bytes_of_int16 int16.

(** [String.fromCharCode(b)] for a byte [b] *)
Definition fromCharCode (b : Z) : Ascii.ascii := Ascii.ascii_of_N (Z.to_N b).

(** [arrayBufferToBase64]: the bytes are appended one by one to a binary
    string, which is then encoded. *)
Definition binary_string (bytes : list Z) : string :=
  fold_left
    (fun (binary : string) (i : nat) =>
       match bytes !! i with
       | Some b => (binary ++ String (fromCharCode b) "")%string
       | None => binary
       end)
    (seq 0 (length bytes))
    ""%string.

Definition arrayBufferToBase64 (bytes : list Z) : string := btoa (binary_string bytes).

(** What the [onaudioprocess] handler emits for one input buffer, in
    order. *)
Inductive emitted :=
| Data (base64 : string)
| VolumeLevel (rms : number).

Definition onaudioprocess (inputData : list number) : list emitted :=
  let pcm16 := convertFloat32ToInt16 inputData in
  [Data (arrayBufferToBase64 (buffer pcm16)); VolumeLevel (Volume.rms inputData)].

End Transport.

(** ** The component's remaining effect, and relations on its state *)

Module Session.
Import Eff Eff.Notations Broadcaster.

(** The cleanup of the last effect, run when the component unmounts:
    [recorderRef.current?.stop()]. *)
Definition unmount (env : environment) : M state unit := recorder_stop env.

(** The texts of the parts that have one. *)
Definition texts (parts : list part) : list string := omap (fun p : part => p) parts.

(** The events of the capture controls. *)
Definition is_control (ev : event) : bool :=
  match ev with
  | SelectSource _ | Click | VideoTrackEnded | VolumeEvent _ => true
  | _ => false
  end.

(** The persister's side of the state is as it was. *)
Definition persister_untouched (s s' : state) : Prop :=
  timeout s' = timeout s /\ clock s' = clock s /\ table s' = table s /\
  requests s' = requests s /\ unhandled s' = unhandled s /\
  transcriptRef s' = transcriptRef s /\ transcript s' = transcript s /\
  sessionIdRef s' = sessionIdRef s /\ dbUpdateRef s' = dbUpdateRef s.

(** The capture's side of the state is as it was. *)
Definition capture_untouched (s s' : state) : Prop :=
  isRecording s' = isRecording s /\ recorderRef s' = recorderRef s /\
  connected s' = connected s /\ browser s' = browser s /\
  onended s' = onended s.

Definition same_source (s s' : state) : Prop := audioSource s' = audioSource s.

(** The events that act on the capture. *)
Definition acts_on_capture (ev : event) : bool :=
  match ev with
  | Click | VideoTrackEnded => true
  | _ => false
  end.

(** The recorder holds its four objects, engaged in the browser: the
    stream is live, the context open, and the graph wired from the
    source through the processor to the destination. *)
Definition capturing (r : AudioRecorder.fields) (w : Browser.world) : Prop :=
  exists s c n p,
    r = {| AudioRecorder.stream := Some s; AudioRecorder.audioContext := Some c;
           AudioRecorder.source := Some n; AudioRecorder.processor := Some p |} /\
    s ∈ Browser.live w /\ c ∈ Browser.running w /\
    (n, p) ∈ Browser.edges w /\ (p, c) ∈ Browser.edges w.

(** What the status indicator shows agrees with what is going on: ON AIR
    goes with an open connection and a capturing recorder, OFFLINE with
    a closed connection and a recorder that holds nothing. *)
Definition consistent (s : state) : Prop :=
  connected s = isRecording s /\
  (isRecording s = true ->
   exists r, recorderRef s = Some r /\ capturing r (browser s)) /\
  (isRecording s = false ->
   forall r, recorderRef s = Some r -> r = AudioRecorder.fresh_recorder).

End Session.

(** ** What the persister has sent *)

Module Ledger.
Import Eff Eff.Notations Broadcaster.

(** [t] is the beginning of [text]. *)
Definition prefix_of (t text : string) : Prop :=
  exists suffix, text = (t ++ suffix)%string.

(** Each text is the beginning of all the texts after it. *)
Fixpoint growing (l : list string) : Prop :=
  match l with
  | [] => True
  | t :: l' => Forall (prefix_of t) l' /\ growing l'
  end.

(** The texts sent to the store, oldest first. *)
Definition sent_texts (s : state) : list string := omap Store.text_of (requests s).

(** The text the pending save will write, if a save is pending. *)
Definition pending_text (s : state) : list string :=
  match timeout s with
  | Some (_, text) => [text]
  | None => []
  end.

(** The session has at most one row, under a primary key. *)
Definition one_row (s : state) : Prop :=
  Store.primary_key (table s) /\
  (length (Store.matching (sessionIdRef s) (table s)) <= 1)%nat.

End Ledger.

(** ** The earlier revision of [toggleBroadcast] *)

Module Earlier.
Import Eff Eff.Notations Broadcaster.

(** [toggleBroadcast] of the earlier revision of the component: the
    microphone is the only source, the stop sequence is written in
    place, and the start sequence is not wrapped in [try]/[catch]. *)
Definition toggleBroadcast (env : environment) : M state unit :=
  s <- get ;;
  if isRecording s then
    recorder_stop env ;;
    disconnect ;;
    setIsRecording false ;;
    setMicVolume (Number.of_Z 0)
  else
    connect env ;;
    setIsRecording true ;;
    s <- get ;;
    set_recorder (Some AudioRecorder.fresh_recorder) (browser s) ;;
    on_recorder AudioRecorder.fresh_recorder
      (AudioRecorder.start (recorder_faults env) None).

End Earlier.

(** ** The stores of lib/state: settings, tools and the conversation log *)

Module Settings.
Import Number.

Inductive VoiceStyle :=
| natural | conversational | formal | enthusiastic | breathy | dramatic.

(** The double-quote character, for the templates that hold one. *)
Definition quote : string := String (Ascii.ascii_of_nat 34) "".

Definition is_empty (text : string) : bool :=
  match text with
  | EmptyString => true
  | _ => false
  end.

Definition personaInstruction : string :=
  "
VOICE PERSONA (The Versatile Voice Actor):
- **Core Tone**: Clear, neutral but engaging, and human-like.
- **Adaptability**: You must instantly shift tone, rhythm, and projection based on the (style tags) in the input.
- **Rhythm**: Standard conversational pace with natural breathing unless instructed otherwise.
- **Attitude**: Helpful, polite, present.
".

Definition template_0 : string :=
  "
SYSTEM MODE: STRICT TEXT-TO-SPEECH (TTS) ENGINE.
Role: You are an Elite Simultaneous Interpreter & Voice Actor.
Target Language: [".

Definition template_1 : string :=
  "]
".

Definition template_2 : string :=
  "

⛔️ AUDIO STYLE TAGS PROTOCOL (CRITICAL):
1. The input text contains audio style tags enclosed in parentheses (...).
   Examples: (excitedly), (soft inhale), (pause), (clears throat), (slowly), (professionally).
2. **THESE ARE SILENT INSTRUCTIONS FOR THE ACTOR.**
3. **NEVER READ THE TAGS ALOUD.** 
   - Incorrect: " +:+ quote +:+ "Excitedly, hello there." +:+ quote +:+ "
   - Correct: " +:+ quote +:+ "Hello there!" +:+ quote +:+ " (spoken in an excited tone)
4. **ACT OUT NON-VERBAL TAGS.**
   - If input is " +:+ quote +:+ "(clears throat)" +:+ quote +:+ ", make the sound *hrrrm*, do NOT say " +:+ quote +:+ "clears throat" +:+ quote +:+ ".
   - If input is " +:+ quote +:+ "(soft inhale)" +:+ quote +:+ ", take a breath.

⛔️ NON-CONVERSATIONAL PROTOCOL (STRICT):
1. You are NOT a chatbot. You are NOT a conversational partner.
2. You must NOT reply to the text. You must NOT ask questions.
3. You must NOT say " +:+ quote +:+ "Okay" +:+ quote +:+ ", " +:+ quote +:+ "Sure" +:+ quote +:+ ", " +:+ quote +:+ "Here is the translation" +:+ quote +:+ ", or " +:+ quote +:+ "I understand" +:+ quote +:+ ".
4. You must IMMEDIATELY perform the translation of the input text into audio.

OBJECTIVE:
Translate the incoming text segments into [".

Definition template_3 : string :=
  "] immediately and speak them.

PRONUNCIATION & VOCABULARY PROTOCOL:
1. **Native Authenticity**: You MUST adopt the exact accent, intonation, and phonology of a native speaker of the target locale. 
2. **Vocabulary Precision**: Use accurate local terminology, slang, and idioms appropriate for the region.
3. **Specific Handling**:
   - If [Taglish (Philippines)] is selected, you must naturally mix English and Tagalog (code-switching) as a native Manileño would.
4. **Natural Delivery**: Speak as a human, not a machine. Include natural breath pauses.

".

Definition template_4 : string :=
  "

PERFORM THE TRANSLATION NOW.
".

Section Store.

(** How a template literal prints a Number ([Number::toString]), and the
    two constants imported from [./constants]; none of them is among
    the sources. *)
Variable toString : number -> string.
Variables DEFAULT_LIVE_API_MODEL DEFAULT_VOICE : string.

Definition speedInstruction (speed : number) : string :=
  if lt speed (of_Z 1) then
    "PACE: Slower than normal (" +:+ toString speed +:+
    "x). Enunciate clearly and take your time."
  else if lt (of_Z 1) speed then
    "PACE: Faster than normal (" +:+ toString speed +:+
    "x). Speak quickly and efficiently."
  else "PACE: Natural, conversational speed.".

(** [generateSystemPrompt(language, speed)] *)
Definition generateSystemPrompt (language : string) (speed : number) : string :=
  template_0 +:+
  (if is_empty language then "Taglish (Philippines)" else language) +:+
  template_1 +:+
  speedInstruction speed +:+
  template_2 +:+
  language +:+
  template_3 +:+
  personaInstruction +:+
  template_4.

Record state := {
  systemPrompt : string;
  model : string;
  voice : string;
  speakerStyles : gmap string VoiceStyle;
  language : string;
  speechRate : number;
  backgroundPadEnabled : bool;
  backgroundPadVolume : number
}.

(** The store as created; [0.2] is [7205759403792794 * 2 ^ -55]. *)
Definition initial : state :=
  {| language := "Taglish (Philippines)";
     speechRate := of_Z 1;
     speakerStyles :=
       {[ "default" := conversational; "Male 1" := conversational;
          "Male 2" := conversational; "Female 1" := conversational;
          "Female 2" := conversational ]};
     systemPrompt := generateSystemPrompt "Taglish (Philippines)" (of_Z 1);
     model := DEFAULT_LIVE_API_MODEL;
     voice := DEFAULT_VOICE;
     backgroundPadEnabled := false;
     backgroundPadVolume := S754_finite false 7205759403792794 (-55) |}.

Definition setSystemPrompt (prompt : string) (st : state) : state :=
  {| systemPrompt := prompt; model := model st; voice := voice st;
     speakerStyles := speakerStyles st; language := language st;
     speechRate := speechRate st; backgroundPadEnabled := backgroundPadEnabled st;
     backgroundPadVolume := backgroundPadVolume st |}.

Definition setModel (m : string) (st : state) : state :=
  {| systemPrompt := systemPrompt st; model := m; voice := voice st;
     speakerStyles := speakerStyles st; language := language st;
     speechRate := speechRate st; backgroundPadEnabled := backgroundPadEnabled st;
     backgroundPadVolume := backgroundPadVolume st |}.

Definition setVoice (v : string) (st : state) : state :=
  {| systemPrompt := systemPrompt st; model := model st; voice := v;
     speakerStyles := speakerStyles st; language := language st;
     speechRate := speechRate st; backgroundPadEnabled := backgroundPadEnabled st;
     backgroundPadVolume := backgroundPadVolume st |}.

Definition setSpeakerStyle (speaker : string) (style : VoiceStyle) (st : state) : state :=
  {| systemPrompt := systemPrompt st; model := model st; voice := voice st;
     speakerStyles := <[speaker := style]> (speakerStyles st); language := language st;
     speechRate := speechRate st; backgroundPadEnabled := backgroundPadEnabled st;
     backgroundPadVolume := backgroundPadVolume st |}.

Definition setLanguage (l : string) (st : state) : state :=
  {| systemPrompt := generateSystemPrompt l (speechRate st);
     model := model st; voice := voice st;
     speakerStyles := speakerStyles st; language := l;
     speechRate := speechRate st; backgroundPadEnabled := backgroundPadEnabled st;
     backgroundPadVolume := backgroundPadVolume st |}.

Definition setSpeechRate (rate : number) (st : state) : state :=
  {| systemPrompt := generateSystemPrompt (language st) rate;
     model := model st; voice := voice st;
     speakerStyles := speakerStyles st; language := language st;
     speechRate := rate; backgroundPadEnabled := backgroundPadEnabled st;
     backgroundPadVolume := backgroundPadVolume st |}.

Definition setBackgroundPadEnabled (enabled : bool) (st : state) : state :=
  {| systemPrompt := systemPrompt st; model := model st; voice := voice st;
     speakerStyles := speakerStyles st; language := language st;
     speechRate := speechRate st; backgroundPadEnabled := enabled;
     backgroundPadVolume := backgroundPadVolume st |}.

Definition setBackgroundPadVolume (volume : number) (st : state) : state :=
  {| systemPrompt := systemPrompt st; model := model st; voice := voice st;
     speakerStyles := speakerStyles st; language := language st;
     speechRate := speechRate st; backgroundPadEnabled := backgroundPadEnabled st;
     backgroundPadVolume := volume |}.

(** The calls on the store. *)
Inductive action :=
| SetSystemPrompt (prompt : string)
| SetModel (m : string)
| SetVoice (v : string)
| SetSpeakerStyle (speaker : string) (style : VoiceStyle)
| SetLanguage (l : string)
| SetSpeechRate (rate : number)
| SetBackgroundPadEnabled (enabled : bool)
| SetBackgroundPadVolume (volume : number).

Definition apply (a : action) (st : state) : state :=
  match a with
  | SetSystemPrompt prompt => setSystemPrompt prompt st
  | SetModel m => setModel m st
  | SetVoice v => setVoice v st
  | SetSpeakerStyle speaker style => setSpeakerStyle speaker style st
  | SetLanguage l => setLanguage l st
  | SetSpeechRate rate => setSpeechRate rate st
  | SetBackgroundPadEnabled enabled => setBackgroundPadEnabled enabled st
  | SetBackgroundPadVolume volume => setBackgroundPadVolume volume st
  end.

Definition is_prompt_edit (a : action) : bool :=
  match a with
  | SetSystemPrompt _ => true
  | _ => false
  end.

(** The prompt is the one generated for the language and the rate. *)
Definition in_sync (st : state) : Prop :=
  systemPrompt st = generateSystemPrompt (language st) (speechRate st).

End Store.

End Settings.

Module Tools.

(** [FunctionResponseScheduling] of the client library. *)
Inductive FunctionResponseScheduling :=
| SCHEDULING_UNSPECIFIED | SILENT | WHEN_IDLE | INTERRUPT.

(** A parameter schema: [{ type, properties }]. *)
Inductive schema :=
| Schema (type : string) (properties : list property)
with property :=
| Property (key : string) (value : schema).

Record FunctionCall := {
  name : string;
  description : option string;
  parameters : option schema;
  isEnabled : bool;
  scheduling : option FunctionResponseScheduling
}.

Record state := {
  tools : list FunctionCall;
  warnings : list string            (* console.warn lines, oldest first *)
}.

(** The store as created. *)
Definition initial : state := {| tools := []; warnings := [] |}.

Definition set_tools (l : list FunctionCall) (st : state) : state :=
  {| tools := l; warnings := warnings st |}.

(** [state.tools.some(tool => tool.name === n)] *)
Definition some_named (n : string) (l : list FunctionCall) : bool :=
  existsb (fun tool => String.eqb (name tool) n) l.

(** [toggleTool] *)
Definition toggleTool (toolName : string) (st : state) : state :=
  set_tools
    (map (fun tool =>
            if String.eqb (name tool) toolName
            then {| name := name tool; description := description tool;
                    parameters := parameters tool; isEnabled := negb (isEnabled tool);
                    scheduling := scheduling tool |}
            else tool)
         (tools st))
    st.

(** The loop of [addTool]: [newToolName] and [counter] are its two
    variables; [fuel] bounds the number of iterations.  The counter is
    printed in decimal, as a template literal prints an integer. *)
Fixpoint pick_name (fuel : nat) (l : list FunctionCall) (newToolName : string)
         (counter : nat) : option string :=
  if some_named newToolName l then
    match fuel with
    | O => None
    | S fuel' => pick_name fuel' l ("new_function_" +:+ pretty counter) (S counter)
    end
  else Some newToolName.

Definition new_tool (n : string) : FunctionCall :=
  {| name := n; isEnabled := true; description := Some ""%string;
     parameters := Some (Schema "OBJECT" []); scheduling := Some INTERRUPT |}.

(** [addTool] *)
Definition addTool (fuel : nat) (st : state) : option state :=
  match pick_name fuel (tools st) "new_function" 1 with
  | Some n => Some (set_tools (tools st ++ [new_tool n]) st)
  | None => None
  end.

(** [removeTool] *)
Definition removeTool (toolName : string) (st : state) : state :=
  set_tools (filter (fun tool => name tool <> toolName) (tools st)) st.

(** The line that [updateTool] logs with [console.warn]. *)
Definition already_exists (n : string) : string :=
  "Tool with name " +:+ Settings.quote +:+ n +:+ Settings.quote +:+ " already exists.".

(** [updateTool] *)
Definition updateTool (oldName : string) (updatedTool : FunctionCall) (st : state) :
  state :=
  if negb (String.eqb oldName (name updatedTool)) &&
     some_named (name updatedTool) (tools st)
  then {| tools := tools st;
          warnings := warnings st ++ [already_exists (name updatedTool)] |}
  else set_tools
         (map (fun tool => if String.eqb (name tool) oldName then updatedTool else tool)
              (tools st))
         st.

(** The calls on the store. *)
Inductive action :=
| ToggleTool (toolName : string)
| AddTool
| RemoveTool (toolName : string)
| UpdateTool (oldName : string) (updatedTool : FunctionCall).

Definition names (st : state) : list string := map name (tools st).

(** The names the loop of [addTool] tries, in order. *)
Definition candidate (k : nat) : string :=
  match k with
  | O => "new_function"
  | S _ => "new_function_" +:+ pretty k
  end.

(** One call; [addTool] runs its loop for as many rounds as there are
    tools, which is as many as it can need. *)
Definition apply (a : action) (st : state) : option state :=
  match a with
  | ToggleTool toolName => Some (toggleTool toolName st)
  | AddTool => addTool (length (tools st)) st
  | RemoveTool toolName => Some (removeTool toolName st)
  | UpdateTool oldName updatedTool => Some (updateTool oldName updatedTool st)
  end.

Fixpoint run (acts : list action) (st : state) : option state :=
  match acts with
  | [] => Some st
  | a :: acts' =>
      match apply a st with
      | Some st' => run acts' st'
      | None => None
      end
  end.

End Tools.

Module LogStore.

(** The values a field of a [ConversationTurn] may hold. *)
Inductive value :=
| VUndefined
| VString (s : string)
| VBool (b : bool)
| VDate (ms : Z)
| VObject (reference : nat).

#[global] Instance value_eq_dec : EqDecision value.
Proof. solve_decision. Defined.

(** A turn, and a partial turn: an object with the fields it has. *)
Abbreviation turn := (gmap string value).

(** [{ ...a, ...b }]: the fields of [b] override those of [a]. *)
Definition spread (a b : turn) : turn := b ∪ a.

(** [addTurn]; [now] is what [new Date()] gives. *)
Definition addTurn (now : Z) (t : turn) (turns : list turn) : list turn :=
  turns ++ [spread t {["timestamp" := VDate now]}].

(** [updateLastTurn] *)
Definition updateLastTurn (update : turn) (turns : list turn) : list turn :=
  if Nat.eqb (length turns) 0 then turns
  else
    let newTurns := turns in
    let lastTurn := spread (default ∅ (newTurns !! (length newTurns - 1)%nat)) update in
    <[(length newTurns - 1)%nat := lastTurn]> newTurns.

(** [updateTurn] *)
Definition updateTurn (id : string) (update : turn) (turns : list turn) : list turn :=
  map (fun t => if decide (t !! "id" = Some (VString id)) then spread t update else t)
      turns.

(** [clearTurns] *)
Definition clearTurns (turns : list turn) : list turn := [].

End LogStore.

(** * Properties *)

Import Number Float32 AudioRecorderEncoder EncoderRule.

Section Rounding.

Lemma digits2_pos_size (p : positive) : digits2_pos p = Pos.size p.
Proof. induction p; simpl; congruence. Qed.

Lemma Zdigits2_log2 (p : positive) : Zdigits2 (Zpos p) = Z.log2 (Zpos p) + 1.
Proof.
  unfold Zdigits2. rewrite digits2_pos_size.
  destruct p; simpl; lia.
Qed.

Lemma Zdigits2_mul_pow2 (p : positive) (j : Z) :
  0 <= j -> Zdigits2 (Zpos p * 2 ^ j) = Zdigits2 (Zpos p) + j.
Proof.
  intros Hj.
  assert (Hpos : 0 < Zpos p * 2 ^ j) by (apply Z.mul_pos_pos; [lia | apply Z.pow_pos_nonneg; lia]).
  destruct (Zpos p * 2 ^ j) as [|q|q] eqn:E; try lia.
  rewrite !Zdigits2_log2, <- E, Z.log2_mul_pow2 by lia. lia.
Qed.

Lemma Zdigits2_bound (p : positive) (k : Z) :
  Zpos p < 2 ^ k -> Zdigits2 (Zpos p) <= k.
Proof.
  intros H. rewrite Zdigits2_log2.
  assert (0 <= k).
  { destruct (Z.lt_ge_cases k 0) as [Hk|Hk]; [rewrite Z.pow_neg_r in H by exact Hk|]; lia. }
  assert (Z.log2 (Zpos p) < k) by (apply Z.log2_lt_pow2; lia).
  lia.
Qed.

Lemma Zdigits2_lt_pow2 (p : positive) : Zpos p < 2 ^ Zdigits2 (Zpos p).
Proof.
  rewrite Zdigits2_log2. 
  pose proof (Z.log2_spec (Zpos p)). rewrite <- Z.add_1_r in *. lia.
Qed.

Lemma Zdigits2_ge_pow2 (p : positive) : 2 ^ (Zdigits2 (Zpos p) - 1) <= Zpos p.
Proof.
  rewrite Zdigits2_log2. replace (Z.log2 (Z.pos p) + 1 - 1) with (Z.log2 (Zpos p)) by lia.
  apply Z.log2_spec. lia.
Qed.

Lemma iter_shr_1_exact (p : positive) :
  forall k : Z, 0 <= k ->
    SpecFloat.iter_pos shr_1 p (Build_shr_record (k * 2 ^ Zpos p) false false)
    = Build_shr_record k false false.
Proof.
  assert (one_step : forall k, 0 <= k ->
            shr_1 (Build_shr_record (k * 2) false false) = Build_shr_record k false false).
  { intros k Hk. rewrite Z.mul_comm. destruct k; try lia; reflexivity. }
  induction p as [p IH | p IH |]; intros k Hk; cbn [SpecFloat.iter_pos].
  - replace (k * 2 ^ Zpos p~1) with (k * 2 ^ Zpos p * 2 ^ Zpos p * 2).
    + rewrite one_step, !IH by (try apply Z.mul_nonneg_nonneg; lia). reflexivity.
    + assert (Zpos p~1 = Zpos p + Zpos p + 1) as -> by lia.
      rewrite !Z.pow_add_r, Z.pow_1_r by lia. ring.
  - replace (k * 2 ^ Zpos p~0) with (k * 2 ^ Zpos p * 2 ^ Zpos p).
    + rewrite !IH by (try apply Z.mul_nonneg_nonneg; lia). reflexivity.
    + assert (Zpos p~0 = Zpos p + Zpos p) as -> by lia.
      rewrite Z.pow_add_r by lia. ring.
  - rewrite Z.pow_1_r. now apply one_step.
Qed.

Lemma shr_fexp_exact (m0 : positive) (j E : Z) :
  0 <= j -> Zdigits2 (Zpos m0) <= 53 -> -1074 <= E + j ->
  let n := Z.max 0 (fexp prec emax (Zdigits2 (Zpos m0) + j + E) - E) in
  n <= j /\
  shr_fexp prec emax (Zpos m0 * 2 ^ j) E loc_Exact
  = (Build_shr_record (Zpos m0 * 2 ^ (j - n)) false false, E + n).
Proof.
  intros Hj Hd HE n.
  assert (Hn : n <= j) by (unfold n, fexp, emin, prec, emax; lia).
  split; [exact Hn|].
  unfold shr_fexp. rewrite Zdigits2_mul_pow2 by exact Hj.
  cbn [shr_record_of_loc]. unfold shr.
  destruct (fexp prec emax (Zdigits2 (Zpos m0) + j + E) - E) as [|p|p] eqn:Hs.
  - replace n with 0 by (unfold n; lia). now rewrite Z.sub_0_r, Z.add_0_r.
  - replace n with (Zpos p) in * by (unfold n; lia).
    replace (Zpos m0 * 2 ^ j) with (Zpos m0 * 2 ^ (j - Zpos p) * 2 ^ Zpos p).
    + rewrite iter_shr_1_exact; [reflexivity|].
      apply Z.mul_nonneg_nonneg; [lia | apply Z.pow_nonneg; lia].
    + rewrite <- Z.mul_assoc, <- Z.pow_add_r by lia. do 2 f_equal. lia.
  - replace n with 0 by (unfold n; lia). now rewrite Z.sub_0_r, Z.add_0_r.
Qed.

(** Rounding is the identity on a product whose odd part fits in the
    significand and whose exponent is in range. *)
Lemma binary_round_aux_exact (s : bool) (m0 : positive) (j E : Z) :
  0 <= j -> Zdigits2 (Zpos m0) <= 53 -> -1074 <= E + j ->
  Zdigits2 (Zpos m0) + j + E <= 1024 -> E <= 971 ->
  exists (m' : positive) (n : Z),
    0 <= n <= j /\ Zpos m' = Zpos m0 * 2 ^ (j - n) /\
    binary_round_aux prec emax s (Zpos m0 * 2 ^ j) E loc_Exact
    = S754_finite s m' (E + n).
Proof.
  intros Hj Hd HE Hmax HE'.
  destruct (shr_fexp_exact m0 j E Hj Hd HE) as [Hn Hshr].
  set (n := Z.max 0 (fexp prec emax (Zdigits2 (Zpos m0) + j + E) - E)) in *.
  assert (Hn0 : 0 <= n) by (unfold n; lia).
  destruct (shr_fexp_exact m0 (j - n) (E + n)) as [_ Hshr2]; try lia.
  replace (Z.max 0 (fexp prec emax (Zdigits2 (Zpos m0) + (j - n) + (E + n)) - (E + n)))
    with 0 in Hshr2 by (unfold n, fexp, emin, prec, emax; lia).
  rewrite Z.sub_0_r, Z.add_0_r in Hshr2.
  unfold binary_round_aux. rewrite Hshr.
  cbn [shr_m loc_of_shr_record round_nearest_even]. rewrite Hshr2. cbn [shr_m].
  assert (Hpos : 0 < Zpos m0 * 2 ^ (j - n))
    by (apply Z.mul_pos_pos; [lia | apply Z.pow_pos_nonneg; lia]).
  destruct (Zpos m0 * 2 ^ (j - n)) as [|m'|m'] eqn:Hm; try lia.
  exists m', n. repeat split; try lia.
  replace (E + n <=? emax - prec) with true; [reflexivity|].
  symmetry. apply Z.leb_le. unfold n, fexp, emin, prec, emax in *. lia.
Qed.

End Rounding.

Section EncoderFacts.

Lemma odd_part_spec (m : positive) :
  0 <= trailing_zeros m /\ Zpos m = Zpos (odd_part m) * 2 ^ trailing_zeros m.
Proof.
  induction m as [m IH | m IH |]; cbn [trailing_zeros odd_part].
  - split; [lia | now rewrite Z.pow_0_r, Z.mul_1_r].
  - destruct IH as [IH0 IH]. split; [lia|].
    rewrite Z.pow_succ_r by exact IH0.
    rewrite Pos2Z.inj_xO, IH. ring.
  - split; [lia | reflexivity].
Qed.

Lemma shiftl_mul_pow2_l (a u e : Z) :
  0 <= u -> Z.shiftl (a * 2 ^ u) e = Z.shiftl a (u + e).
Proof.
  intros Hu. rewrite <- Z.shiftl_mul_pow2 by exact Hu.
  now apply Z.shiftl_shiftl.
Qed.

Lemma bounded_digits (m : positive) (e : Z) :
  bounded prec emax m e = true ->
  Zdigits2 (Zpos m) <= 53 /\ -1074 <= e <= 971 /\
  (-1074 < e -> Zdigits2 (Zpos m) = 53).
Proof.
  unfold bounded, canonical_mantissa, fexp, emin, prec, emax.
  intros H. apply andb_prop in H as [H1 H2].
  apply Z.eqb_eq in H1. apply Z.leb_le in H2.
  change (Zpos (digits2_pos m)) with (Zdigits2 (Zpos m)) in H1. lia.
Qed.

(** Multiplying a binary32 value by a constant [c0 * 2 ^ (kc + ec)] with a
    short significand is exact in binary64. *)
Lemma mul_const_exact (s : bool) (m : positive) (e : Z)
      (mc c0 : positive) (kc ec : Z) :
  representable (S754_finite s m e) = true ->
  Zpos mc = Zpos c0 * 2 ^ kc -> 0 <= kc -> Zpos c0 < 2 ^ 16 ->
  -16 <= kc + ec <= 16 -> ec <= 0 ->
  exists (m' : positive) (e' : Z),
    mul (S754_finite s m e) (S754_finite false mc ec) = S754_finite s m' e' /\
    Z.shiftl (Zpos m') e' = Z.shiftl (Zpos m * Zpos c0) (e + kc + ec).
Proof.
  intros Hrep Hmc Hkc Hc0 Hk Hec.
  unfold representable in Hrep. cbn [valid valid_binary] in Hrep.
  apply andb_prop in Hrep as [Hval Hrep].
  apply andb_prop in Hrep as [Hrep H128].
  apply andb_prop in Hrep as [H24 H149].
  apply Z.leb_le in H24, H149, H128.
  apply bounded_digits in Hval as (_ & He & _).
  destruct (odd_part_spec m) as [Htz Hm].
  set (tz := trailing_zeros m) in *. set (o := odd_part m) in *.
  pose proof (Zdigits2_lt_pow2 o) as Ho.
  assert (Ho24 : Zpos o < 2 ^ 24).
  { eapply Z.lt_le_trans; [exact Ho|]. apply Z.pow_le_mono_r; lia. }
  assert (Hpos_d : 0 < Zdigits2 (Zpos o)) by (unfold Zdigits2; lia).
  assert (Hprod : Zdigits2 (Zpos (o * c0)) <= 40).
  { apply Zdigits2_bound. rewrite Pos2Z.inj_mul.
    change (2 ^ 40) with (2 ^ 24 * 2 ^ 16). nia. }
  destruct (binary_round_aux_exact s (o * c0) (tz + kc) (e + ec))
    as (m' & n & Hn & Hm' & Hround); try lia.
  exists m', (e + ec + n). split.
  - unfold mul, SFmul. rewrite xorb_false_r, <- Hround. f_equal.
    rewrite !Pos2Z.inj_mul, Hm, Hmc, Z.pow_add_r by lia. ring.
  - rewrite Hm', Hm, shiftl_mul_pow2_l by lia.
    replace (Zpos o * 2 ^ tz * Zpos c0) with (Zpos (o * c0) * 2 ^ tz)
      by (rewrite Pos2Z.inj_mul; ring).
    rewrite shiftl_mul_pow2_l by lia. f_equal. lia.
Qed.

Lemma of_Z_1 : of_Z 1 = S754_finite false 4503599627370496 (-52).
Proof. reflexivity. Qed.
Lemma of_Z_m1 : of_Z (-1) = S754_finite true 4503599627370496 (-52).
Proof. reflexivity. Qed.
Lemma of_Z_0 : of_Z 0 = S754_zero false.
Proof. reflexivity. Qed.
Lemma of_Z_0x8000 : of_Z 0x8000 = S754_finite false 4503599627370496 (-37).
Proof. reflexivity. Qed.
Lemma of_Z_0x7FFF : of_Z 0x7FFF = S754_finite false 9006924376834048 (-38).
Proof. reflexivity. Qed.

Lemma SFltb_finite_pos (m n : positive) (e f : Z) :
  SFltb (S754_finite false m e) (S754_finite false n f) = true
  <-> e < f \/ (e = f /\ Zpos m < Zpos n).
Proof.
  unfold SFltb, SFcompare.
  change (Pos.compare_cont Eq m n) with (Z.compare (Zpos m) (Zpos n)).
  destruct (Z.compare_spec e f) as [He|He|He].
  - destruct (Z.compare_spec (Zpos m) (Zpos n)) as [Hm|Hm|Hm];
      split; intros H; try discriminate; try reflexivity; try lia.
  - split; [left; lia | reflexivity].
  - split; [discriminate | lia].
Qed.

Lemma SFltb_finite_neg (m n : positive) (e f : Z) :
  SFltb (S754_finite true n f) (S754_finite true m e) = true
  <-> e < f \/ (e = f /\ Zpos m < Zpos n).
Proof.
  unfold SFltb, SFcompare.
  change (Pos.compare_cont Eq n m) with (Z.compare (Zpos n) (Zpos m)).
  destruct (Z.compare_spec f e) as [He|He|He].
  - destruct (Z.compare_spec (Zpos n) (Zpos m)) as [Hm|Hm|Hm];
      split; intros H; cbn [CompOpp] in *;
      try discriminate; try reflexivity; try lia.
  - split; [discriminate | lia].
  - split; [left; lia | reflexivity].
Qed.

Lemma lt_one_pos (m : positive) (e : Z) :
  lt (S754_finite false m e) (of_Z 1) = true <-> below_one m e.
Proof. rewrite of_Z_1. apply SFltb_finite_pos. Qed.

Lemma lt_mone_neg (m : positive) (e : Z) :
  lt (of_Z (-1)) (S754_finite true m e) = true <-> below_one m e.
Proof. rewrite of_Z_m1. apply SFltb_finite_neg. Qed.

Lemma below_one_bound (m : positive) (e : Z) :
  bounded prec emax m e = true -> below_one m e ->
  e < 0 /\ Zpos m < 2 ^ (- e).
Proof.
  intros Hb [He | [He Hm]].
  - split; [lia|]. apply bounded_digits in Hb as (Hd & _).
    eapply Z.lt_le_trans; [apply Zdigits2_lt_pow2|].
    apply Z.pow_le_mono_r; lia.
  - subst e. split; [lia | exact Hm].
Qed.

Lemma not_below_one_bound (m : positive) (e : Z) :
  bounded prec emax m e = true -> ~ below_one m e ->
  e < 0 -> 2 ^ (- e) <= Zpos m.
Proof.
  intros Hb Hn He. unfold below_one in Hn.
  destruct (Z.eq_dec e (-52)) as [->|Hne]; [change (2 ^ (- -52)) with (2 ^ 52); lia|].
  apply bounded_digits in Hb as (_ & _ & Hd).
  eapply Z.le_trans; [|apply Zdigits2_ge_pow2].
  apply Z.pow_le_mono_r; lia.
Qed.

Lemma ToInt16_small (s : bool) (m : positive) (e : Z) :
  -32768 <= truncate (S754_finite s m e) <= 32767 ->
  ToInt16 (S754_finite s m e) = truncate (S754_finite s m e).
Proof.
  intros H. unfold ToInt16.
  set (t := truncate (S754_finite s m e)) in *.
  change (2 ^ 16) with 65536. change (2 ^ 15) with 32768.
  destruct (Z.leb_spec 32768 (t mod 65536)) as [Hw|Hw].
  - destruct (Z.neg_nonneg_cases t) as [Ht|Ht].
    + rewrite <- (Z.mod_unique t 65536 (-1) (t + 65536)); lia.
    + rewrite Z.mod_small in Hw; lia.
  - destruct (Z.neg_nonneg_cases t) as [Ht|Ht].
    + rewrite <- (Z.mod_unique t 65536 (-1) (t + 65536)) in Hw; lia.
    + rewrite Z.mod_small; lia.
Qed.

Lemma ToInt16_range (x : number) : -32768 <= ToInt16 x <= 32767.
Proof.
  destruct x as [s|s| |s m e]; cbn [ToInt16]; try lia.
  change (2 ^ 16) with 65536. change (2 ^ 15) with 32768.
  pose proof (Z.mod_pos_bound (truncate (S754_finite s m e)) 65536 ltac:(lia)).
  destruct (Z.leb_spec 32768 (truncate (S754_finite s m e) mod 65536)); lia.
Qed.

Lemma Math_min_1 (x : number) :
  is_nan x = false -> Math_min [of_Z 1; x] = min_step (of_Z 1) x.
Proof.
  intros Hx. unfold Math_min. cbn [existsb fold_left]. rewrite Hx.
  reflexivity.
Qed.

Lemma Math_max_m1 (y : number) :
  is_nan y = false -> Math_max [of_Z (-1); y] = max_step (of_Z (-1)) y.
Proof.
  intros Hy. unfold Math_max. cbn [existsb fold_left]. rewrite Hy.
  reflexivity.
Qed.

Lemma convert_sample_pos (m : positive) (e : Z) :
  convert_sample (S754_finite false m e)
  = if lt (S754_finite false m e) (of_Z 1)
    then ToInt16 (mul (S754_finite false m e) (of_Z 0x7FFF))
    else 32767.
Proof.
  unfold convert_sample, clamp. rewrite Math_min_1 by reflexivity.
  unfold min_step. cbn [is_neg_zero andb].
  destruct (lt (S754_finite false m e) (of_Z 1)) eqn:Hlt.
  - rewrite Math_max_m1 by reflexivity. reflexivity.
  - reflexivity.
Qed.

Lemma convert_sample_neg (m : positive) (e : Z) :
  convert_sample (S754_finite true m e)
  = if lt (of_Z (-1)) (S754_finite true m e)
    then ToInt16 (mul (S754_finite true m e) (of_Z 0x8000))
    else -32768.
Proof.
  unfold convert_sample, clamp. rewrite Math_min_1 by reflexivity.
  unfold min_step. cbn [is_neg_zero andb].
  change (lt (S754_finite true m e) (of_Z 1)) with true. cbv iota.
  rewrite Math_max_m1 by reflexivity.
  unfold max_step. cbn [is_pos_zero andb].
  destruct (lt (of_Z (-1)) (S754_finite true m e)) eqn:Hlt; reflexivity.
Qed.

(** The design's rule on a fraction [z / d], in integer arithmetic. *)
Lemma encode_fraction (z : Z) (d : positive) :
  encode (Real (z # d))
  = if z <? - Zpos d then -32768
    else if Zpos d <? z then 32767
    else if z <? 0 then - ((- z * 32768) / Zpos d)
    else (z * 32767) / Zpos d.
Proof.
  unfold encode, clamp_sample, Qclamp.
  destruct (Qlt_le_dec (z # d) (-1)) as [H1|H1];
    unfold Qlt, Qle in H1; cbn in H1.
  { destruct (Z.ltb_spec z (- Zpos d)); [reflexivity | lia]. }
  destruct (Z.ltb_spec z (- Zpos d)); [lia|].
  destruct (Qlt_le_dec 1 (z # d)) as [H2|H2];
    unfold Qlt, Qle in H2; cbn in H2.
  { destruct (Z.ltb_spec (Zpos d) z); [reflexivity | lia]. }
  destruct (Z.ltb_spec (Zpos d) z); [lia|].
  destruct (Qlt_le_dec (z # d) 0) as [H3|H3];
    unfold Qlt, Qle in H3; cbn in H3; rewrite Z.mul_1_r in H3;
    unfold Qtruncate; cbn [Qmult Qnum Qden]; rewrite Pos.mul_1_r.
  - destruct (Z.ltb_spec z 0); [|lia].
    replace (z * 32768) with (- (- z * 32768)) by ring.
    rewrite Z.quot_opp_l by lia. f_equal.
    apply Z.quot_div_nonneg; lia.
  - destruct (Z.ltb_spec z 0); [lia|].
    apply Z.quot_div_nonneg; lia.
Qed.

Lemma representable_bounded (s : bool) (m : positive) (e : Z) :
  representable (S754_finite s m e) = true -> bounded prec emax m e = true.
Proof. unfold representable. intros H. now apply andb_prop in H as [H _]. Qed.

Ltac case_ltb :=
  match goal with
  | |- context [?a <? ?b] => destruct (Z.ltb_spec a b)
  end.

Lemma encode_to_Q_below (s : bool) (m : positive) (e c : Z) :
  e < 0 -> Zpos m < 2 ^ (- e) -> c = (if s then 32768 else 32767) ->
  encode (Real (to_Q (S754_finite s m e)))
  = cond_Zopp s ((Zpos m * c) / 2 ^ (- e)).
Proof.
  intros He Hm ->. unfold to_Q.
  destruct (Z.leb_spec 0 e); [lia|].
  rewrite encode_fraction.
  assert (Hd : 0 < 2 ^ (- e)) by (apply Z.pow_pos_nonneg; lia).
  rewrite Z2Pos.id by exact Hd.
  destruct s; cbn [cond_Zopp]; repeat (case_ltb; try lia);
    rewrite ?Z.opp_involutive; reflexivity.
Qed.

Lemma encode_to_Q_above (s : bool) (m : positive) (e : Z) :
  (e < 0 -> 2 ^ (- e) <= Zpos m) ->
  encode (Real (to_Q (S754_finite s m e))) = if s then -32768 else 32767.
Proof.
  intros Hm. unfold to_Q.
  destruct (Z.leb_spec 0 e) as [He|He].
  - unfold inject_Z. rewrite encode_fraction.
    assert (Hp : 1 <= Zpos m * 2 ^ e).
    { assert (0 < 2 ^ e) by (apply Z.pow_pos_nonneg; lia). nia. }
    replace (cond_Zopp s (Zpos m) * 2 ^ e) with (cond_Zopp s (Zpos m * 2 ^ e))
      by (destruct s; cbn [cond_Zopp]; ring).
    destruct s; cbn [cond_Zopp]; repeat (case_ltb; try lia); try reflexivity.
    + replace (Zpos m * 2 ^ e) with 1 by lia. reflexivity.
    + replace (Zpos m * 2 ^ e) with 1 by lia. reflexivity.
  - specialize (Hm He). rewrite encode_fraction.
    assert (Hd : 0 < 2 ^ (- e)) by (apply Z.pow_pos_nonneg; lia).
    rewrite Z2Pos.id by exact Hd.
    destruct s; cbn [cond_Zopp]; repeat (case_ltb; try lia); try reflexivity.
    + replace (2 ^ (- e)) with (Zpos m) by lia.
      rewrite Z.opp_involutive, Z.mul_comm, Z.div_mul by lia. reflexivity.
    + replace (2 ^ (- e)) with (Zpos m) by lia.
      rewrite Z.mul_comm, Z.div_mul by lia. reflexivity.
Qed.

(** On a clamped sample the binary64 product is exact, and storing it
    into the [Int16Array] truncates it without wrapping around. *)
Lemma ToInt16_mul_below (s : bool) (m : positive) (e : Z)
      (mc c0 : positive) (kc ec c : Z) :
  representable (S754_finite s m e) = true -> below_one m e ->
  Zpos mc = Zpos c0 * 2 ^ kc -> 0 <= kc -> Zpos c0 < 2 ^ 16 ->
  0 <= kc + ec <= 16 -> ec <= 0 ->
  c = Zpos c0 * 2 ^ (kc + ec) -> c <= 32768 -> (s = false -> c <= 32767) ->
  ToInt16 (mul (S754_finite s m e) (S754_finite false mc ec))
  = cond_Zopp s ((Zpos m * c) / 2 ^ (- e)).
Proof.
  intros Hrep Hlt Hmc Hkc Hc0 Hk Hec Hc Hc1 Hc2.
  pose proof (representable_bounded _ _ _ Hrep) as Hb.
  destruct (below_one_bound m e Hb Hlt) as [He Hm].
  destruct (mul_const_exact s m e mc c0 kc ec Hrep Hmc Hkc Hc0 ltac:(lia) Hec)
    as (m' & e' & Hmul & Hsh).
  assert (Htr : truncate (S754_finite s m' e')
                = cond_Zopp s ((Zpos m * c) / 2 ^ (- e))).
  { cbn [truncate]. f_equal. rewrite Hsh, Hc.
    rewrite <- Z.shiftl_div_pow2 by lia.
    rewrite Z.mul_assoc, shiftl_mul_pow2_l by lia. f_equal. lia. }
  assert (Hd : 0 < 2 ^ (- e)) by (apply Z.pow_pos_nonneg; lia).
  assert (Hc0' : 0 <= c).
  { rewrite Hc. apply Z.mul_nonneg_nonneg; [lia | apply Z.pow_nonneg; lia]. }
  assert (Hlo : 0 <= (Zpos m * c) / 2 ^ (- e)) by (apply Z.div_pos; nia).
  assert (Hhi : (Zpos m * c) / 2 ^ (- e) <= c) by (apply Z.div_le_upper_bound; nia).
  rewrite Hmul, ToInt16_small; rewrite Htr; [reflexivity|].
  destruct s; cbn [cond_Zopp]; [lia|]. specialize (Hc2 eq_refl). lia.
Qed.

Lemma convert_sample_finite (s : bool) (m : positive) (e : Z) :
  representable (S754_finite s m e) = true ->
  convert_sample (S754_finite s m e)
  = encode (Real (to_Q (S754_finite s m e))).
Proof.
  intros Hrep.
  pose proof (representable_bounded _ _ _ Hrep) as Hb.
  destruct s.
  - rewrite convert_sample_neg.
    destruct (lt (of_Z (-1)) (S754_finite true m e)) eqn:Hlt.
    + apply lt_mone_neg in Hlt.
      destruct (below_one_bound m e Hb Hlt) as [He Hm].
      rewrite (encode_to_Q_below true m e 32768) by easy.
      rewrite of_Z_0x8000.
      apply (ToInt16_mul_below true m e _ 1%positive 52 (-37)); try easy.
    + rewrite encode_to_Q_above; [reflexivity|].
      apply not_below_one_bound; [exact Hb|].
      intros H. apply lt_mone_neg in H. congruence.
  - rewrite convert_sample_pos.
    destruct (lt (S754_finite false m e) (of_Z 1)) eqn:Hlt.
    + apply lt_one_pos in Hlt.
      destruct (below_one_bound m e Hb Hlt) as [He Hm].
      rewrite (encode_to_Q_below false m e 32767) by easy.
      rewrite of_Z_0x7FFF.
      apply (ToInt16_mul_below false m e _ 32767%positive 38 (-38)); try easy.
    + rewrite encode_to_Q_above; [reflexivity|].
      apply not_below_one_bound; [exact Hb|].
      intros H. apply lt_one_pos in H. congruence.
Qed.

Lemma convert_sample_rule (x : number) :
  representable x = true -> is_nan x = false ->
  exists v, sample_of x = Some v /\ convert_sample x = encode v.
Proof.
  intros Hrep Hnan. destruct x as [s|s| |s m e].
  - eexists; split; [reflexivity|]. now destruct s.
  - destruct s; eexists; (split; [reflexivity|]); reflexivity.
  - discriminate.
  - eexists; split; [reflexivity|]. now apply convert_sample_finite.
Qed.

(** The index loop fills the zeroed array from the left. *)
Lemma convert_loop (float32 : list number) (n : nat) :
  (n <= length float32)%nat ->
  fold_left
    (fun (int16 : list Z) (i : nat) =>
       match float32 !! i with
       | Some x => <[i := convert_sample x]> int16
       | None => int16
       end)
    (seq 0 n) (replicate (length float32) 0)
  = map convert_sample (take n float32) ++ replicate (length float32 - n) 0.
Proof.
  induction n as [|n IH]; intros Hn.
  - cbn. now rewrite Nat.sub_0_r.
  - rewrite seq_S, fold_left_app, IH by lia. cbn [fold_left Nat.add].
    destruct (lookup_lt_is_Some_2 float32 n ltac:(lia)) as [x Hx].
    rewrite Hx, (take_S_r _ _ _ Hx), map_app.
    rewrite insert_app_r_alt by (rewrite length_map, length_take; lia).
    rewrite length_map, length_take, Nat.min_l, Nat.sub_diag by lia.
    replace (length float32 - n)%nat with (S (length float32 - S n)) by lia.
    cbn. now rewrite <- app_assoc.
Qed.

Lemma convertFloat32ToInt16_map (float32 : list number) :
  convertFloat32ToInt16 float32 = map convert_sample float32.
Proof.
  unfold convertFloat32ToInt16. rewrite convert_loop by lia.
  rewrite firstn_all, Nat.sub_diag. cbn. apply app_nil_r.
Qed.

End EncoderFacts.

(** ** The frame encoder *)

Section Encoder.

(** C1.  [convertFloat32ToInt16] returns a buffer of the input's length;
    every element lies in [-32768, 32767]; the element at an index whose
    sample is a binary32 value other than NaN is that sample clamped to
    [-1, 1], multiplied by 32768 if negative and by 32767 otherwise, and
    truncated; the samples 1.0, -1.0 and 0.0 give 32767, -32768 and 0. *)
Theorem convertFloat32ToInt16_rule (float32 : list number) :
  length (convertFloat32ToInt16 float32) = length float32 /\
  Forall (fun z => -32768 <= z <= 32767) (convertFloat32ToInt16 float32) /\
  (forall (i : nat) (x : number),
      float32 !! i = Some x -> representable x = true -> is_nan x = false ->
      exists v, sample_of x = Some v /\
                convertFloat32ToInt16 float32 !! i = Some (encode v)) /\
  convertFloat32ToInt16 [of_Z 1; of_Z (-1); of_Z 0] = [32767; -32768; 0].
Proof.
  rewrite convertFloat32ToInt16_map. repeat split.
  - apply length_map.
  - apply List.Forall_forall. intros z Hz. apply in_map_iff in Hz as (x & <- & _).
    apply ToInt16_range.
  - intros i x Hi Hrep Hnan.
    destruct (convert_sample_rule x Hrep Hnan) as (v & Hv & Hc).
    exists v. split; [exact Hv|].
    rewrite <- Hc. change (map convert_sample float32) with (convert_sample <$> float32).
    now rewrite list_lookup_fmap, Hi.
Qed.

Lemma convertFloat32ToInt16_rule_witness :
  let half := S754_finite false 4503599627370496 (-53) in
  [of_Z 1; half] !! 1%nat = Some half /\
  representable half = true /\ is_nan half = false /\
  exists v, sample_of half = Some v /\
            convertFloat32ToInt16 [of_Z 1; half] !! 1%nat = Some (encode v).
Proof.
  intros half.
  assert (H1 : [of_Z 1; half] !! 1%nat = Some half) by reflexivity.
  assert (H2 : representable half = true) by reflexivity.
  assert (H3 : is_nan half = false) by reflexivity.
  repeat split; try assumption.
  exact (proj1 (proj2 (proj2 (convertFloat32ToInt16_rule [of_Z 1; half]))) 1%nat half H1 H2 H3).
Defined.

(** C10.  The conversion is defined on every Number: each element of the
    output is a 16-bit signed integer whatever the sample is; NaN gives
    0; positive infinity is clamped to 1.0 and gives 32767; negative
    infinity is clamped to -1.0 and gives -32768. *)
Theorem convertFloat32ToInt16_total (float32 : list number) (i : nat) (x : number) :
  float32 !! i = Some x ->
  exists z, convertFloat32ToInt16 float32 !! i = Some z /\
            -32768 <= z <= 32767 /\
            (x = NaN -> z = 0) /\
            (x = pos_infinity -> AudioRecorderEncoder.clamp x = of_Z 1 /\ z = 32767) /\
            (x = neg_infinity -> AudioRecorderEncoder.clamp x = of_Z (-1) /\ z = -32768).
Proof.
  intros Hi. exists (convert_sample x).
  rewrite convertFloat32ToInt16_map.
  change (map convert_sample float32) with (convert_sample <$> float32).
  rewrite list_lookup_fmap, Hi. split; [reflexivity|].
  split; [apply ToInt16_range|].
  split; [intros ->; reflexivity|].
  split; intros ->; split; reflexivity.
Qed.

Lemma convertFloat32ToInt16_total_witness :
  exists z, convertFloat32ToInt16 [NaN; pos_infinity; neg_infinity] !! 2%nat = Some z /\
            -32768 <= z <= 32767 /\
            (neg_infinity = NaN -> z = 0) /\
            (neg_infinity = pos_infinity ->
             AudioRecorderEncoder.clamp neg_infinity = of_Z 1 /\ z = 32767) /\
            (neg_infinity = neg_infinity ->
             AudioRecorderEncoder.clamp neg_infinity = of_Z (-1) /\ z = -32768).
Proof.
  apply (convertFloat32ToInt16_total [NaN; pos_infinity; neg_infinity] 2 neg_infinity).
  reflexivity.
Defined.

End Encoder.

(** ** The capture engine *)

Section Recorder.
Import Eff Eff.Notations Browser AudioRecorder.

Ltac run_stop :=
  unfold stop, bind, this, when_some, in_world, disconnect, stopTracks,
    closeContext, invoke, set_processor, set_source, set_stream,
    set_audioContext, modify, ret; cbn.

(** With release calls that do not fail, [stop] goes through its four
    steps, clears the four fields, and leaves the browser as follows. *)
Lemma stop_succeeds (fl : faults) (r : fields) (w : world) :
  releases_succeed fl ->
  exists w',
    stop fl (r, w) = (Returns tt, (fresh_recorder, w')) /\
    trace w' = trace w ++ release_plan r /\
    console w' = console w /\
    live w' = match stream r with Some s => live w ∖ {[s]} | None => live w end /\
    running w' = match audioContext r with
                 | Some c => running w ∖ {[c]}
                 | None => running w
                 end /\
    (forall a b, (a, b) ∈ edges w' <->
                 (a, b) ∈ edges w /\ source r ≠ Some a /\ processor r ≠ Some a).
Proof.
  intros (H1 & H2 & H3 & H4).
  destruct r as [[s|] [c|] [n|] [p|]]; run_stop;
    rewrite ?H1, ?H2, ?H3, ?H4; cbn;
    (eexists; split; [reflexivity|]; cbn);
    rewrite <- ?app_assoc, ?app_nil_r; repeat (split; [reflexivity|]);
    intros a b; rewrite ?elem_of_filter; cbn; intuition congruence.
Qed.

Lemma stop_releases (fl : faults) (r : fields) (w : world) :
  releases_succeed fl ->
  exists w', stop fl (r, w) = (Returns tt, (fresh_recorder, w')) /\ released r w'.
Proof.
  intros Hfl. destruct (stop_succeeds fl r w Hfl) as (w' & Hs & _ & _ & Hl & Hr & He).
  exists w'. split; [exact Hs|]. repeat split.
  - intros s Hstream. rewrite Hl, Hstream. set_solver.
  - intros c Hc. rewrite Hr, Hc. set_solver.
  - intros n Hn b Hin. apply He in Hin. naive_solver.
Qed.

Lemma stop_fresh (fl : faults) (w : world) :
  stop fl (fresh_recorder, w) = (Returns tt, (fresh_recorder, w)).
Proof. reflexivity. Qed.

(** A [stop] that throws has completed a prefix of its release plan; the
    call that failed and the ones after it were not made, and what they
    were to release is still held. *)
Lemma stop_throws (fl : faults) (r r' : fields) (w w' : world) (e : error) :
  stop fl (r, w) = (Throws e, (r', w')) ->
  exists done a h rest,
    trace w' = trace w ++ done /\ release_plan r' = (a, h) :: rest /\
    release_plan r = done ++ (a, h) :: rest /\ fl a = Some e.
Proof.
  destruct r as [[s|] [c|] [n|] [p|]]; run_stop;
    repeat match goal with
           | |- context [fl ?a] => destruct (fl a) eqn:?; cbn
           end;
    intros [= <- <- <-]; cbn; rewrite <- ?app_assoc;
    eexists _, _, _, _;
    (split; [first [reflexivity | rewrite <- (app_nil_r (trace w)) at 1; reflexivity]|]);
    (split; [reflexivity|]); (split; [reflexivity|]); assumption.
Qed.

Ltac run_start :=
  unfold start, try_catch, bind, in_world, getUserMedia, newAudioContext,
    createMediaStreamSource, createScriptProcessor, connect, create, invoke,
    set_processor, set_source, set_stream, set_audioContext, modify, ret,
    throw; cbn.

Ltac case_faults fl :=
  repeat match goal with
         | |- context [fl ?a] => destruct (fl a) eqn:?; cbn
         end.

(** Whatever is engaged after [start] was engaged before or is held
    in a field. *)
Lemma start_engages (fl : faults) (given : option handle)
      (r r' : fields) (w w' : world) (o : outcome unit) :
  start fl given (r, w) = (o, (r', w')) ->
  (forall s, s ∈ live w' -> s ∈ live w \/ stream r' = Some s) /\
  (forall c, c ∈ running w' -> c ∈ running w \/ audioContext r' = Some c) /\
  (forall a b, (a, b) ∈ edges w' ->
               (a, b) ∈ edges w \/ source r' = Some a \/ processor r' = Some a).
Proof.
  destruct r as [s0 c0 n0 p0], given as [s|]; run_start;
    case_faults fl; intros [= <- <- <-]; cbn;
    (split; [|split]); intros; set_solver.
Qed.

Lemma start_throws (fl : faults) (given : option handle)
      (r r' : fields) (w w' : world) (e : error) :
  start fl given (r, w) = (Throws e, (r', w')) ->
  (exists a, fl a = Some e) /\
  console w' = console w ++ ["Error starting recorder:"] /\
  (given = None -> fl GetUserMedia <> None ->
   r' = r /\ live w' = live w /\ running w' = running w /\
   edges w' = edges w /\ trace w' = trace w) /\
  (given = None -> fl GetUserMedia = None ->
   exists s, stream r' = Some s /\ s ∈ live w').
Proof.
  destruct r as [s0 c0 n0 p0], given as [s|]; run_start;
    case_faults fl; intros [= <- <- <-]; cbn;
    (split; [eauto|]); (split; [reflexivity|]);
    (split; [intros; first [congruence | repeat split; reflexivity]|]);
    intros; first [congruence | eexists; split; [reflexivity|set_solver]].
Qed.

(** C4, as the code has it.  A failed [start] logs and rethrows the
    error of the call that failed.  If that call is the acquisition of
    the microphone, nothing has been set up.  After a later failure the
    fields assigned so far stay assigned and the acquired stream stays
    live: [start] does not roll back; a following [stop] releases what
    [start] had engaged and clears the fields. *)
Theorem start_failure (fl : faults) (given : option handle)
        (r r' : fields) (w w' : world) (e : error) :
  start fl given (r, w) = (Throws e, (r', w')) ->
  (exists a, fl a = Some e) /\
  console w' = console w ++ ["Error starting recorder:"] /\
  (given = None -> fl GetUserMedia <> None ->
   r' = r /\ live w' = live w /\ running w' = running w /\
   edges w' = edges w /\ trace w' = trace w) /\
  (given = None -> fl GetUserMedia = None ->
   exists s, stream r' = Some s /\ s ∈ live w') /\
  (forall fl', releases_succeed fl' ->
     exists w'', stop fl' (r', w') = (Returns tt, (fresh_recorder, w'')) /\
                 released r' w'' /\
                 live w'' ⊆ live w /\ running w'' ⊆ running w /\
                 edges w'' ⊆ edges w).
Proof.
  intros Hstart.
  destruct (start_throws _ _ _ _ _ _ _ Hstart) as (H1 & H2 & H3 & H4).
  destruct (start_engages _ _ _ _ _ _ _ Hstart) as (Hl & Hr & He).
  repeat (split; [assumption|]).
  intros fl' Hfl'.
  destruct (stop_succeeds fl' r' w' Hfl') as (w'' & Hs & _ & _ & Hl' & Hr' & He').
  destruct (stop_releases fl' r' w' Hfl') as (w2 & Hs2 & Hrel).
  rewrite Hs in Hs2. injection Hs2 as <-.
  exists w''. split; [exact Hs|]. split; [exact Hrel|]. repeat split.
  - intros s Hin. rewrite Hl' in Hin.
    destruct (stream r') as [s'|] eqn:Hst.
    + apply elem_of_difference in Hin as [Hin Hne].
      destruct (Hl s Hin) as [?|[= ->]]; [assumption|set_solver].
    + destruct (Hl s Hin) as [?|?]; [assumption|discriminate].
  - intros c Hin. rewrite Hr' in Hin.
    destruct (audioContext r') as [c'|] eqn:Hc.
    + apply elem_of_difference in Hin as [Hin Hne].
      destruct (Hr c Hin) as [?|[= ->]]; [assumption|set_solver].
    + destruct (Hr c Hin) as [?|?]; [assumption|discriminate].
  - intros [a b] Hin. apply He' in Hin as (Hin & Hsrc & Hproc).
    destruct (He a b Hin) as [?|[?|?]]; [assumption|contradiction|contradiction].
Qed.

Lemma start_failure_witness :
  let fl : faults := fun a => match a with NewAudioContext => Some "NotSupportedError" | _ => None end in
  let st := snd (start fl None (fresh_recorder, empty_world)) in
  console (snd st) = ["Error starting recorder:"] /\
  exists s, stream (fst st) = Some s /\ s ∈ live (snd st).
Proof.
  intros fl st.
  assert (Hrun : start fl None (fresh_recorder, empty_world)
                 = (Throws "NotSupportedError", (fst st, snd st))) by reflexivity.
  destruct (start_failure _ _ _ _ _ _ _ Hrun) as (_ & Hc & _ & Hs & _).
  split; [exact Hc|]. now apply Hs.
Defined.

(** C4, as stated, fails: when creating the audio context fails after the
    microphone was acquired, the stream field stays set and the stream
    stays live. *)
Lemma start_leaves_partial_setup :
  let fl : faults := fun a => match a with NewAudioContext => Some "NotSupportedError" | _ => None end in
  exists r' w',
    start fl None (fresh_recorder, empty_world) = (Throws "NotSupportedError", (r', w')) /\
    r' <> fresh_recorder /\ stream r' = Some 0%nat /\ 0%nat ∈ live w'.
Proof.
  intros fl. eexists _, _. split; [reflexivity|]. cbn.
  split; [discriminate|]. split; [reflexivity|]. set_solver.
Qed.




(** C9.  [stop] before any [start] does nothing and throws nothing.  With
    release calls that do not fail, [stop] from any state returns with
    the four fields cleared and nothing they referred to still engaged,
    and a second [stop] changes nothing. *)
Theorem stop_idempotent (fl : faults) (r : fields) (w : world) :
  stop fl (fresh_recorder, w) = (Returns tt, (fresh_recorder, w)) /\
  (releases_succeed fl ->
   exists w', stop fl (r, w) = (Returns tt, (fresh_recorder, w')) /\
              released r w' /\
              stop fl (fresh_recorder, w') = (Returns tt, (fresh_recorder, w')) /\
              (stop fl ;; stop fl) (r, w) = stop fl (r, w)).
Proof.
  split; [reflexivity|]. intros Hfl.
  destruct (stop_releases fl r w Hfl) as (w' & Hs & Hrel).
  exists w'. repeat split; try assumption; try apply Hrel.
  unfold bind. now rewrite Hs.
Qed.

Lemma stop_idempotent_witness :
  let started := snd (start no_faults None (fresh_recorder, empty_world)) in
  releases_succeed no_faults /\
  exists w', stop no_faults (fst started, snd started)
             = (Returns tt, (fresh_recorder, w')) /\
             released (fst started) w' /\
             stop no_faults (fresh_recorder, w') = (Returns tt, (fresh_recorder, w')) /\
             (stop no_faults ;; stop no_faults) (fst started, snd started)
             = stop no_faults (fst started, snd started).
Proof.
  intros started.
  assert (Hfl : releases_succeed no_faults) by (repeat split).
  split; [exact Hfl|].
  exact (proj2 (stop_idempotent no_faults (fst started) (snd started)) Hfl).
Defined.

End Recorder.

(** ** The transcript persister *)

Section Persister.
Import Eff Eff.Notations Store Broadcaster.

Lemma matching_single (sid : string) (t : list row) (r : row) :
  (length (matching sid t) <= 1)%nat -> r ∈ t -> session_id r = sid ->
  matching sid t = [r].
Proof.
  intros Hlen Hin Hsid.
  assert (Hr : r ∈ matching sid t) by (apply list_elem_of_filter; auto).
  destruct (matching sid t) as [|a [|b l]]; cbn in Hlen.
  - inversion Hr.
  - apply list_elem_of_singleton in Hr. now subst.
  - lia.
Qed.

Lemma matching_none (sid : string) (t : list row) :
  (forall r, r ∈ t -> session_id r <> sid) -> matching sid t = [].
Proof.
  intros Hnone. destruct (matching sid t) as [|a l] eqn:Hm; [reflexivity|].
  assert (Ha : a ∈ matching sid t) by (rewrite Hm; apply list_elem_of_here).
  apply list_elem_of_filter in Ha as [Hsid Hin]. now apply Hnone in Hin.
Qed.

Lemma id_inj (t : list row) (x y : row) :
  NoDup (map id t) -> x ∈ t -> y ∈ t -> id x = id y -> x = y.
Proof.
  induction t as [|a t IH]; intros Hnd Hx Hy Hid; [inversion Hx|].
  cbn in Hnd. apply NoDup_cons in Hnd as [Hna Hnd].
  apply elem_of_cons in Hx as [->|Hx], Hy as [->|Hy]; auto.
  - exfalso. apply Hna. rewrite Hid. now apply list_elem_of_In, in_map, list_elem_of_In.
  - exfalso. apply Hna. rewrite <- Hid. now apply list_elem_of_In, in_map, list_elem_of_In.
Qed.

Lemma update_spec (t : list row) (r : row) (text : string) (now : Z) :
  NoDup (map id t) -> r ∈ t ->
  length (update (id r) text now t) = length t /\
  update_row text now r ∈ update (id r) text now t /\
  (forall x, x ∈ t -> x <> r -> x ∈ update (id r) text now t) /\
  (forall y, y ∈ update (id r) text now t ->
             y = update_row text now r \/ (y ∈ t /\ y <> r)).
Proof.
  intros Hnd Hr. unfold update. split; [apply length_map|]. split; [|split].
  - apply list_elem_of_In, in_map_iff. exists r.
    rewrite Z.eqb_refl. split; [reflexivity | now apply list_elem_of_In].
  - intros x Hx Hne. apply list_elem_of_In, in_map_iff. exists x.
    destruct (Z.eqb_spec (id x) (id r)) as [Heq|_].
    + contradict Hne. eapply id_inj; eauto.
    + split; [reflexivity | now apply list_elem_of_In].
  - intros y Hy. apply list_elem_of_In, in_map_iff in Hy as (x & <- & Hx).
    apply list_elem_of_In in Hx.
    destruct (Z.eqb_spec (id x) (id r)) as [Heq|Hne].
    + left. f_equal. eapply id_inj; eauto.
    + right. split; [assumption | congruence].
Qed.

Ltac run_save :=
  unfold debouncedSave_body, store_call, bind, get, set_store, upd, modify, ret, throw;
  cbn.

(** The save when the session has its row. *)
Lemma save_with_row (env : environment) (s : state) (text : string) (r : row) :
  (forall c, store_faults env c = None) ->
  primary_key (table s) ->
  matching (sessionIdRef s) (table s) = [r] ->
  let s' := snd (debouncedSave_body env text s) in
  fst (debouncedSave_body env text s) = Returns tt /\
  requests s' = requests s ++
                [ReqSelect (sessionIdRef s); ReqUpdate (id r) text (clock s)] /\
  table s' = update (id r) text (clock s) (table s) /\
  sessionIdRef s' = sessionIdRef s.
Proof.
  intros Hcalm [Hnd Hpos] Hm.
  assert (Hr : r ∈ table s).
  { assert (Hin : r ∈ matching (sessionIdRef s) (table s))
      by (rewrite Hm; apply list_elem_of_here).
    now apply list_elem_of_filter in Hin as [_ Hin]. }
  assert (Hsel : select_single (sessionIdRef s) (table s) = Some (id r))
    by (unfold select_single; now rewrite Hm).
  assert (Hid : Z.eqb (id r) 0 = false).
  { apply Z.eqb_neq. rewrite List.Forall_forall in Hpos.
    apply list_elem_of_In, Hpos in Hr. lia. }
  run_save. rewrite ?Hcalm. cbn. rewrite Hsel. cbn. rewrite Hid. cbn.
  rewrite ?Hcalm. cbn. rewrite <- app_assoc. repeat split.
Qed.

(** The save when the session has no row. *)
Lemma save_without_row (env : environment) (s : state) (text : string) :
  (forall c, store_faults env c = None) ->
  matching (sessionIdRef s) (table s) = [] ->
  let s' := snd (debouncedSave_body env text s) in
  fst (debouncedSave_body env text s) = Returns tt /\
  requests s' = requests s ++
                [ReqSelect (sessionIdRef s);
                 ReqInsert (sessionIdRef s) "broadcaster-user" text "auto"] /\
  table s' = insert (sessionIdRef s) "broadcaster-user" text "auto" (table s) /\
  sessionIdRef s' = sessionIdRef s.
Proof.
  intros Hcalm Hm.
  assert (Hsel : select_single (sessionIdRef s) (table s) = None)
    by (unfold select_single; now rewrite Hm).
  run_save. rewrite ?Hcalm. cbn. rewrite Hsel. cbn.
  rewrite ?Hcalm. cbn. rewrite <- app_assoc. repeat split.
Qed.

Lemma matching_update (sid : string) (rid : Z) (text : string) (now : Z) (t : list row) :
  length (matching sid (update rid text now t)) = length (matching sid t).
Proof.
  unfold matching, update. induction t as [|x t IH]; [reflexivity|].
  cbn [map]. rewrite !filter_cons.
  assert (Hs : session_id (if Z.eqb (id x) rid then update_row text now x else x)
               = session_id x) by (destruct (Z.eqb (id x) rid); reflexivity).
  rewrite Hs. destruct (decide (session_id x = sid)); cbn; now rewrite IH.
Qed.

Lemma fresh_id_above (t : list row) (x : row) : x ∈ t -> id x < fresh_id t.
Proof.
  unfold fresh_id. induction t as [|y t IH]; intros Hx; [inversion Hx|].
  cbn [map fold_right]. apply elem_of_cons in Hx as [->|Hx].
  - lia.
  - specialize (IH Hx). lia.
Qed.

Lemma fresh_id_positive (t : list row) : 0 < fresh_id t.
Proof.
  unfold fresh_id. induction t as [|y t IH]; cbn [map fold_right]; lia.
Qed.

(** The two hypotheses on the table are kept by every save that the store
    answers: row identifiers stay a primary key, and the session then
    has exactly one row. *)
Lemma save_keeps_one_row (env : environment) (s : state) (text : string) :
  (forall c, store_faults env c = None) ->
  primary_key (table s) ->
  (length (matching (sessionIdRef s) (table s)) <= 1)%nat ->
  let s' := snd (debouncedSave_body env text s) in
  primary_key (table s') /\
  length (matching (sessionIdRef s') (table s')) = 1%nat.
Proof.
  intros Hcalm Hpk Huniq s'. subst s'.
  destruct (matching (sessionIdRef s) (table s)) as [|r [|r2 l]] eqn:Hm;
    cbn in Huniq; [| |lia].
  - destruct (save_without_row env s text Hcalm Hm) as (_ & _ & Ht & Hs).
    rewrite Ht, Hs. destruct Hpk as [Hnd Hpos]. split; [split|].
    + unfold insert. rewrite map_app. cbn [map].
      apply NoDup_app. split; [exact Hnd|]. split; [|apply NoDup_singleton].
      intros z Hz Hz'. apply list_elem_of_singleton in Hz'. subst z.
      apply list_elem_of_In, in_map_iff in Hz as (x & Hid & Hx).
      apply list_elem_of_In, fresh_id_above in Hx. cbn in Hid. lia.
    + unfold insert. apply Forall_app. split; [exact Hpos|].
      constructor; [apply fresh_id_positive | constructor].
    + unfold insert, matching. rewrite filter_app. fold (matching (sessionIdRef s) (table s)).
      rewrite Hm. cbn. rewrite decide_True by reflexivity. reflexivity.
  - destruct (save_with_row env s text r Hcalm Hpk Hm) as (_ & _ & Ht & Hs).
    rewrite Ht, Hs, matching_update, Hm. split; [|reflexivity].
    destruct Hpk as [Hnd Hpos]. split.
    + replace (map id (update (id r) text (clock s) (table s))) with (map id (table s));
        [exact Hnd|].
      unfold update. rewrite map_map. apply map_ext. intros x.
      now destruct (Z.eqb (id x) (id r)).
    + unfold update. rewrite List.Forall_forall in *. intros y Hy.
      apply in_map_iff in Hy as (x & <- & Hx). specialize (Hpos x Hx).
      now destruct (Z.eqb (id x) (id r)).
Qed.



End Persister.

Section Debouncing.
Import Eff Eff.Notations Store Broadcaster.

Lemma append_assoc (a b c : string) : ((a ++ b) ++ c = a ++ (b ++ c))%string.
Proof.
  induction a as [|ch a IH]; [reflexivity|].
  change (String ch ((a ++ b) ++ c) = String ch (a ++ (b ++ c)))%string.
  now f_equal.
Qed.

Lemma append_nil_r (a : string) : (a ++ "" = a)%string.
Proof.
  induction a as [|ch a IH]; [reflexivity|].
  change (String ch (a ++ "") = String ch a)%string. now f_equal.
Qed.

Lemma is_empty_false (d : string) : d <> ""%string -> is_empty d = false.
Proof. destruct d; [congruence | reflexivity]. Qed.

(** One text delta: the buffer grows and the timer is re-armed with the
    whole buffer. *)
Lemma content_step (env : environment) (s : state) (d : string) :
  d <> ""%string -> dbUpdateRef s = true ->
  let s' := step env (ContentEvent (Some [Some d])) s in
  transcriptRef s' = (transcriptRef s ++ d)%string /\
  timeout s' = Some (clock s + 2000, (transcriptRef s ++ d)%string) /\
  clock s' = clock s /\ requests s' = requests s /\ table s' = table s /\
  dbUpdateRef s' = true /\ sessionIdRef s' = sessionIdRef s.
Proof.
  intros Hd Hdb. unfold step, react, handleContent, forEach, handle_part.
  rewrite (is_empty_false d Hd).
  unfold bind, get, set_transcript, debouncedSave, set_timeout, upd, modify, ret, debounce.
  cbn. rewrite Hdb. cbn. repeat split.
Qed.

(** Time passing without a due timer only moves the clock. *)
Lemma elapse_quiet_step (env : environment) (s : state) (ms : Z) :
  due (clock s + ms) (timeout s) = None ->
  let s' := step env (Elapse ms) s in
  clock s' = clock s + ms /\ timeout s' = timeout s /\
  transcriptRef s' = transcriptRef s /\ requests s' = requests s /\
  table s' = table s /\ dbUpdateRef s' = dbUpdateRef s /\
  sessionIdRef s' = sessionIdRef s.
Proof.
  intros Hdue. unfold step, react, run_timers, bind, get. cbn.
  rewrite Hdue. cbn. repeat split.
Qed.

(** A due timer runs the save once, with the text it was armed with. *)
Lemma elapse_fire_step (env : environment) (s : state) (ms deadline : Z) (text : string) :
  (forall c, store_faults env c = None) ->
  timeout s = Some (deadline, text) -> deadline <= clock s + ms ->
  let s' := step env (Elapse ms) s in
  clock s' = clock s + ms /\ timeout s' = None /\
  transcriptRef s' = transcriptRef s /\ dbUpdateRef s' = dbUpdateRef s /\
  sessionIdRef s' = sessionIdRef s /\
  exists q, requests s' = requests s ++ [ReqSelect (sessionIdRef s); q] /\
            is_write q = true /\ text_of q = Some text.
Proof.
  intros Hcalm Ht Hd. unfold step, react, run_timers, bind, get. cbn.
  unfold due. rewrite Ht. destruct (Z.leb_spec deadline (clock s + ms)); [|lia].
  unfold try_catch, set_timeout, set_clock, upd, modify. cbn.
  unfold debouncedSave_body, store_call, bind, get, set_store, upd, modify, ret, throw.
  cbn. rewrite ?Hcalm. cbn.
  destruct (select_single (sessionIdRef s) (table s)) as [rid|]; cbn;
    [destruct (Z.eqb rid 0)|]; cbn; rewrite ?Hcalm; cbn; rewrite <- app_assoc;
    repeat split; eexists; repeat split.
Qed.

Lemma writes_app (s s' : state) (q : request) (sid : string) :
  requests s' = requests s ++ [ReqSelect sid; q] -> is_write q = true ->
  writes s' = writes s ++ [q].
Proof.
  intros Hr Hq. unfold writes. rewrite Hr, filter_app. f_equal.
  cbn. rewrite decide_False by (cbn; congruence).
  destruct q; cbn in *; try discriminate; reflexivity.
Qed.

Lemma run_cons (env : environment) (ev : event) (evs : list (environment * event))
      (s : state) :
  run ((env, ev) :: evs) s = run evs (step env ev s).
Proof. reflexivity. Qed.

Lemma run_nil (s : state) : run [] s = s.
Proof. reflexivity. Qed.

Lemma run_app (l1 l2 : list (environment * event)) (s : state) :
  run (l1 ++ l2) s = run l2 (run l1 s).
Proof. apply fold_left_app. Qed.

(** A burst: as long as every delta follows the previous one within the
    window, the timer stays armed with the whole buffer and nothing is
    sent to the store. *)
Lemma burst_pending (env : environment) (deltas : list (Z * string)) :
  Forall (fun '(gap, d) => 0 <= gap < 2000 /\ d <> ""%string) deltas ->
  forall s : state,
    dbUpdateRef s = true -> timeout s = Some (clock s + 2000, transcriptRef s) ->
    let s' := run (arrivals env deltas) s in
    dbUpdateRef s' = true /\ timeout s' = Some (clock s' + 2000, transcriptRef s') /\
    transcriptRef s' = (transcriptRef s ++ concat_texts (map snd deltas))%string /\
    requests s' = requests s /\ sessionIdRef s' = sessionIdRef s.
Proof.
  induction 1 as [|[gap d] deltas [Hgap Hd] _ IH]; intros s Hdb Ht.
  - cbn. rewrite append_nil_r. repeat split; assumption.
  - cbn [arrivals flat_map app]. fold (arrivals env deltas).
    rewrite !run_cons.
    set (s1 := step env (Elapse gap) s).
    set (s2 := step env (ContentEvent (Some [Some d])) s1).
    destruct (elapse_quiet_step env s gap) as (Hc1 & Ht1 & Hx1 & Hr1 & _ & Hdb1 & Hs1).
    { unfold due. rewrite Ht. destruct (Z.leb_spec (clock s + 2000) (clock s + gap)); [lia|reflexivity]. }
    fold s1 in Hc1, Ht1, Hx1, Hr1, Hdb1, Hs1.
    destruct (content_step env s1 d Hd) as (Hx2 & Ht2 & Hc2 & Hr2 & _ & Hdb2 & Hs2);
      [congruence|].
    fold s2 in Hx2, Ht2, Hc2, Hr2, Hdb2, Hs2.
    destruct (IH s2 Hdb2) as (H1 & H2 & H3 & H4 & H5).
    { rewrite Ht2, Hc2, Hx2. reflexivity. }
    repeat split; try assumption.
    + rewrite H3, Hx2, Hx1. cbn. now rewrite append_assoc.
    + congruence.
    + congruence.
Qed.

(** C2.  Text deltas that follow one another within less than the
    2000 ms window send nothing to the store while they arrive; once the
    window has elapsed after the last of them, exactly one write is
    sent, and its text is the buffer followed by all the deltas in
    arrival order.  Two deltas more than the window apart give two
    writes. *)
Theorem debounce_coalesces (env : environment) (s : state) (d0 : string)
        (rest : list (Z * string)) (quiet : Z) :
  (forall c, store_faults env c = None) ->
  dbUpdateRef s = true -> timeout s = None ->
  d0 <> ""%string ->
  Forall (fun '(gap, d) => 0 <= gap < 2000 /\ d <> ""%string) rest ->
  2000 <= quiet ->
  let burst := (env, ContentEvent (Some [Some d0])) :: arrivals env rest in
  (writes (run burst s) = writes s /\
   exists q,
     writes (run (burst ++ [(env, Elapse quiet)]) s) = writes s ++ [q] /\
     text_of q = Some (transcriptRef s ++ concat_texts (d0 :: map snd rest))%string) /\
  (forall (d1 d2 : string) (gap quiet' : Z),
     d1 <> ""%string -> d2 <> ""%string -> 2000 < gap -> 2000 <= quiet' ->
     exists q1 q2,
       writes (run [(env, ContentEvent (Some [Some d1])); (env, Elapse gap);
                    (env, ContentEvent (Some [Some d2])); (env, Elapse quiet')] s)
       = writes s ++ [q1; q2] /\
       text_of q1 = Some (transcriptRef s ++ d1)%string /\
       text_of q2 = Some (transcriptRef s ++ d1 ++ d2)%string).
Proof.
  intros Hcalm Hdb Ht Hd0 Hrest Hquiet burst. split.
  - subst burst. rewrite <- app_comm_cons, !run_cons.
    set (s1 := step env (ContentEvent (Some [Some d0])) s).
    destruct (content_step env s d0 Hd0 Hdb) as (Hx1 & Ht1 & Hc1 & Hr1 & _ & Hdb1 & Hs1).
    fold s1 in Hx1, Ht1, Hc1, Hr1, Hdb1, Hs1.
    destruct (burst_pending env rest Hrest s1 Hdb1) as (Hdb2 & Ht2 & Hx2 & Hr2 & Hs2).
    { now rewrite Ht1, Hc1, Hx1. }
    rewrite run_app, run_cons, run_nil.
    set (s2 := run (arrivals env rest) s1) in *.
    split; [unfold writes; congruence|].
    destruct (elapse_fire_step env s2 quiet _ _ Hcalm Ht2 ltac:(lia))
      as (_ & _ & _ & _ & _ & q & Hq & Hw & Htext).
    exists q. split.
    + rewrite (writes_app _ _ _ _ Hq Hw). unfold writes. congruence.
    + rewrite Htext, Hx2, Hx1. cbn [concat_texts fold_right map].
      now rewrite append_assoc.
  - intros d1 d2 gap quiet' Hd1 Hd2 Hgap Hq'. rewrite !run_cons, run_nil.
    set (s1 := step env (ContentEvent (Some [Some d1])) s).
    destruct (content_step env s d1 Hd1 Hdb) as (Hx1 & Ht1 & Hc1 & Hr1 & _ & Hdb1 & Hs1).
    fold s1 in Hx1, Ht1, Hc1, Hr1, Hdb1, Hs1.
    set (s2 := step env (Elapse gap) s1).
    destruct (elapse_fire_step env s1 gap _ _ Hcalm Ht1 ltac:(lia))
      as (Hc2 & Ht2 & Hx2 & Hdb2 & Hs2 & q1 & Hq1 & Hw1 & Htext1).
    fold s2 in Hc2, Ht2, Hx2, Hdb2, Hs2, Hq1.
    set (s3 := step env (ContentEvent (Some [Some d2])) s2).
    destruct (content_step env s2 d2 Hd2) as (Hx3 & Ht3 & Hc3 & Hr3 & _ & Hdb3 & Hs3);
      [congruence|].
    fold s3 in Hx3, Ht3, Hc3, Hr3, Hdb3, Hs3.
    destruct (elapse_fire_step env s3 quiet' _ _ Hcalm Ht3 ltac:(lia))
      as (_ & _ & _ & _ & _ & q2 & Hq2 & Hw2 & Htext2).
    exists q1, q2. repeat split.
    + rewrite (writes_app _ _ _ _ Hq2 Hw2).
      replace (writes s3) with (writes s2) by (unfold writes; congruence).
      rewrite (writes_app _ _ _ _ Hq1 Hw1).
      replace (writes s1) with (writes s) by (unfold writes; congruence).
      now rewrite <- app_assoc.
    + congruence.
    + rewrite Htext2, Hx2, Hx1. now rewrite append_assoc.
Qed.

Lemma debounce_coalesces_witness :
  let s := run [(calm, Mount "abc")] (initial microphone Browser.empty_world [] 0) in
  let burst := (calm, ContentEvent (Some [Some "Hello"])) :: arrivals calm [(500, " world")] in
  writes (run burst s) = [] /\
  exists q,
    writes (run (burst ++ [(calm, Elapse 2000)]) s) = [] ++ [q] /\
    text_of q = Some ("" ++ concat_texts ["Hello"; " world"])%string.
Proof.
  intros s burst.
  refine (proj1 (debounce_coalesces calm s "Hello" [(500, " world"%string)] 2000
                   _ _ _ _ _ _)).
  - reflexivity.
  - reflexivity.
  - reflexivity.
  - discriminate.
  - repeat constructor; discriminate.
  - lia.
Defined.

End Debouncing.

(** ** Fields an operation leaves alone

  Many properties say that some part of the component's state survives
  an operation.  For a reflexive and transitive relation [R] between the
  state before and after, [preserves R c] is inherited through
  sequencing, [try]/[catch] and loops. *)

Section Preservation.
Import Eff Eff.Notations Broadcaster.

Variable R : state -> state -> Prop.
Hypothesis R_refl : forall s, R s s.
Hypothesis R_trans : forall s1 s2 s3, R s1 s2 -> R s2 s3 -> R s1 s3.

Local Abbreviation preserves := (preserves R).

Lemma preserves_ret {A} (a : A) : preserves (ret a).
Proof. intros s. apply R_refl. Qed.

Lemma preserves_throw {A} (e : error) : preserves (@throw _ A e).
Proof. intros s. apply R_refl. Qed.

Lemma preserves_get : preserves get.
Proof. intros s. apply R_refl. Qed.

Lemma preserves_bind {A B} (c : M state A) (k : A -> M state B) :
  preserves c -> (forall a, preserves (k a)) -> preserves (bind c k).
Proof.
  intros Hc Hk s. unfold bind. specialize (Hc s).
  destruct (c s) as [[a|e] s1]; cbn in *; [|exact Hc].
  eapply R_trans; [exact Hc | apply Hk].
Qed.

Lemma preserves_try_catch {A} (c : M state A) (h : error -> M state A) :
  preserves c -> (forall e, preserves (h e)) -> preserves (try_catch c h).
Proof.
  intros Hc Hh s. unfold try_catch. specialize (Hc s).
  destruct (c s) as [[a|e] s1]; cbn in *; [exact Hc|].
  eapply R_trans; [exact Hc | apply Hh].
Qed.

Lemma preserves_when_some {A} (x : option A) (c : A -> M state unit) :
  (forall a, preserves (c a)) -> preserves (when_some x c).
Proof. intros Hc. destruct x; [apply Hc | apply preserves_ret]. Qed.

Lemma preserves_forEach {A} (l : list A) (f : A -> M state unit) :
  (forall a, preserves (f a)) -> preserves (forEach l f).
Proof.
  intros Hf. induction l as [|a l IH]; cbn [forEach]; [apply preserves_ret|].
  apply preserves_bind; [apply Hf | intros _; exact IH].
Qed.

Lemma preserves_upd (f : state -> state) :
  (forall s, R s (f s)) -> preserves (upd f).
Proof. intros Hf s. apply Hf. Qed.

Lemma preserves_on_recorder {A} (r : AudioRecorder.fields)
      (c : M AudioRecorder.state A) :
  (forall s r' w', R s (snd (set_recorder (Some r') w' s))) ->
  preserves (on_recorder r c).
Proof.
  intros Hset s. unfold on_recorder.
  destruct (c (r, browser s)) as [o [r' w']]. apply Hset.
Qed.

End Preservation.

Ltac preserves_step :=
first
  [ apply preserves_ret; assumption
  | apply preserves_throw; assumption
  | apply preserves_get; assumption
  | apply preserves_bind; [assumption| |intros ?]
  | apply preserves_try_catch; [assumption| |intros ?]
  | apply preserves_when_some; [assumption|intros ?]
  | match goal with
    | |- Broadcaster.preserves _ (match ?x with _ => _ end) => destruct x
    | |- Broadcaster.preserves _ (let '(_, _) := ?x in _) => destruct x
    end ].


(** ** The session controller *)

Section Controller.
Import Eff Eff.Notations Store Broadcaster.
Import Browser AudioRecorder.

Ltac run_toggle :=
  unfold step, react, toggleBroadcast, acquire_display, stopBroadcast, recorder_stop,
    Broadcaster.connect, Broadcaster.disconnect, on_recorder, Broadcaster.console_error,
    try_catch, bind, get, when_some, setIsRecording, setMicVolume, set_recorder,
    set_onended, set_connected, upd, modify, ret, throw.

(** [stopBroadcast] when the recorder's release calls do not fail. *)
Lemma stopBroadcast_succeeds (env : environment) (s : Broadcaster.state) :
  releases_succeed (recorder_faults env) ->
  let s' := snd (stopBroadcast env s) in
  fst (stopBroadcast env s) = Returns tt /\
  isRecording s' = false /\ micVolume s' = Number.of_Z 0 /\ connected s' = false /\
  transcriptRef s' = transcriptRef s /\ sessionIdRef s' = sessionIdRef s /\
  (forall r, recorderRef s = Some r ->
             recorderRef s' = Some fresh_recorder /\ released r (browser s')) /\
  (recorderRef s = None -> recorderRef s' = None /\ browser s' = browser s).
Proof.
  intros Hfl. unfold stopBroadcast, recorder_stop, bind, get, when_some.
  destruct (recorderRef s) as [r|] eqn:Hr.
  - unfold on_recorder.
    destruct (stop_releases (recorder_faults env) r (browser s) Hfl) as (w' & Hs & Hrel).
    rewrite Hs. cbn. do 6 (split; [reflexivity|]).
    split; [|discriminate]. intros ? [= <-]. split; [reflexivity | exact Hrel].
  - cbn. do 6 (split; [reflexivity|]).
    split; [discriminate|]. intros _. split; [exact Hr | reflexivity].
Qed.

(** C8.  A capture started on shared display audio is streaming and has
    the end-of-track handler installed.  When the browser then ends the
    shared track, the handler does what the stop button does, without
    any click: the recorder is stopped and what it held is released,
    the connection is closed, the recording flag is false and the volume
    is 0. *)
Theorem source_end_tears_down (env_start env_end : environment) (s0 : Broadcaster.state) (n : nat) :
  isRecording s0 = false -> audioSource s0 = screen_tab ->
  getDisplayMedia env_start = Shared (S n) -> connect_error env_start = None ->
  (forall a, recorder_faults env_start a = None) ->
  releases_succeed (recorder_faults env_end) ->
  let s1 := step env_start Click s0 in
  let s2 := step env_end VideoTrackEnded s1 in
  (isRecording s1 = true /\ connected s1 = true /\
   exists h r, onended s1 = Some h /\ recorderRef s1 = Some r /\
               stream r = Some h /\ h ∈ live (browser s1)) /\
  react env_end VideoTrackEnded s1 = stopBroadcast env_end s1 /\
  react env_end Click s1 = stopBroadcast env_end s1 /\
  isRecording s2 = false /\ micVolume s2 = Number.of_Z 0 /\ connected s2 = false /\
  recorderRef s2 = Some fresh_recorder /\
  (forall r, recorderRef s1 = Some r -> released r (browser s2)).
Proof.
  intros Hrec Hsrc Hdm Hconn Hfl Hrel s1 s2.
  assert (H1 : isRecording s1 = true /\ connected s1 = true /\
               exists h r, onended s1 = Some h /\ recorderRef s1 = Some r /\
                           stream r = Some h /\ h ∈ live (browser s1)).
  { subst s1. run_toggle. rewrite Hrec. cbn. rewrite Hsrc. cbn. rewrite Hdm. cbn.
    rewrite Hconn. cbn.
    unfold start, try_catch, bind, in_world, newAudioContext,
      createMediaStreamSource, createScriptProcessor, Browser.connect, create, invoke,
      set_processor, set_source, set_stream, set_audioContext, modify, ret, throw.
    cbn. rewrite !Hfl. cbn. repeat split. eexists _, _. repeat split. set_solver. }
  destruct H1 as (Hr1 & Hc1 & h & r & Ho & Hrr & Hst & Hlive).
  split; [eauto 10|].
  assert (Hev : react env_end VideoTrackEnded s1 = stopBroadcast env_end s1).
  { unfold react, bind, get, when_some. now rewrite Ho. }
  assert (Hck : react env_end Click s1 = stopBroadcast env_end s1).
  { unfold react, toggleBroadcast, bind, get. now rewrite Hr1. }
  split; [exact Hev|]. split; [exact Hck|].
  destruct (stopBroadcast_succeeds env_end s1 Hrel) as (_ & Hi & Hv & Hc & _ & _ & Hsome & _).
  subst s2. unfold step. rewrite Hev.
  destruct (Hsome r Hrr) as [Hf Hrl].
  do 4 (split; [assumption|]).
  intros r' Hr'. assert (r' = r) as -> by congruence. exact Hrl.
Qed.

Lemma source_end_tears_down_witness :
  let s0 := run [(calm, Mount "abc"); (calm, SelectSource screen_tab)]
                (initial microphone empty_world [] 0) in
  let s1 := step calm Click s0 in
  let s2 := step calm VideoTrackEnded s1 in
  isRecording s1 = true /\ isRecording s2 = false /\
  micVolume s2 = Number.of_Z 0 /\ connected s2 = false.
Proof.
  intros s0 s1 s2.
  assert (Hrel : releases_succeed (recorder_faults calm)) by (repeat split).
  destruct (source_end_tears_down calm calm s0 0 eq_refl eq_refl eq_refl eq_refl
              (fun _ => eq_refl) Hrel)
    as ((H1 & _) & _ & _ & H2 & H3 & H4 & _).
  repeat split; assumption.
Defined.

(** *** The session identifier and the transcript buffer *)

Lemma same_session_refl (s : Broadcaster.state) : same_session s s.
Proof. repeat split. exists ""%string. now rewrite append_nil_r. Qed.

Lemma same_session_trans (s1 s2 s3 : Broadcaster.state) :
  same_session s1 s2 -> same_session s2 s3 -> same_session s1 s3.
Proof.
  intros (H1 & H2 & x & Hx) (H3 & H4 & y & Hy). repeat split; try congruence.
  exists (x ++ y)%string. now rewrite Hy, Hx, append_assoc.
Qed.

Abbreviation keeps := (preserves same_session).

Ltac keeps_field :=
  apply preserves_upd; intros ?; (split; [reflexivity|split; [reflexivity|]]);
  exists ""%string; cbn; now rewrite append_nil_r.

Ltac keeps_auto :=
  pose proof same_session_refl; pose proof same_session_trans;
  repeat first
    [ preserves_step
    | apply preserves_on_recorder; intros
    | keeps_field
    | (split; [reflexivity|split; [reflexivity|]]);
      exists ""%string; cbn; now rewrite append_nil_r ].

Lemma keeps_stopBroadcast env : keeps (stopBroadcast env).
Proof.
  unfold stopBroadcast, recorder_stop, Broadcaster.disconnect, setIsRecording,
    setMicVolume, set_connected.
  keeps_auto.
Qed.

Lemma keeps_toggleBroadcast env : keeps (toggleBroadcast env).
Proof.
  pose proof (keeps_stopBroadcast env).
  unfold toggleBroadcast, acquire_display, Broadcaster.connect,
    Broadcaster.console_error, setIsRecording, set_connected, set_recorder,
    set_onended.
  keeps_auto; try assumption.
Qed.

Lemma keeps_handle_part p : keeps (handle_part p).
Proof.
  intros s. unfold handle_part.
  destruct p as [newText|]; [|apply same_session_refl].
  destruct (is_empty newText); [apply same_session_refl|].
  unfold bind, get, set_transcript, debouncedSave, set_timeout, upd, modify, ret. cbn.
  destruct (dbUpdateRef s); cbn; (split; [reflexivity|split; [reflexivity|]]);
    eexists; reflexivity.
Qed.

Lemma keeps_run_timers env until : keeps (run_timers env until).
Proof.
  unfold run_timers, debouncedSave_body, store_call, set_timeout, set_clock,
    set_store, set_unhandled.
  keeps_auto.
Qed.

Lemma keeps_react env ev : is_mount ev = false -> keeps (react env ev).
Proof.
  pose proof (keeps_stopBroadcast env). pose proof (keeps_run_timers env).
  destruct ev; cbn [is_mount react]; intros Hm; try discriminate.
  - unfold set_audioSource. keeps_auto.
  - apply keeps_toggleBroadcast.
  - keeps_auto; auto.
  - unfold handleContent. destruct sc; [|keeps_auto].
    apply preserves_forEach;
      [apply same_session_refl | apply same_session_trans | intros ?; apply keeps_handle_part].
  - unfold setMicVolume. keeps_auto.
  - unfold set_clock. keeps_auto; auto.
Qed.

(** C7, as the code has it.  The session identifier is the one drawn
    when the component mounts; no later event other than a new mount
    changes it, and none removes text from the transcript buffer:
    stopping the capture neither discards the identifier nor clears the
    buffer. *)
Theorem session_outlives_capture (env : environment) (uuid : string)
        (evs : list (environment * event)) (s : Broadcaster.state) :
  Forall (fun '(_, ev) => is_mount ev = false) evs ->
  let s' := run ((env, Mount uuid) :: evs) s in
  sessionIdRef s' = uuid /\ sessionId s' = uuid /\
  exists suffix, transcriptRef s' = (transcriptRef s ++ suffix)%string.
Proof.
  intros Hevs s'. subst s'. rewrite run_cons.
  assert (Hrun : forall s1, same_session s1 (run evs s1)).
  { induction Hevs as [|[env' ev] evs Hev _ IH]; intros s1.
    - apply same_session_refl.
    - rewrite run_cons. eapply same_session_trans; [|apply IH].
      apply (keeps_react env' ev Hev). }
  destruct (Hrun (step env (Mount uuid) s)) as (H1 & H2 & x & Hx).
  rewrite H1, H2, Hx. repeat split. now exists x.
Qed.

Lemma session_outlives_capture_witness :
  let s := initial microphone empty_world [] 0 in
  let s' := run [(calm, Mount "abc"); (calm, Click);
                 (calm, ContentEvent (Some [Some "Hello"])); (calm, Click);
                 (calm, Click)] s in
  sessionIdRef s' = "abc"%string /\ sessionId s' = "abc"%string /\
  exists suffix, transcriptRef s' = (transcriptRef s ++ suffix)%string.
Proof.
  intros s s'.
  apply (session_outlives_capture calm "abc"
           [(calm, Click); (calm, ContentEvent (Some [Some "Hello"%string]));
            (calm, Click); (calm, Click)] s).
  repeat constructor.
Defined.

(** C7, as stated, fails: after a first capture has been stopped, the
    second capture runs under the same session identifier and starts
    with the transcript of the first. *)
Lemma second_capture_reuses_session :
  let s0 := run [(calm, Mount "abc")] (initial microphone empty_world [] 0) in
  let first := run [(calm, Click); (calm, ContentEvent (Some [Some "Hello"]))] s0 in
  let stopped := step calm Click first in
  let second := step calm Click stopped in
  isRecording first = true /\ isRecording stopped = false /\
  isRecording second = true /\
  sessionIdRef stopped = "abc"%string /\
  sessionIdRef second = sessionIdRef first /\
  transcriptRef stopped = "Hello"%string /\
  transcriptRef second = "Hello"%string.
Proof. vm_compute. repeat split. Qed.

End Controller.

(** ** Persistence failures *)

Section PersistenceFailures.
Import Eff Eff.Notations Store Broadcaster.

Lemma session_untouched_refl (s : state) : session_untouched s s.
Proof. repeat split. Qed.

Lemma session_untouched_trans (s1 s2 s3 : state) :
  session_untouched s1 s2 -> session_untouched s2 s3 -> session_untouched s1 s3.
Proof. unfold session_untouched. intuition congruence. Qed.

Lemma run_timers_untouched (env : environment) (until : Z) :
  preserves session_untouched (run_timers env until).
Proof.
  pose proof session_untouched_refl. pose proof session_untouched_trans.
  unfold run_timers, debouncedSave_body, store_call, set_timeout, set_clock,
    set_store, set_unhandled.
  repeat first [preserves_step | apply preserves_upd; intros ?; repeat split].
Qed.

Lemma run_timers_returns (env : environment) (until : Z) (s : state) :
  fst (run_timers env until s) = Returns tt.
Proof.
  unfold run_timers, bind, get, try_catch, set_timeout, set_clock, set_unhandled,
    upd, modify. cbn -[debouncedSave_body].
  destruct (due until (timeout s)) as [[deadline text]|]; [|reflexivity].
  cbn -[debouncedSave_body].
  match goal with
  | |- context [debouncedSave_body ?e ?t ?x] =>
      destruct (debouncedSave_body e t x) as [[[]|e0] s1]
  end; reflexivity.
Qed.

(** C5 on the code.  Whatever the store answers, the timer callback
    returns and leaves the transcript buffer, the recording state, the
    recorder, the connection and the browser (its console included) as
    they are: a failure interrupts nothing, and nothing is logged.  When
    the select rejects, the save throws; its rejection is not caught and
    ends up unhandled.  When the select resolves with an error, the save
    goes on to insert a second row for the session.  [saveToDb], with its
    [try]/[catch], does catch and log, but it is never called. *)
Theorem save_failure_not_caught :
  (forall (env : environment) (until : Z) (s : state),
      fst (run_timers env until s) = Returns tt /\
      session_untouched s (snd (run_timers env until s))) /\
  let failing (c : call) (f : failure) : environment :=
    {| recorder_faults := Browser.no_faults;
       store_faults := fun c' =>
         match c, c' with
         | Select, Select | Upsert, Upsert => Some f
         | _, _ => None
         end;
       getDisplayMedia := Shared 1; connect_error := None |} in
  let s := run [(calm, Mount "abc"); (calm, Click);
                (calm, ContentEvent (Some [Some "Hello"]))]
               (initial microphone Browser.empty_world [] 0) in
  let rejected := step (failing Select (Rejects "Failed to fetch")) (Elapse 2000) s in
  let saved := run [(calm, Elapse 2000); (calm, ContentEvent (Some [Some " world"]))] s in
  let errored := step (failing Select ErrorResult) (Elapse 2000) saved in
  fst (debouncedSave_body (failing Select (Rejects "Failed to fetch")) "Hello" s)
  = Throws "Failed to fetch" /\
  unhandled rejected = ["Failed to fetch"%string] /\
  Browser.console (browser rejected) = [] /\
  map session_id (table saved) = ["abc"%string] /\
  map session_id (table errored) = ["abc"%string; "abc"%string] /\
  Browser.console (browser errored) = [] /\
  fst (saveToDb (failing Upsert (Rejects "Failed to fetch")) "Hello" s) = Returns tt /\
  Browser.console
    (browser (snd (saveToDb (failing Upsert (Rejects "Failed to fetch")) "Hello" s)))
  = ["DB Save Error"%string].
Proof.
  split.
  - intros env until s. split; [apply run_timers_returns | apply run_timers_untouched].
  - vm_compute. repeat split.
Qed.

End PersistenceFailures.

(** ** Failures while a session starts *)

Section SessionStart.
Import Eff Store Broadcaster.
Import Browser AudioRecorder.

(** With the microphone as source, a recorder that fails to start is
    stopped by the catch handler of [toggleBroadcast]: the microphone
    stream it had acquired is released again. *)
Example toggle_releases_failed_recorder :
  let env :=
    {| recorder_faults := fun a =>
         match a with NewAudioContext => Some "NotSupportedError"%string | _ => None end;
       store_faults := Store.no_faults; getDisplayMedia := Shared 1;
       connect_error := None |} in
  let s := step env Click
             (run [(calm, Mount "abc")] (initial microphone empty_world [] 0)) in
  isRecording s = false /\ connected s = false /\
  recorderRef s = Some fresh_recorder /\
  trace (browser s) = [(GetUserMedia, 0%nat); (TracksStop, 0%nat)] /\
  console (browser s) = ["Error starting recorder:"%string; "Failed to start broadcast"%string].
Proof. vm_compute. repeat split. Qed.

(** With shared display audio as source, a connection that fails after the
    stream was shared leaves that stream live: no recorder holds it yet,
    and the catch handler only stops the recorder. *)
Example toggle_keeps_shared_stream_on_connect_failure :
  let env :=
    {| recorder_faults := Browser.no_faults; store_faults := Store.no_faults;
       getDisplayMedia := Shared 1; connect_error := Some "WebSocket closed"%string |} in
  let s := step env Click
             (run [(calm, Mount "abc"); (calm, SelectSource screen_tab)]
                  (initial microphone empty_world [] 0)) in
  isRecording s = false /\ connected s = false /\ recorderRef s = None /\
  trace (browser s) = [(GetDisplayMedia, 0%nat)] /\
  elements (live (browser s)) = [0%nat].
Proof. vm_compute. repeat split. Qed.

End SessionStart.

(** ** Starting the recorder *)

Section RecorderSetup.
Import Eff Eff.Notations Browser AudioRecorder Capture.

Ltac run_start :=
  unfold start, try_catch, bind, in_world, getUserMedia, newAudioContext,
    createMediaStreamSource, createScriptProcessor, connect, create, invoke,
    set_processor, set_source, set_stream, set_audioContext, modify, ret,
    throw; cbn.

Ltac case_faults fl :=
  repeat match goal with
         | |- context [fl ?a] => destruct (fl a) eqn:?; cbn
         end.

Lemma start_runs (fl : faults) (given : option handle) (r : fields) (w : world) :
  setup_succeeds fl given ->
  let s := match given with Some g => g | None => next w end in
  let k := match given with Some _ => next w | None => S (next w) end in
  start fl given (r, w)
  = (Returns tt,
     ({| stream := Some s; audioContext := Some k; source := Some (S k);
         processor := Some (S (S k)) |},
      {| live := match given with Some _ => live w | None => {[s]} ∪ live w end;
         running := {[k]} ∪ running w;
         edges := {[(S (S k), k)]} ∪ ({[(S k, S (S k))]} ∪ edges w);
         next := S (S (S k));
         trace := trace w ++ setup_plan given s k (S k) (S (S k));
         console := console w |})).
Proof.
  intros (H0 & H1 & H2 & H3 & H4 & H5).
  destruct r as [s0 c0 n0 p0], given as [g|]; run_start;
    rewrite ?(H0 eq_refl), ?H1, ?H2, ?H3, ?H4, ?H5; cbn;
    rewrite ?(H0 eq_refl), ?H1, ?H2, ?H3, ?H4, ?H5; cbn;
    unfold setup_plan, log_call, set_edges; cbn; rewrite <- ?app_assoc; reflexivity.
Qed.

Lemma start_returns_only_if (fl : faults) (given : option handle)
      (r r' : fields) (w w' : world) :
  start fl given (r, w) = (Returns tt, (r', w')) -> setup_succeeds fl given.
Proof.
  destruct r as [s0 c0 n0 p0], given as [g|]; run_start;
    case_faults fl; intros [= <- <-]; repeat split; intros; congruence.
Qed.

(** X1.  [start] returns exactly when none of the calls it makes fails.  It
    then holds a stream, an audio context, a source node and a processor
    node, the last three newly created; the stream is the one supplied,
    and only without one is the microphone asked for; the context is
    open and the graph is wired source -> processor -> destination. *)
Theorem start_succeeds (fl : faults) (given : option handle) (r : fields) (w : world) :
  ((exists r' w', start fl given (r, w) = (Returns tt, (r', w')))
   <-> setup_succeeds fl given) /\
  (setup_succeeds fl given ->
   exists s c n p w',
     start fl given (r, w)
     = (Returns tt,
        ({| stream := Some s; audioContext := Some c; source := Some n;
            processor := Some p |}, w')) /\
     (forall g, given = Some g -> s = g /\ live w' = live w) /\
     (given = None -> s = next w /\ live w' = {[s]} ∪ live w) /\
     (next w <= c < n)%nat /\ (n < p)%nat /\ (p < next w')%nat /\
     running w' = {[c]} ∪ running w /\
     edges w' = {[(p, c)]} ∪ ({[(n, p)]} ∪ edges w) /\
     trace w' = trace w ++ setup_plan given s c n p /\
     console w' = console w).
Proof.
  split; [split|].
  - intros (r' & w' & H). exact (start_returns_only_if _ _ _ _ _ _ H).
  - intros H. eexists _, _. exact (start_runs fl given r w H).
  - intros H. eexists _, _, _, _, _. split; [exact (start_runs fl given r w H)|].
    cbn. destruct given as [g|]; cbn.
    + split; [intros ? [= <-]; split; reflexivity|]. split; [discriminate|].
      repeat split; lia.
    + split; [discriminate|]. split; [intros _; split; reflexivity|].
      repeat split; lia.
Qed.

Lemma start_succeeds_witness :
  setup_succeeds no_faults None /\
  exists s c n p w',
    start no_faults None (fresh_recorder, empty_world)
    = (Returns tt,
       ({| stream := Some s; audioContext := Some c; source := Some n;
           processor := Some p |}, w')) /\
    (forall g, @None handle = Some g -> s = g /\ live w' = live empty_world) /\
    (@None handle = None -> s = next empty_world /\ live w' = {[s]} ∪ live empty_world) /\
    (next empty_world <= c < n)%nat /\ (n < p)%nat /\ (p < next w')%nat /\
    running w' = {[c]} ∪ running empty_world /\
    edges w' = {[(p, c)]} ∪ ({[(n, p)]} ∪ edges empty_world) /\
    trace w' = trace empty_world ++ setup_plan None s c n p /\
    console w' = console empty_world.
Proof.
  assert (H : setup_succeeds no_faults None) by (repeat split).
  split; [exact H|].
  exact (proj2 (start_succeeds no_faults None fresh_recorder empty_world) H).
Defined.

Ltac run_stop :=
  unfold stop, bind, this, when_some, in_world, disconnect, stopTracks,
    closeContext, invoke, set_processor, set_source, set_stream,
    set_audioContext, modify, ret; cbn.

(** X2.  A capture that is started and then stopped, with no call failing,
    leaves the browser as it was: the microphone stream it acquired is
    stopped, the context it opened is closed, the connections it made
    are gone, and the four fields are cleared.  A stream that the
    caller supplied is stopped as well. *)
Theorem start_stop_round_trip (fl : faults) (given : option handle)
        (r : fields) (w : world) :
  allocated w -> setup_succeeds fl given -> releases_succeed fl ->
  exists w',
    (start fl given ;; stop fl) (r, w) = (Returns tt, (fresh_recorder, w')) /\
    live w' = match given with Some g => live w ∖ {[g]} | None => live w end /\
    running w' = running w /\ edges w' = edges w /\ console w' = console w.
Proof.
  intros (Hl & Hr & He) Hset Hrel.
  unfold bind at 1. rewrite (start_runs fl given r w Hset).
  match goal with
  | |- context [stop fl (?r1, ?w1)] =>
      destruct (stop_succeeds fl r1 w1 Hrel) as (w' & Hs & _ & Hc & Hl' & Hr' & He')
  end.
  exists w'. split; [exact Hs|]. cbn in Hc, Hl', Hr', He'.
  split; [|split; [|split; [|exact Hc]]].
  - rewrite Hl'. destruct given as [g|]; [reflexivity|].
    apply leibniz_equiv. intros x. specialize (Hl x).
    rewrite elem_of_difference, elem_of_union, !elem_of_singleton. 
    split; [intuition|]. intros Hx. specialize (Hl Hx). split; [now right|lia].
  - rewrite Hr'. apply leibniz_equiv. intros x. specialize (Hr x).
    rewrite elem_of_difference, elem_of_union, !elem_of_singleton.
    split; [intuition|]. intros Hx. specialize (Hr Hx).
    split; [now right|]. destruct given; lia.
  - apply leibniz_equiv. intros [a b]. rewrite He'. specialize (He a b).
    rewrite !elem_of_union, !elem_of_singleton.
    split.
    + intros ([[= -> ->]|[[= -> ->]|Hin]] & Hn1 & Hn2); congruence.
    + intros Hin. specialize (He Hin).
      split; [now right; right|]. split; intros [= <-]; destruct given; lia.
Qed.

Lemma start_stop_round_trip_witness :
  allocated empty_world /\ setup_succeeds no_faults None /\ releases_succeed no_faults /\
  exists w',
    (start no_faults None ;; stop no_faults) (fresh_recorder, empty_world)
    = (Returns tt, (fresh_recorder, w')) /\
    live w' = live empty_world /\
    running w' = running empty_world /\ edges w' = edges empty_world /\
    console w' = console empty_world.
Proof.
  assert (Ha : allocated empty_world) by (repeat split; intros; set_solver).
  assert (Hs : setup_succeeds no_faults None) by (repeat split).
  assert (Hr : releases_succeed no_faults) by (repeat split).
  repeat (split; [assumption|]).
  exact (start_stop_round_trip no_faults None fresh_recorder empty_world Ha Hs Hr).
Defined.

(** X3.  [start] does not look at what the recorder already holds.  A second
    [start] without a [stop] in between overwrites the four fields, and
    the [stop] that follows releases the second capture only: the first
    microphone stream stays live and the first context stays open, with
    no field left that refers to them. *)
Theorem restart_leaks_first_capture (fl : faults) (r : fields) (w : world) :
  (forall a, fl a = None) ->
  exists w',
    (start fl None ;; start fl None ;; stop fl) (r, w)
    = (Returns tt, (fresh_recorder, w')) /\
    next w ∈ live w' /\ S (next w) ∈ running w' /\
    (S (S (next w)), S (S (S (next w)))) ∈ edges w' /\
    trace w' = trace w ++ setup_plan None (next w) (1 + next w) (2 + next w) (3 + next w)
                       ++ setup_plan None (4 + next w) (5 + next w) (6 + next w) (7 + next w)
                       ++ [(ProcessorDisconnect, (7 + next w)%nat);
                           (SourceDisconnect, (6 + next w)%nat);
                           (TracksStop, (4 + next w)%nat);
                           (ContextClose, (5 + next w)%nat)].
Proof.
  intros Hfl.
  assert (Hset : setup_succeeds fl None) by (repeat split; auto).
  assert (Hrel : releases_succeed fl) by (repeat split; auto).
  unfold bind at 1. rewrite (start_runs fl None r w Hset).
  unfold bind at 1. rewrite (start_runs fl None _ _ Hset).
  match goal with
  | |- context [stop fl (?r1, ?w1)] =>
      destruct (stop_succeeds fl r1 w1 Hrel) as (w' & Hs & Ht & _ & Hl' & Hr' & He')
  end.
  exists w'. split; [exact Hs|]. cbn in Ht, Hl', Hr', He'.
  rewrite Hl', Hr', He', Ht. split; [|split; [|split]].
  - apply elem_of_difference. split; [set_solver|]. rewrite elem_of_singleton. lia.
  - apply elem_of_difference. split; [set_solver|]. rewrite elem_of_singleton. lia.
  - split; [set_solver|]. split; intros [= H]; lia.
  - rewrite <- !app_assoc. reflexivity.
Qed.

Lemma restart_leaks_first_capture_witness :
  (forall a, no_faults a = None) /\
  exists w',
    (start no_faults None ;; start no_faults None ;; stop no_faults)
      (fresh_recorder, empty_world)
    = (Returns tt, (fresh_recorder, w')) /\
    next empty_world ∈ live w'.
Proof.
  assert (H : forall a, no_faults a = None) by reflexivity.
  split; [exact H|].
  destruct (restart_leaks_first_capture no_faults fresh_recorder empty_world H)
    as (w' & H1 & H2 & _).
  exists w'. split; [exact H1 | exact H2].
Defined.

End RecorderSetup.

(** ** The volume meter *)

Section VolumeMeter.
Import Volume.

Lemma index_loop {A B} (f : B -> A -> B) (l : list A) (n : nat) (b : B) :
  (n <= length l)%nat ->
  fold_left (fun (acc : B) (i : nat) =>
               match l !! i with Some x => f acc x | None => acc end)
            (seq 0 n) b
  = fold_left f (take n l) b.
Proof.
  induction n as [|n IH]; intros Hn; [reflexivity|].
  rewrite seq_S, fold_left_app, IH by lia. cbn [fold_left Nat.add].
  destruct (lookup_lt_is_Some_2 l n ltac:(lia)) as [x Hx].
  rewrite Hx, (take_S_r _ _ _ Hx), fold_left_app. reflexivity.
Qed.

Lemma sum_squares_fold (inputData : list number) :
  sum_squares inputData
  = fold_left (fun sum x => add sum (mul x x)) inputData (of_Z 0).
Proof.
  unfold sum_squares. rewrite (index_loop (fun sum x => add sum (mul x x))) by lia.
  now rewrite firstn_all.
Qed.

Lemma round_aux_sign (s : bool) (m e : Z) (l : location) :
  match binary_round_aux prec emax s m e l with
  | S754_zero s' | S754_infinity s' | S754_finite s' _ _ => s' = s
  | S754_nan => True
  end.
Proof.
  unfold binary_round_aux.
  destruct (shr_fexp prec emax m e l) as [mrs' e'].
  destruct (shr_fexp prec emax _ e' loc_Exact) as [mrs'' e''].
  destruct (shr_m mrs'') as [|p|p]; [reflexivity| |exact I].
  destruct (e'' <=? emax - prec); reflexivity.
Qed.

Lemma round_sign (s : bool) (m : positive) (e : Z) :
  match binary_round prec emax s m e with
  | S754_zero s' | S754_infinity s' | S754_finite s' _ _ => s' = s
  | S754_nan => True
  end.
Proof.
  unfold binary_round. destruct (shl_align _ _ _) as [mz ez]. apply round_aux_sign.
Qed.

Lemma square_nonnegative (x : number) : nonnegative (mul x x).
Proof.
  destruct x as [s|s| |s m e]; cbn; try exact I; try (now destruct s).
  pose proof (round_aux_sign (xorb s s) (Zpos (m * m)) (e + e) loc_Exact) as H.
  rewrite xorb_nilpotent in *. exact H.
Qed.

Lemma add_nonnegative (x y : number) :
  nonnegative x -> nonnegative y -> nonnegative (add x y).
Proof.
  destruct x as [sx|sx| |sx mx ex], y as [sy|sy| |sy my ey]; cbn;
    intros Hx Hy; subst; try reflexivity; try exact I.
  apply (round_sign false).
Qed.

Lemma sum_nonnegative (inputData : list number) : nonnegative (sum_squares inputData).
Proof.
  rewrite sum_squares_fold.
  assert (H0 : nonnegative (of_Z 0)) by reflexivity.
  revert H0. generalize (of_Z 0).
  induction inputData as [|x l IH]; intros acc Hacc; [exact Hacc|].
  cbn [fold_left]. apply IH. apply add_nonnegative; [exact Hacc|apply square_nonnegative].
Qed.

Lemma of_nat_nonnegative (n : nat) : nonnegative (of_Z (Z.of_nat n)).
Proof.
  unfold of_Z, binary_normalize. destruct (Z.of_nat n) as [|p|p] eqn:Hn; [reflexivity| |lia].
  apply (round_sign false).
Qed.

Lemma div_nonnegative (x y : number) :
  nonnegative x -> nonnegative y -> nonnegative (div x y).
Proof.
  destruct x as [sx|sx| |sx mx ex], y as [sy|sy| |sy my ey]; cbn;
    intros Hx Hy; subst; try reflexivity; try exact I.
  destruct (SFdiv_core_binary _ _ _ _ _ _) as [[mz ez] lz].
  apply (round_aux_sign false).
Qed.

Lemma sqrt_nonnegative (x : number) : nonnegative x -> nonnegative (Math_sqrt x).
Proof.
  destruct x as [s|s| |s m e]; cbn; intros Hx; try (subst s; cbn);
    try reflexivity; try exact I.
  destruct (SFsqrt_core_binary _ _ _ _) as [[mz ez] lz].
  apply (round_aux_sign false).
Qed.

(** X4.  The volume reported for a buffer is never negative, whatever the
    samples are: it is NaN or has a clear sign bit, so the comparison
    [rms < 0] is false.  For an empty buffer it is NaN (0 / 0). *)
Theorem volume_never_negative (inputData : list number) :
  nonnegative (rms inputData) /\
  lt (rms inputData) (of_Z 0) = false /\
  (inputData = [] -> rms inputData = NaN).
Proof.
  assert (H : nonnegative (rms inputData)).
  { apply sqrt_nonnegative, div_nonnegative;
      [apply sum_nonnegative | apply of_nat_nonnegative]. }
  split; [exact H|]. split.
  - destruct (rms inputData) as [s|s| |s m e]; cbn in H; subst; reflexivity.
  - intros ->. reflexivity.
Qed.

Lemma iter_xO_pow2 (k p : positive) : Zpos (Pos.iter xO p k) = Zpos p * 2 ^ Zpos k.
Proof.
  induction k as [|k IH] using Pos.peano_ind.
  - cbn [Pos.iter]. rewrite Pos2Z.inj_xO. change (2 ^ 1) with 2. lia.
  - rewrite Pos.iter_succ, Pos2Z.inj_xO, IH, Pos2Z.inj_succ, Z.pow_succ_r by lia. ring.
Qed.

(** An integer below [2 ^ 53], such as an array length, is a Number. *)
Lemma of_Z_pos_finite (p : positive) :
  Zpos p < 2 ^ 53 -> exists m e, of_Z (Zpos p) = S754_finite false m e.
Proof.
  intros Hp. unfold of_Z, binary_normalize, binary_round.
  change (Zpos (digits2_pos p)) with (Zdigits2 (Zpos p)).
  pose proof (Zdigits2_bound p 53 Hp) as Hd.
  assert (Hd1 : 1 <= Zdigits2 (Zpos p)) by (unfold Zdigits2; lia).
  replace (fexp prec emax (Zdigits2 (Zpos p) + 0)) with (Zdigits2 (Zpos p) - 53)
    by (unfold fexp, emin, prec, emax; lia).
  unfold shl_align. rewrite Z.sub_0_r.
  destruct (Zdigits2 (Zpos p) - 53) as [|k|k] eqn:Hk; [|lia|].
  - destruct (binary_round_aux_exact false p 0 0) as (m' & n & _ & _ & Hr); try lia.
    rewrite Z.pow_0_r, Z.mul_1_r in Hr. rewrite Hr. eauto.
  - destruct (binary_round_aux_exact false p (Zpos k) (Zneg k))
      as (m' & n & _ & _ & Hr); try lia.
    rewrite iter_xO_pow2, Hr. eauto.
Qed.

(** X5.  A silent buffer that is not empty (and has fewer than [2 ^ 53]
    samples, as every typed array has) reports the volume [+0]: squares
    of zeros of either sign are [+0], their sum is [+0], and so are its
    quotient by the length and the square root of that. *)
Theorem silence_has_zero_volume (inputData : list number) :
  inputData <> [] -> Z.of_nat (length inputData) < 2 ^ 53 ->
  Forall (fun x => is_zero x = true) inputData ->
  sum_squares inputData = of_Z 0 /\ rms inputData = of_Z 0.
Proof.
  intros Hne Hlen Hz.
  assert (Hsum : sum_squares inputData = of_Z 0).
  { rewrite sum_squares_fold. clear Hne Hlen.
    induction Hz as [|x l Hx _ IH]; [reflexivity|].
    cbn [fold_left]. destruct x as [s| | |]; try discriminate.
    replace (add (of_Z 0) (mul (S754_zero s) (S754_zero s))) with (of_Z 0)
      by (now destruct s).
    exact IH. }
  split; [exact Hsum|]. unfold rms. rewrite Hsum.
  destruct (Z.of_nat (length inputData)) as [|p|p] eqn:Hp.
  - destruct inputData; [congruence|discriminate].
  - destruct (of_Z_pos_finite p Hlen) as (m & e & ->). reflexivity.
  - lia.
Qed.

Lemma silence_has_zero_volume_witness :
  sum_squares [of_Z 0; S754_zero true] = of_Z 0 /\
  rms [of_Z 0; S754_zero true] = of_Z 0.
Proof.
  apply (silence_has_zero_volume [of_Z 0; S754_zero true]).
  - discriminate.
  - reflexivity.
  - repeat constructor.
Defined.

End VolumeMeter.

(** ** The payload of a frame *)

Section Payload.
Import Base64 Transport.

Lemma string_ind3 (P : string -> Prop) :
  P ""%string -> (forall a, P (String a "")) -> (forall a b, P (String a (String b ""))) ->
  (forall a b c rest, P rest -> P (String a (String b (String c rest)))) ->
  forall s, P s.
Proof.
  intros H0 H1 H2 H3 s.
  assert (H : P s /\ (forall a, P (String a s)) /\ (forall a b, P (String a (String b s)))).
  { induction s as [|c s (IH0 & IH1 & IH2)]; [auto|].
    split; [exact (IH1 c)|]. split; [exact (fun a => IH2 a c)|].
    intros a b. apply H3, IH0. }
  apply H.
Qed.

Lemma btoa_length (binary : string) :
  String.length (btoa binary) = (4 * ((String.length binary + 2) / 3))%nat.
Proof.
  induction binary as [|a|a b|a b c rest IH] using string_ind3; try reflexivity.
  cbn [btoa String.length]. rewrite IH.
  replace (S (S (S (String.length rest))) + 2)%nat
    with (1 * 3 + (String.length rest + 2))%nat by lia.
  rewrite Nat.div_add_l by lia. lia.
Qed.

Lemma code_range (c : Ascii.ascii) : 0 <= code c < 256.
Proof.
  unfold code. pose proof (Ascii.N_ascii_bounded c). lia.
Qed.

Lemma code_inj (a b : Ascii.ascii) : code a = code b -> a = b.
Proof.
  unfold code. intros H. apply N2Z.inj in H.
  rewrite <- (Ascii.ascii_N_embedding a), <- (Ascii.ascii_N_embedding b). now f_equal.
Qed.

Lemma index_digit (n : Z) : 0 <= n < 64 -> index (digit n) = n.
Proof.
  intros Hn.
  assert (Hall : forallb (fun k => Z.eqb (index (digit (Z.of_nat k))) (Z.of_nat k))
                         (seq 0 64) = true) by (vm_compute; reflexivity).
  rewrite forallb_forall in Hall.
  specialize (Hall (Z.to_nat n)). rewrite Z2Nat.id in Hall by lia.
  apply Z.eqb_eq, Hall, in_seq. lia.
Qed.

Lemma digit_inj (n m : Z) : 0 <= n < 64 -> 0 <= m < 64 -> digit n = digit m -> n = m.
Proof.
  intros Hn Hm H. rewrite <- (index_digit n Hn), <- (index_digit m Hm). now f_equal.
Qed.

Lemma digit_not_pad (n : Z) : 0 <= n < 64 -> digit n <> pad.
Proof.
  intros Hn H. apply (f_equal index) in H. rewrite index_digit in H by exact Hn.
  change (index pad) with 64 in H. lia.
Qed.

Ltac bounds :=
  repeat match goal with
         | |- context [code ?a] =>
             lazymatch goal with
             | _ : 0 <= code a < 256 |- _ => fail
             | _ => pose proof (code_range a)
             end
         | H : context [code ?a] |- _ =>
             lazymatch goal with
             | _ : 0 <= code a < 256 |- _ => fail
             | _ => pose proof (code_range a)
             end
         end.

Ltac arith := bounds; Z.div_mod_to_equations; lia.

Ltac pad_clash :=
  exfalso;
  match goal with
  | H : digit ?x = ?c |- _ =>
      lazymatch c with
      | digit _ => fail
      | _ => apply (digit_not_pad x); [arith | exact H]
      end
  | H : ?c = digit ?x |- _ =>
      lazymatch c with
      | digit _ => fail
      | _ => apply (digit_not_pad x); [arith | exact (eq_sym H)]
      end
  end.

Ltac same_digits :=
  repeat match goal with
         | H : digit ?x = digit ?y |- _ => apply digit_inj in H; [|arith..]
         end.

(** Distinct binary strings have distinct encodings. *)
Lemma btoa_inj (s1 s2 : string) : btoa s1 = btoa s2 -> s1 = s2.
Proof.
  revert s2.
  induction s1 as [|a|a b|a b c rest IH] using string_ind3;
    intros s2; destruct s2 as [|a' [|b' [|c' rest']]]; cbn [btoa]; cbv zeta;
    intros H; try discriminate; try reflexivity;
    injection H; clear H; intros; try pad_clash; same_digits.
  - f_equal. apply code_inj. arith.
  - assert (code a = code a' /\ code b = code b') as [Hx Hy] by arith.
    apply code_inj in Hx, Hy. now subst.
  - assert (code a = code a' /\ code b = code b' /\ code c = code c') as (Hx & Hy & Hz)
      by arith.
    apply code_inj in Hx, Hy, Hz. subst. do 3 f_equal. now apply IH.
Qed.

(** The encoding on the test vectors of RFC 4648, and on the frame of
    the two extreme samples. *)
Example btoa_vectors :
  btoa "" = ""%string /\ btoa "f" = "Zg=="%string /\ btoa "fo" = "Zm8="%string /\
  btoa "foo" = "Zm9v"%string /\ btoa "foob" = "Zm9vYg=="%string /\
  btoa "fooba" = "Zm9vYmE="%string /\ btoa "foobar" = "Zm9vYmFy"%string /\
  arrayBufferToBase64 (buffer [32767; -32768]) = "/38AgA=="%string.
Proof. vm_compute. repeat split. Qed.

Lemma btoa_alphabet (binary : string) (c : Ascii.ascii) :
  In c (list_ascii_of_string (btoa binary)) ->
  c = pad \/ exists n, 0 <= n < 64 /\ c = digit n.
Proof.
  induction binary as [|a0|a0 b0|a0 b0 c0 rest IH] using string_ind3;
    cbn [btoa list_ascii_of_string In]; cbv zeta; intros H.
  - contradiction.
  - destruct H as [<-|[<-|[<-|[<-|[]]]]]; auto; right; eexists; (split; [|reflexivity]); arith.
  - destruct H as [<-|[<-|[<-|[<-|[]]]]]; auto; right; eexists; (split; [|reflexivity]); arith.
  - destruct H as [<-|[<-|[<-|[<-|H]]]]; auto; right; eexists; (split; [|reflexivity]); arith.
Qed.

Lemma append_loop (f : Z -> Ascii.ascii) (bytes : list Z) (binary : string) :
  fold_left (fun (binary : string) (b : Z) => (binary ++ String (f b) "")%string)
            bytes binary
  = (binary ++ string_of_list_ascii (map f bytes))%string.
Proof.
  revert binary. induction bytes as [|b bytes IH]; intros binary; cbn [fold_left map].
  - cbn. now rewrite append_nil_r.
  - rewrite IH, append_assoc. reflexivity.
Qed.

Lemma binary_string_map (bytes : list Z) :
  binary_string bytes = string_of_list_ascii (map fromCharCode bytes).
Proof.
  unfold binary_string.
  rewrite (index_loop (fun binary b => (binary ++ String (fromCharCode b) "")%string))
    by lia.
  rewrite firstn_all. apply append_loop.
Qed.

Lemma binary_string_length (bytes : list Z) :
  String.length (binary_string bytes) = length bytes.
Proof.
  rewrite binary_string_map. induction bytes as [|b bytes IH]; cbn; congruence.
Qed.

Lemma buffer_length (int16 : list Z) : length (buffer int16) = (2 * length int16)%nat.
Proof.
  induction int16 as [|z l IH]; [reflexivity|].
  change (buffer (z :: l)) with (bytes_of_int16 z ++ buffer l).
  rewrite length_app, IH. cbn [length]. unfold bytes_of_int16. cbn [length]. lia.
Qed.

Lemma buffer_bytes (int16 : list Z) : Forall (fun b => 0 <= b < 256) (buffer int16).
Proof.
  induction int16 as [|z l IH]; cbn; [constructor|].
  repeat constructor; try assumption; Z.div_mod_to_equations; lia.
Qed.

Lemma fromCharCode_inj (l1 l2 : list Z) :
  Forall (fun b => 0 <= b < 256) l1 -> Forall (fun b => 0 <= b < 256) l2 ->
  map fromCharCode l1 = map fromCharCode l2 -> l1 = l2.
Proof.
  intros H1. revert l2. induction H1 as [|b1 l1 Hb1 _ IH]; intros l2 H2 H;
    destruct H2 as [|b2 l2 Hb2 H2]; try discriminate; [reflexivity|].
  cbn in H. injection H as Hc Hl. f_equal; [|now apply IH].
  unfold fromCharCode in Hc. apply (f_equal Ascii.N_of_ascii) in Hc.
  rewrite !Ascii.N_ascii_embedding in Hc by lia. lia.
Qed.

Lemma buffer_inj (l1 l2 : list Z) :
  Forall (fun z => -32768 <= z <= 32767) l1 ->
  Forall (fun z => -32768 <= z <= 32767) l2 ->
  buffer l1 = buffer l2 -> l1 = l2.
Proof.
  intros H1. revert l2. induction H1 as [|z1 l1 Hz1 _ IH]; intros l2 H2 H;
    destruct H2 as [|z2 l2 Hz2 H2]; try discriminate; [reflexivity|].
  cbn in H. injection H as Hlo Hhi Hl. f_equal; [|now apply IH].
  Z.div_mod_to_equations. lia.
Qed.

Lemma string_of_list_ascii_inj (l1 l2 : list Ascii.ascii) :
  string_of_list_ascii l1 = string_of_list_ascii l2 -> l1 = l2.
Proof.
  intros H. rewrite <- (list_ascii_of_string_of_list_ascii l1),
    <- (list_ascii_of_string_of_list_ascii l2). now f_equal.
Qed.

(** X6.  The payload of a frame is base64 text: four characters for every
    three bytes of the buffer, the last group padded, each character a
    digit of the alphabet or the padding character.  A buffer of [n]
    samples holds [2 n] bytes. *)
Theorem frame_payload_shape (int16 : list Z) :
  let data := arrayBufferToBase64 (buffer int16) in
  String.length data = (4 * ((2 * length int16 + 2) / 3))%nat /\
  (forall c, In c (list_ascii_of_string data) ->
             c = pad \/ exists n, 0 <= n < 64 /\ c = digit n) /\
  (int16 = [] -> data = ""%string).
Proof.
  cbn zeta. unfold arrayBufferToBase64. split; [|split].
  - now rewrite btoa_length, binary_string_length, buffer_length.
  - apply btoa_alphabet.
  - intros ->. reflexivity.
Qed.

(** X7.  Nothing is lost on the way to the 'data' event: two buffers of
    16-bit samples with the same payload are the same buffer, and two
    input buffers whose events carry the same payload convert to the
    same samples. *)
Theorem frame_payload_lossless :
  (forall l1 l2 : list Z,
      Forall (fun z => -32768 <= z <= 32767) l1 ->
      Forall (fun z => -32768 <= z <= 32767) l2 ->
      arrayBufferToBase64 (buffer l1) = arrayBufferToBase64 (buffer l2) -> l1 = l2) /\
  (forall x y : list number,
      hd_error (onaudioprocess x) = hd_error (onaudioprocess y) ->
      convertFloat32ToInt16 x = convertFloat32ToInt16 y).
Proof.
  assert (Hinj : forall l1 l2 : list Z,
      Forall (fun z => -32768 <= z <= 32767) l1 ->
      Forall (fun z => -32768 <= z <= 32767) l2 ->
      arrayBufferToBase64 (buffer l1) = arrayBufferToBase64 (buffer l2) -> l1 = l2).
  { intros l1 l2 H1 H2 H. unfold arrayBufferToBase64 in H.
    apply btoa_inj in H. rewrite !binary_string_map in H.
    apply string_of_list_ascii_inj, fromCharCode_inj in H; try apply buffer_bytes.
    now apply buffer_inj. }
  split; [exact Hinj|].
  intros x y H. unfold onaudioprocess in H. cbn in H. injection H as H.
  apply Hinj; [| |exact H]; rewrite convertFloat32ToInt16_map;
    apply List.Forall_forall; intros z Hz; apply in_map_iff in Hz as (v & <- & _);
    apply ToInt16_range.
Qed.

End Payload.

(** ** The controls of the component *)

Section Controls.
Import Eff Eff.Notations Store Broadcaster Session.
Import Browser AudioRecorder.

Lemma persister_untouched_refl (s : Broadcaster.state) : persister_untouched s s.
Proof. repeat split. Qed.

Lemma persister_untouched_trans (s1 s2 s3 : Broadcaster.state) :
  persister_untouched s1 s2 -> persister_untouched s2 s3 -> persister_untouched s1 s3.
Proof. unfold persister_untouched. intuition congruence. Qed.

Lemma capture_untouched_refl (s : Broadcaster.state) : capture_untouched s s.
Proof. repeat split. Qed.

Lemma capture_untouched_trans (s1 s2 s3 : Broadcaster.state) :
  capture_untouched s1 s2 -> capture_untouched s2 s3 -> capture_untouched s1 s3.
Proof. unfold capture_untouched. intuition congruence. Qed.

Lemma same_source_refl (s : Broadcaster.state) : same_source s s.
Proof. reflexivity. Qed.

Lemma same_source_trans (s1 s2 s3 : Broadcaster.state) :
  same_source s1 s2 -> same_source s2 s3 -> same_source s1 s3.
Proof. unfold same_source. congruence. Qed.

Ltac untouched :=
  repeat first
    [ preserves_step
    | apply preserves_on_recorder; intros
    | apply preserves_forEach; [assumption|assumption|intros ?]
    | apply preserves_upd; intros ?
    | progress cbn
    | assumption
    | solve [repeat split] ].

Ltac unfold_setters :=
  unfold Broadcaster.connect, Broadcaster.disconnect, Broadcaster.console_error,
    setIsRecording, setMicVolume, set_session, set_dbUpdateRef, set_recorder,
    set_transcript, set_timeout, set_onended, set_connected, set_clock, set_store,
    set_unhandled, set_audioSource.

Lemma stopBroadcast_persister env : preserves persister_untouched (stopBroadcast env).
Proof.
  pose proof persister_untouched_refl. pose proof persister_untouched_trans.
  unfold stopBroadcast, recorder_stop. unfold_setters. untouched.
Qed.

Lemma toggleBroadcast_persister env : preserves persister_untouched (toggleBroadcast env).
Proof.
  pose proof persister_untouched_refl. pose proof persister_untouched_trans.
  pose proof (stopBroadcast_persister env).
  unfold toggleBroadcast, acquire_display. unfold_setters. untouched.
Qed.

Lemma control_persister env ev :
  is_control ev = true -> preserves persister_untouched (react env ev).
Proof.
  pose proof persister_untouched_refl. pose proof persister_untouched_trans.
  pose proof (stopBroadcast_persister env).
  destruct ev; cbn [is_control react]; intros Hc; try discriminate.
  - unfold_setters. untouched.
  - apply toggleBroadcast_persister.
  - untouched.
  - unfold_setters. untouched.
Qed.

Lemma stopBroadcast_source env : preserves same_source (stopBroadcast env).
Proof.
  pose proof same_source_refl. pose proof same_source_trans.
  unfold stopBroadcast, recorder_stop. unfold_setters. untouched.
Qed.

Lemma react_source env ev :
  (forall src, ev <> SelectSource src) -> preserves same_source (react env ev).
Proof.
  pose proof same_source_refl. pose proof same_source_trans.
  pose proof (stopBroadcast_source env).
  destruct ev; cbn [react]; intros Hc.
  - unfold_setters. untouched.
  - now contradiction (Hc src).
  - unfold toggleBroadcast, acquire_display. unfold_setters. untouched.
  - untouched.
  - unfold handleContent, handle_part, debouncedSave. unfold_setters. untouched.
  - unfold_setters. untouched.
  - unfold run_timers, debouncedSave_body, store_call. unfold_setters. untouched.
Qed.

(** X8.  The selected audio source changes only through a source button, and
    only while no capture is running: during a capture the buttons do
    nothing, and no other event touches the selection. *)
Theorem source_changes_only_offline (env : environment) (ev : event)
        (s : Broadcaster.state) :
  let s' := step env ev s in
  audioSource s' = audioSource s \/
  (isRecording s = false /\ ev = SelectSource (audioSource s')).
Proof.
  intros s'. subst s'.
  destruct ev as [uuid|src| | |sc|v|ms];
    try (left; apply (react_source env); intros; discriminate).
  unfold step, react, bind, get. cbn.
  destruct (isRecording s) eqn:Hr; [now left|]. right. cbn. split; reflexivity.
Qed.


(** X9.  Stopping or starting a capture, the end of the shared track, a source
    button and a volume report leave the persister alone: a save that is
    pending stays pending, is neither flushed nor cancelled, and goes
    out with its text once its window has elapsed. *)
Theorem pending_save_outlives_capture (env env' : environment) (ev : event)
        (s : Broadcaster.state) (deadline ms : Z) (text : string) :
  is_control ev = true ->
  (forall c, store_faults env' c = None) ->
  timeout s = Some (deadline, text) -> deadline <= clock s + ms ->
  let s1 := step env ev s in
  persister_untouched s s1 /\
  exists q,
    requests (step env' (Elapse ms) s1)
    = requests s ++ [ReqSelect (sessionIdRef s); q] /\
    is_write q = true /\ text_of q = Some text.
Proof.
  intros Hev Hcalm Ht Hd s1. subst s1.
  pose proof (control_persister env ev Hev s) as Hp. fold (step env ev s) in Hp.
  split; [exact Hp|].
  destruct Hp as (Ht1 & Hc1 & _ & Hr1 & _ & _ & _ & Hs1 & _).
  destruct (elapse_fire_step env' (step env ev s) ms deadline text Hcalm)
    as (_ & _ & _ & _ & _ & q & Hq & Hw & Htext); [congruence|lia|].
  exists q. rewrite Hq, Hr1, Hs1. repeat split; assumption.
Qed.

Lemma pending_save_outlives_capture_witness :
  let s := run [(calm, Mount "abc"); (calm, Click);
                (calm, ContentEvent (Some [Some "Hello"]))]
               (initial microphone empty_world [] 0) in
  let s1 := step calm Click s in
  persister_untouched s s1 /\
  exists q,
    requests (step calm (Elapse 2000) s1)
    = requests s ++ [ReqSelect (sessionIdRef s); q] /\
    is_write q = true /\ text_of q = Some "Hello"%string.
Proof.
  intros s s1.
  refine (pending_save_outlives_capture calm calm Click s 2000 2000 "Hello" _ _ _ _).
  - reflexivity.
  - reflexivity.
  - reflexivity.
  - vm_compute. discriminate.
Defined.

(** X10.  Unmounting stops the recorder and does nothing else: what the
    recorder held is released, but the connection is not closed, the
    recording flag is not reset, and a pending save is not cancelled. *)
Theorem unmount_stops_recorder_only (env : environment) (s : Broadcaster.state) :
  releases_succeed (recorder_faults env) ->
  let s' := snd (unmount env s) in
  fst (unmount env s) = Returns tt /\
  (forall r, recorderRef s = Some r ->
             recorderRef s' = Some fresh_recorder /\ released r (browser s')) /\
  (recorderRef s = None -> s' = s) /\
  connected s' = connected s /\ isRecording s' = isRecording s /\
  micVolume s' = micVolume s /\ onended s' = onended s /\
  persister_untouched s s'.
Proof.
  intros Hfl. unfold unmount, recorder_stop, bind, get, when_some.
  destruct (recorderRef s) as [r|] eqn:Hr.
  - unfold on_recorder.
    destruct (stop_releases (recorder_faults env) r (browser s) Hfl) as (w' & Hs & Hrel).
    rewrite Hs. cbn. split; [reflexivity|].
    split; [intros ? [= <-]; split; [reflexivity|exact Hrel]|].
    split; [discriminate|]. repeat split.
  - cbn. split; [reflexivity|]. split; [discriminate|]. repeat split.
Qed.

Lemma unmount_stops_recorder_only_witness :
  let s := run [(calm, Mount "abc"); (calm, Click);
                (calm, ContentEvent (Some [Some "Hello"]))]
               (initial microphone empty_world [] 0) in
  let s' := snd (unmount calm s) in
  connected s' = true /\ isRecording s' = true /\
  timeout s' = Some (2000, "Hello"%string) /\
  live (browser s') = ∅.
Proof.
  intros s s'.
  assert (Hfl : releases_succeed (recorder_faults calm)) by (repeat split).
  destruct (unmount_stops_recorder_only calm s Hfl)
    as (_ & _ & _ & Hc & Hi & _ & _ & Ht & _).
  fold s' in Hc, Hi, Ht.
  split; [rewrite Hc; reflexivity|]. split; [rewrite Hi; reflexivity|].
  split; [rewrite Ht; reflexivity|]. vm_compute. reflexivity.
Defined.

Ltac run_toggle :=
  unfold step, react, toggleBroadcast, acquire_display, stopBroadcast, recorder_stop,
    Broadcaster.connect, Broadcaster.disconnect, on_recorder, Broadcaster.console_error,
    try_catch, bind, get, when_some, setIsRecording, setMicVolume, set_recorder,
    set_onended, set_connected, upd, modify, ret, throw.

(** X11.  A click on the broadcast button with the tab source selected starts
    nothing when the share is refused or comes without an audio track:
    no connection is opened, no recorder is created, the recording flag
    stays off, the persister is not touched and no stream is live that
    was not live before.  A refusal is logged; a share without audio is
    stopped again at once. *)
Theorem share_without_audio_starts_nothing (env : environment) (s : Broadcaster.state) :
  isRecording s = false -> audioSource s = screen_tab ->
  (getDisplayMedia env = Shared 0 \/ exists name, getDisplayMedia env = Refused name) ->
  let s' := step env Click s in
  let h := next (browser s) in
  isRecording s' = false /\ connected s' = connected s /\
  recorderRef s' = recorderRef s /\ onended s' = onended s /\
  micVolume s' = micVolume s /\ persister_untouched s s' /\
  live (browser s') ⊆ live (browser s) /\
  running (browser s') = running (browser s) /\
  edges (browser s') = edges (browser s) /\
  (getDisplayMedia env = Shared 0 ->
   (h ∉ live (browser s')) /\
   trace (browser s') = trace (browser s) ++ [(GetDisplayMedia, h); (TracksStop, h)] /\
   console (browser s') = console (browser s)) /\
  (forall name, getDisplayMedia env = Refused name ->
   browser s' = Browser.console_error "Error getting display media:" (browser s)).
Proof.
  intros Hrec Hsrc Hdm s' h. subst s' h. run_toggle. rewrite Hrec. cbn.
  rewrite Hsrc. cbn.
  destruct (getDisplayMedia env) as [[|n]|name] eqn:Hg.
  - cbn. rewrite Hrec. repeat split; try discriminate; try reflexivity.
    + set_solver.
    + set_solver.
    + rewrite <- app_assoc. reflexivity.
  - exfalso. destruct Hdm as [?|[? ?]]; discriminate.
  - cbn. rewrite Hrec. repeat split; try discriminate; reflexivity.
Qed.

Lemma share_without_audio_starts_nothing_witness :
  let env := {| recorder_faults := Browser.no_faults; store_faults := Store.no_faults;
                getDisplayMedia := Shared 0; connect_error := None |} in
  let s := run [(calm, Mount "abc"); (calm, SelectSource screen_tab)]
               (initial microphone empty_world [] 0) in
  let s' := step env Click s in
  isRecording s' = false /\ connected s' = false /\ recorderRef s' = None /\
  live (browser s') ⊆ ∅.
Proof.
  intros env s s'.
  destruct (share_without_audio_starts_nothing env s eq_refl eq_refl (or_introl eq_refl))
    as (H1 & H2 & H3 & _ & _ & _ & H4 & _).
  repeat split; assumption.
Defined.

(** X12.  With the tab source selected and no earlier capture still held, a
    connection that fails after the tab was shared ends with the capture
    off and the connection closed, but with the shared stream still
    live: no recorder holds it yet, so the handler's [stopBroadcast]
    does not reach it; only the end-of-track handler still refers to
    it. *)
Theorem connect_failure_leaves_share_live (env : environment) (s : Broadcaster.state)
        (n : nat) (e : error) :
  isRecording s = false -> audioSource s = screen_tab ->
  (forall r, recorderRef s = Some r -> r = fresh_recorder) ->
  getDisplayMedia env = Shared (S n) -> connect_error env = Some e ->
  let s' := step env Click s in
  let h := next (browser s) in
  isRecording s' = false /\ connected s' = false /\
  recorderRef s' = recorderRef s /\
  h ∈ live (browser s') /\ onended s' = Some h /\
  trace (browser s') = trace (browser s) ++ [(GetDisplayMedia, h)] /\
  console (browser s') = console (browser s) ++ ["Failed to start broadcast"].
Proof.
  intros Hrec Hsrc Hidle Hdm Hconn s' h. subst s' h. run_toggle. rewrite Hrec. cbn.
  rewrite Hsrc. cbn. rewrite Hdm. cbn. rewrite Hconn. cbn.
  destruct (recorderRef s) as [r|] eqn:Hr.
  - rewrite (Hidle r eq_refl). cbn. repeat split. set_solver.
  - cbn. repeat split. set_solver.
Qed.

Lemma connect_failure_leaves_share_live_witness :
  let env := {| recorder_faults := Browser.no_faults; store_faults := Store.no_faults;
                getDisplayMedia := Shared 1;
                connect_error := Some "WebSocket closed"%string |} in
  let s := run [(calm, Mount "abc"); (calm, SelectSource screen_tab)]
               (initial microphone empty_world [] 0) in
  let s' := step env Click s in
  isRecording s' = false /\ connected s' = false /\
  next (browser s) ∈ live (browser s').
Proof.
  intros env s s'.
  destruct (connect_failure_leaves_share_live env s 0 "WebSocket closed"
              eq_refl eq_refl ltac:(discriminate) eq_refl eq_refl)
    as (H1 & H2 & _ & H3 & _).
  repeat split; assumption.
Defined.

Lemma react_capture env ev :
  acts_on_capture ev = false -> preserves capture_untouched (react env ev).
Proof.
  pose proof capture_untouched_refl. pose proof capture_untouched_trans.
  destruct ev; cbn [acts_on_capture react]; intros Hc; try discriminate.
  - unfold_setters. untouched.
  - unfold_setters. untouched.
  - unfold handleContent, handle_part, debouncedSave. unfold_setters. untouched.
  - unfold_setters. untouched.
  - unfold run_timers, debouncedSave_body, store_call. unfold_setters. untouched.
Qed.

Lemma consistent_untouched (s s' : Broadcaster.state) :
  capture_untouched s s' -> consistent s -> consistent s'.
Proof.
  intros (H1 & H2 & H3 & H4 & _) (Hc & Hon & Hoff).
  unfold consistent. rewrite H1, H2, H3, H4. auto.
Qed.

Lemma stopBroadcast_consistent (env : environment) (s : Broadcaster.state) :
  releases_succeed (recorder_faults env) -> consistent (snd (stopBroadcast env s)).
Proof.
  intros Hrel.
  destruct (stopBroadcast_succeeds env s Hrel) as (_ & Hi & _ & Hc & _ & _ & Hsome & Hnone).
  split; [congruence|]. split; [congruence|]. intros _ r Hr.
  destruct (recorderRef s) as [r0|] eqn:Hr0.
  - destruct (Hsome r0 eq_refl) as [Hf _]. congruence.
  - destruct (Hnone eq_refl) as [Hf _]. congruence.
Qed.

Lemma acquire_display_spec (env : environment) (s s1 : Broadcaster.state)
      (o : outcome (option (option handle))) :
  acquire_display env s = (o, s1) ->
  isRecording s1 = isRecording s /\ connected s1 = connected s /\
  recorderRef s1 = recorderRef s /\
  (forall h, o = Returns (Some (Some h)) -> h ∈ live (browser s1)).
Proof.
  unfold acquire_display, bind, get, Broadcaster.console_error, set_recorder,
    set_onended, upd, modify, ret.
  destruct (audioSource s); cbn.
  - intros [= <- <-]. repeat split. discriminate.
  - destruct (getDisplayMedia env) as [[|n]|name]; cbn; intros [= <- <-];
      repeat split; try discriminate.
    intros h [= <-]. cbn. set_solver.
Qed.

Lemma toggle_consistent (env : environment) (s : Broadcaster.state) :
  releases_succeed (recorder_faults env) -> consistent s ->
  consistent (snd (toggleBroadcast env s)).
Proof.
  intros Hrel Hs. unfold toggleBroadcast. unfold bind at 1, get at 1.
  destruct (isRecording s) eqn:Hrec; [now apply stopBroadcast_consistent|].
  assert (Hcatch : forall s0 : Broadcaster.state,
             consistent (snd ((Broadcaster.console_error "Failed to start broadcast" ;;
                               stopBroadcast env) s0))).
  { intros s0. unfold bind, Broadcaster.console_error, get, set_recorder, upd, modify.
    cbn. now apply stopBroadcast_consistent. }
  unfold try_catch. unfold bind at 1.
  destruct (acquire_display env s) as [[[given|]|e0] s1] eqn:Hacq; [| |apply Hcatch].
  2:{ destruct (acquire_display_spec _ _ _ _ Hacq) as (H1 & H2 & H3 & _).
      destruct Hs as (Hc & _ & Hoff). cbn.
      split; [congruence|]. split; [congruence|]. intros _ r Hr. apply Hoff; congruence. }
  destruct (acquire_display_spec _ _ _ _ Hacq) as (H1 & H2 & H3 & Hlive).
  unfold Broadcaster.connect.
  destruct (connect_error env) as [e|]; [apply Hcatch|].
  unfold bind, set_connected, setIsRecording, get, set_recorder, on_recorder, upd, modify.
  cbn.
  destruct (start (recorder_faults env) given (fresh_recorder, browser s1))
    as [[[]|e] [r' w']] eqn:Hstart; [|apply Hcatch].
  cbn. pose proof (start_returns_only_if _ _ _ _ _ _ Hstart) as Hset.
  rewrite (start_runs _ _ _ _ Hset) in Hstart. injection Hstart as <- <-.
  split; [reflexivity|]. split; [|discriminate]. intros _. cbn.
  eexists. split; [reflexivity|]. eexists _, _, _, _. split; [reflexivity|]. cbn.
  split; [|set_solver]. destruct given as [h|]; [|set_solver].
  apply Hlive. reflexivity.
Qed.

Lemma step_consistent (env : environment) (ev : event) (s : Broadcaster.state) :
  releases_succeed (recorder_faults env) -> consistent s -> consistent (step env ev s).
Proof.
  intros Hrel Hs.
  destruct (acts_on_capture ev) eqn:Hev.
  - destruct ev; try discriminate; unfold step, react.
    + now apply toggle_consistent.
    + unfold bind, get, when_some. destruct (onended s); [|exact Hs].
      now apply stopBroadcast_consistent.
  - eapply consistent_untouched; [|exact Hs]. apply (react_capture env ev Hev).
Qed.



(** X14.  Only the broadcast button and the end of the shared track act on the
    capture.  Over any sequence of other events (text arriving, volume
    reports, source buttons, the mount effects, the timers with whatever
    the store answers) the recording flag, the recorder, the connection
    and the browser stay as they are. *)
Theorem capture_survives_other_events (evs : list (environment * event))
        (s : Broadcaster.state) :
  Forall (fun '(_, ev) => acts_on_capture ev = false) evs ->
  let s' := run evs s in
  isRecording s' = isRecording s /\ recorderRef s' = recorderRef s /\
  connected s' = connected s /\ browser s' = browser s /\
  onended s' = onended s.
Proof.
  intros Hevs. cbn zeta. change (capture_untouched s (run evs s)).
  revert s. induction Hevs as [|[env ev] evs Hev _ IH]; intros s.
  - apply capture_untouched_refl.
  - rewrite run_cons. eapply capture_untouched_trans; [|apply IH].
    exact (react_capture env ev Hev s).
Qed.

Lemma capture_survives_other_events_witness :
  let env :=
    {| recorder_faults := Browser.no_faults;
       store_faults := fun _ => Some (Rejects "Failed to fetch"%string);
       getDisplayMedia := Shared 1; connect_error := None |} in
  let s := run [(calm, Mount "abc"); (calm, Click)]
               (initial microphone empty_world [] 0) in
  let s' := run [(env, ContentEvent (Some [Some "Hello"])); (env, Elapse 2000)] s in
  isRecording s' = isRecording s /\ recorderRef s' = recorderRef s /\
  connected s' = connected s /\ browser s' = browser s /\
  onended s' = onended s.
Proof.
  intros env s s'.
  apply (capture_survives_other_events
           [(env, ContentEvent (Some [Some "Hello"%string])); (env, Elapse 2000)] s).
  repeat constructor.
Defined.

End Controls.

(** ** Starting a capture from the component *)

Section Starts.
Import Eff Eff.Notations Store Broadcaster Session Capture.
Import Browser AudioRecorder.

Ltac run_toggle :=
  unfold step, react, toggleBroadcast, acquire_display, stopBroadcast, recorder_stop,
    Broadcaster.connect, Broadcaster.disconnect, on_recorder, Broadcaster.console_error,
    try_catch, bind, get, when_some, setIsRecording, setMicVolume, set_recorder,
    set_onended, set_connected, upd, modify, ret, throw.

(** What is left after a failed [start] has been followed by [stop]:
    nothing that was not engaged before. *)
Lemma stop_after_failed_start (fl fl' : faults) (given : option handle)
      (r r' : fields) (w w' : world) (e : error) (line : string) :
  start fl given (r, w) = (Throws e, (r', w')) -> releases_succeed fl' ->
  exists w'',
    stop fl' (r', console_error line w') = (Returns tt, (fresh_recorder, w'')) /\
    live w'' ⊆ live w /\ running w'' ⊆ running w /\ edges w'' ⊆ edges w /\
    console w'' = console w ++ ["Error starting recorder:"; line].
Proof.
  intros Hstart Hfl'.
  destruct (start_throws _ _ _ _ _ _ _ Hstart) as (_ & Hc & _ & _).
  destruct (start_engages _ _ _ _ _ _ _ Hstart) as (Hl & Hr & He).
  destruct (stop_succeeds fl' r' (console_error line w') Hfl')
    as (w'' & Hs & _ & Hc' & Hl' & Hr' & He').
  exists w''. split; [exact Hs|]. cbn in Hc', Hl', Hr', He'.
  split; [|split; [|split]].
  - intros s Hin. rewrite Hl' in Hin.
    destruct (stream r') as [s'|] eqn:Hst.
    + apply elem_of_difference in Hin as [Hin Hne].
      destruct (Hl s Hin) as [?|[= ->]]; [assumption|set_solver].
    + destruct (Hl s Hin) as [?|?]; [assumption|discriminate].
  - intros c Hin. rewrite Hr' in Hin.
    destruct (audioContext r') as [c'|] eqn:Hctx.
    + apply elem_of_difference in Hin as [Hin Hne].
      destruct (Hr c Hin) as [?|[= ->]]; [assumption|set_solver].
    + destruct (Hr c Hin) as [?|?]; [assumption|discriminate].
  - intros [a b] Hin. apply He' in Hin as (Hin & Hsrc & Hproc).
    destruct (He a b Hin) as [?|[?|?]]; [assumption|contradiction|contradiction].
  - rewrite Hc', Hc, <- app_assoc. reflexivity.
Qed.

(** X15.  With the microphone as source, a start that fails in the recorder is
    undone by the catch handler: the capture is off, the connection
    closed, the recorder holds nothing, and nothing is engaged in the
    browser that was not engaged before the click; both failures are
    logged. *)
Theorem failed_start_is_torn_down (env : environment) (s : Broadcaster.state) :
  isRecording s = false -> audioSource s = microphone ->
  connect_error env = None ->
  ~ setup_succeeds (recorder_faults env) None ->
  releases_succeed (recorder_faults env) ->
  let s' := step env Click s in
  isRecording s' = false /\ connected s' = false /\
  micVolume s' = Number.of_Z 0 /\ recorderRef s' = Some fresh_recorder /\
  live (browser s') ⊆ live (browser s) /\
  running (browser s') ⊆ running (browser s) /\
  edges (browser s') ⊆ edges (browser s) /\
  console (browser s')
  = console (browser s) ++ ["Error starting recorder:"; "Failed to start broadcast"].
Proof.
  intros Hrec Hsrc Hconn Hfail Hrel. cbn zeta.
  destruct (start (recorder_faults env) None (fresh_recorder, browser s))
    as [[[]|e] [r' w']] eqn:Hstart.
  { exfalso. apply Hfail. exact (start_returns_only_if _ _ _ _ _ _ Hstart). }
  destruct (stop_after_failed_start _ (recorder_faults env) _ _ _ _ _ _
              "Failed to start broadcast" Hstart Hrel)
    as (w'' & Hstop & Hl & Hr & He & Hc).
  run_toggle. rewrite Hrec. cbn -[stop start console_error].
  rewrite Hsrc. cbn -[stop start console_error].
  rewrite Hconn. cbn -[stop start console_error].
  rewrite Hstart. cbn -[stop start console_error].
  rewrite Hstop. cbn. repeat split; assumption.
Qed.

Lemma failed_start_is_torn_down_witness :
  let env :=
    {| recorder_faults := fun a =>
         match a with CreateScriptProcessor => Some "NotSupportedError"%string | _ => None end;
       store_faults := Store.no_faults; getDisplayMedia := Shared 1;
       connect_error := None |} in
  let s := run [(calm, Mount "abc")] (initial microphone empty_world [] 0) in
  let s' := step env Click s in
  isRecording s' = false /\ connected s' = false /\
  live (browser s') ⊆ live (browser s).
Proof.
  intros env s s'.
  assert (Hfail : ~ setup_succeeds (recorder_faults env) None).
  { intros (_ & _ & _ & H & _). discriminate. }
  assert (Hrel : releases_succeed (recorder_faults env)) by (repeat split).
  destruct (failed_start_is_torn_down env s eq_refl eq_refl eq_refl Hfail Hrel)
    as (H1 & H2 & _ & _ & H3 & _).
  repeat split; assumption.
Defined.

(** X16.  A capture that starts records from the selected source and from no
    other: with the microphone selected the recorder asks for the
    microphone and the display is not asked for; with the tab selected
    the shared stream is handed to the recorder, the microphone is not
    asked for, and the end-of-track handler is installed on the shared
    stream.  In both cases the recorder's stream is live. *)
Theorem capture_uses_selected_source (env : environment) (s : Broadcaster.state)
        (n : nat) :
  isRecording s = false -> getDisplayMedia env = Shared (S n) ->
  connect_error env = None -> (forall a, recorder_faults env a = None) ->
  let s' := step env Click s in
  let h := next (browser s) in
  isRecording s' = true /\ connected s' = true /\
  recorderRef s'
  = Some {| stream := Some h; audioContext := Some (1 + h)%nat;
            source := Some (2 + h)%nat; processor := Some (3 + h)%nat |} /\
  h ∈ live (browser s') /\
  trace (browser s')
  = trace (browser s) ++
    match audioSource s with
    | microphone => setup_plan None h (1 + h) (2 + h) (3 + h)
    | screen_tab =>
        (GetDisplayMedia, h) :: setup_plan (Some h) h (1 + h) (2 + h) (3 + h)
    end /\
  onended s' = match audioSource s with
               | microphone => onended s
               | screen_tab => Some h
               end.
Proof.
  intros Hrec Hdm Hconn Hfl. cbn zeta.
  run_toggle. rewrite Hrec. cbn. destruct (audioSource s); cbn.
  - rewrite Hconn. cbn.
    unfold start, try_catch, bind, in_world, getUserMedia, newAudioContext,
      createMediaStreamSource, createScriptProcessor, Browser.connect, create, invoke,
      set_processor, set_source, set_stream, set_audioContext, modify, ret, throw.
    cbn. rewrite !Hfl. cbn. rewrite <- !app_assoc. repeat split. set_solver.
  - rewrite Hdm. cbn. rewrite Hconn. cbn.
    unfold start, try_catch, bind, in_world, getUserMedia, newAudioContext,
      createMediaStreamSource, createScriptProcessor, Browser.connect, create, invoke,
      set_processor, set_source, set_stream, set_audioContext, modify, ret, throw.
    cbn. rewrite !Hfl. cbn. rewrite <- !app_assoc. repeat split. set_solver.
Qed.

Lemma capture_uses_selected_source_witness :
  let s := run [(calm, Mount "abc"); (calm, SelectSource screen_tab)]
               (initial microphone empty_world [] 0) in
  let s' := step calm Click s in
  isRecording s' = true /\ connected s' = true /\
  trace (browser s')
  = [(GetDisplayMedia, 0%nat); (NewAudioContext, 1%nat);
     (CreateMediaStreamSource, 2%nat); (CreateScriptProcessor, 3%nat);
     (SourceConnect, 2%nat); (ProcessorConnect, 3%nat)].
Proof.
  intros s s'.
  destruct (capture_uses_selected_source calm s 0 eq_refl eq_refl eq_refl
              (fun _ => eq_refl))
    as (H1 & H2 & _ & _ & H3 & _).
  split; [exact H1|]. split; [exact H2|]. exact H3.
Defined.

End Starts.

(** ** Incoming content *)

Section Content.
Import Eff Eff.Notations Store Broadcaster Session Ledger.

Lemma append_empty (a b : string) : (a ++ b)%string = ""%string -> a = ""%string /\ b = ""%string.
Proof. destruct a; cbn; [auto | discriminate]. Qed.

Ltac run_part :=
  unfold handle_part, bind, get, set_transcript, debouncedSave, set_timeout, upd,
    modify, ret, debounce.

Lemma handle_part_spec (p : part) (s : Broadcaster.state) :
  let s' := snd (handle_part p s) in
  let d := match p with Some d => d | None => ""%string end in
  fst (handle_part p s) = Returns tt /\
  transcriptRef s' = (transcriptRef s ++ d)%string /\
  (d = ""%string -> s' = s) /\
  (d <> ""%string ->
   transcript s' = transcriptRef s' /\
   timeout s' = if dbUpdateRef s then Some (clock s + 2000, transcriptRef s')
                else timeout s) /\
  requests s' = requests s /\ table s' = table s /\ clock s' = clock s /\
  dbUpdateRef s' = dbUpdateRef s /\ sessionIdRef s' = sessionIdRef s.
Proof.
  destruct p as [[|c d]|]; run_part; cbn.
  - rewrite append_nil_r. repeat split; congruence.
  - destruct (dbUpdateRef s) eqn:Hdb; cbn; rewrite ?Hdb; repeat split; discriminate.
  - rewrite append_nil_r. repeat split; congruence.
Qed.

(** What one content event does to the buffer, the timer and the store. *)
Lemma handleContent_spec (parts : list part) (s : Broadcaster.state) :
  let s' := snd (handleContent (Some parts) s) in
  let added := concat_texts (texts parts) in
  fst (handleContent (Some parts) s) = Returns tt /\
  transcriptRef s' = (transcriptRef s ++ added)%string /\
  (added = ""%string -> s' = s) /\
  (added <> ""%string ->
   transcript s' = transcriptRef s' /\
   timeout s' = if dbUpdateRef s then Some (clock s + 2000, transcriptRef s')
                else timeout s) /\
  requests s' = requests s /\ table s' = table s /\ clock s' = clock s /\
  dbUpdateRef s' = dbUpdateRef s /\ sessionIdRef s' = sessionIdRef s.
Proof.
  cbn zeta. unfold handleContent. revert s.
  induction parts as [|p parts IH]; intros s.
  - cbn. rewrite append_nil_r. repeat split; congruence.
  - cbn [forEach]. unfold bind.
    pose proof (handle_part_spec p s) as Hp. cbn zeta in Hp.
    destruct (handle_part p s) as [[[]|e] s1]; cbn [fst snd] in Hp;
      destruct Hp as (Ho & Htr & Hnil & Hnew & Hq & Ht & Hc & Hdb & Hsid);
      [|discriminate].
    destruct (IH s1) as (Ho' & Htr' & Hnil' & Hnew' & Hq' & Ht' & Hc' & Hdb' & Hsid').
    set (d := match p with Some d => d | None => ""%string end) in *.
    assert (Hadd : concat_texts (texts (p :: parts))
                   = (d ++ concat_texts (texts parts))%string).
    { subst d. destruct p; reflexivity. }
    rewrite Hadd. split; [exact Ho'|].
    split; [rewrite Htr', Htr; apply append_assoc|].
    split; [|split].
    + intros Hempty. apply append_empty in Hempty as [Hd Hrest].
      rewrite (Hnil' Hrest). exact (Hnil Hd).
    + intros Hne.
      destruct (string_dec (concat_texts (texts parts)) "") as [Hrest|Hrest].
      * rewrite (Hnil' Hrest). apply Hnew. intros Hd. apply Hne.
        now rewrite Hd, Hrest.
      * destruct (Hnew' Hrest) as [Hx Hy]. split; [exact Hx|].
        rewrite Hy, Hdb, Hc. destruct (dbUpdateRef s) eqn:Hdbs; [reflexivity|].
        destruct (string_dec d "") as [Hd|Hd].
        -- now rewrite (Hnil Hd).
        -- destruct (Hnew Hd) as [_ Hz]. rewrite Hz. first [now rewrite Hdbs | reflexivity].
    + repeat split; congruence.
Qed.

(** X17.  One content event appends to the transcript the texts of its parts,
    in order, skipping the parts without text; it sends nothing to the
    store.  If that adds no character (no parts, or none with text) the
    state is unchanged; otherwise the transcript shown is the buffer
    and, once the save function is installed, the timer is armed
    2000 ms ahead with the whole buffer. *)
Theorem handleContent_appends (env : environment) (sc : serverContent)
        (s : Broadcaster.state) :
  let s' := step env (ContentEvent sc) s in
  let added := concat_texts (texts (default [] sc)) in
  transcriptRef s' = (transcriptRef s ++ added)%string /\
  (added = ""%string -> s' = s) /\
  (added <> ""%string ->
   transcript s' = transcriptRef s' /\
   timeout s' = if dbUpdateRef s then Some (clock s + 2000, transcriptRef s')
                else timeout s) /\
  requests s' = requests s /\ table s' = table s /\ clock s' = clock s /\
  dbUpdateRef s' = dbUpdateRef s /\ sessionIdRef s' = sessionIdRef s.
Proof.
  destruct sc as [parts|]; cbn zeta.
  - exact (proj2 (handleContent_spec parts s)).
  - cbn. rewrite append_nil_r. split; [reflexivity|]. split; [reflexivity|].
    split; [congruence|]. repeat split.
Qed.

End Content.

(** ** What reaches the store over a run *)

Section Ledgers.
Import Eff Eff.Notations Store Broadcaster Session Ledger.

Lemma prefix_of_refl (t : string) : prefix_of t t.
Proof. exists ""%string. now rewrite append_nil_r. Qed.

Lemma prefix_of_trans (a b c : string) : prefix_of a b -> prefix_of b c -> prefix_of a c.
Proof. intros [x ->] [y ->]. exists (x ++ y)%string. apply append_assoc. Qed.

Lemma prefix_of_app (a b : string) : prefix_of a (a ++ b).
Proof. now exists b. Qed.

Lemma growing_app (l1 l2 : list string) :
  growing (l1 ++ l2) <->
  growing l1 /\ growing l2 /\ (forall a b, a ∈ l1 -> b ∈ l2 -> prefix_of a b).
Proof.
  induction l1 as [|x l1 IH]; cbn.
  - split; [intros H; split; [exact I|split; [exact H|intros a b Ha; inversion Ha]]|tauto].
  - rewrite IH, Forall_app, !List.Forall_forall. split.
    + intros ((H1 & H2) & H3 & H4 & H5).
      split; [split; assumption|]. split; [assumption|].
      intros a b Ha Hb. apply elem_of_cons in Ha as [->|Ha]; [|now apply H5].
      now apply H2, list_elem_of_In.
    + intros ((H1 & H2) & H3 & H4).
      split; [split; [exact H1|]|split; [exact H2|split; [exact H3|]]].
      * intros b Hb. apply H4; [left|now apply list_elem_of_In].
      * intros a b Ha Hb. apply H4; [now right|assumption].
Qed.

(** The chain of what was sent, what is pending and what the buffer
    holds. *)
Abbreviation chain s := (growing (sent_texts s ++ pending_text s ++ [transcriptRef s])).

Lemma chain_intro (sent pend : list string) (tr : string) :
  growing (sent ++ pend ++ [tr]) <->
  growing sent /\ (forall a, a ∈ sent -> prefix_of a tr) /\
  (forall a, a ∈ pend -> prefix_of a tr) /\ growing pend /\
  (forall a b, a ∈ sent -> b ∈ pend -> prefix_of a b).
Proof.
  rewrite !growing_app. cbn. split.
  - intros (H1 & (H2 & _ & H3) & H4). repeat split; try assumption.
    + intros a Ha. apply H4; [assumption|]. apply elem_of_app. right. left.
    + intros a Ha. apply H3; [assumption|left].
    + intros a b Ha Hb. apply H4; [assumption|]. apply elem_of_app. now left.
  - intros (H1 & H2 & H3 & H4 & H5). repeat split; try assumption; try constructor.
    + intros a b Ha Hb. apply list_elem_of_singleton in Hb as ->. now apply H3.
    + intros a b Ha Hb. apply elem_of_app in Hb as [Hb|Hb]; [now apply H5|].
      apply list_elem_of_singleton in Hb as ->. now apply H2.
Qed.

Lemma chain_untouched (s s' : Broadcaster.state) :
  persister_untouched s s' -> chain s -> chain s'.
Proof.
  intros (H1 & _ & _ & H2 & _ & H3 & _). unfold sent_texts, pending_text.
  now rewrite H1, H2, H3.
Qed.

Lemma chain_content (parts : list part) (s : Broadcaster.state) :
  chain s -> chain (snd (handleContent (Some parts) s)).
Proof.
  intros Hs.
  destruct (handleContent_spec parts s)
    as (_ & Htr & Hnil & Hnew & Hq & _ & _ & _ & _). cbn zeta in *.
  set (s' := snd (handleContent (Some parts) s)) in *.
  destruct (string_dec (concat_texts (texts parts)) "") as [He|Hne];
    [now rewrite (Hnil He)|].
  destruct (Hnew Hne) as [_ Ht].
  apply chain_intro in Hs as (H1 & H2 & H3 & H4 & H5).
  apply chain_intro. unfold sent_texts. rewrite Hq. fold (sent_texts s).
  assert (Hgrow : forall a, prefix_of a (transcriptRef s) -> prefix_of a (transcriptRef s')).
  { intros a Ha. eapply prefix_of_trans; [exact Ha|]. rewrite Htr. apply prefix_of_app. }
  split; [exact H1|]. split; [auto|].
  unfold pending_text in *. rewrite Ht.
  destruct (dbUpdateRef s).
  - split; [|split]. 
    + intros a Ha. apply list_elem_of_singleton in Ha as ->. apply prefix_of_refl.
    + cbn. auto.
    + intros a b Ha Hb. apply list_elem_of_singleton in Hb as ->. auto.
  - repeat split; auto.
Qed.

Ltac run_save :=
  unfold debouncedSave_body, store_call, bind, get, set_store, upd, modify, ret, throw;
  cbn.

(** Whatever the store answers, a save sends the lookup and at most one
    write, which carries the text the save was called with. *)
Lemma save_requests (env : environment) (text : string) (s : Broadcaster.state) :
  let s' := snd (debouncedSave_body env text s) in
  (sent_texts s' = sent_texts s \/ sent_texts s' = sent_texts s ++ [text]) /\
  transcriptRef s' = transcriptRef s /\ timeout s' = timeout s /\
  sessionIdRef s' = sessionIdRef s.
Proof.
  unfold sent_texts. run_save.
  repeat match goal with
         | |- context [store_faults env ?c] =>
             destruct (store_faults env c) as [[|?]|]; cbn
         | |- context [select_single ?a ?b] => destruct (select_single a b); cbn
         | |- context [Z.eqb ?a 0] => destruct (Z.eqb a 0); cbn
         end;
    rewrite ?omap_app; cbn; rewrite ?app_nil_r, <- ?app_assoc; auto.
Qed.

Lemma chain_timers (env : environment) (until : Z) (s : Broadcaster.state) :
  chain s -> chain (snd (run_timers env until s)).
Proof.
  intros Hs.
  unfold run_timers, bind, get, set_timeout, set_clock, try_catch, set_unhandled,
    upd, modify.
  destruct (due until (timeout s)) as [[deadline text]|] eqn:Hdue; [|exact Hs].
  assert (Ht : timeout s = Some (deadline, text)).
  { unfold due in Hdue. destruct (timeout s) as [[d t]|]; [|discriminate].
    destruct (d <=? until); congruence. }
  cbn -[debouncedSave_body sent_texts pending_text growing].
  match goal with
  | |- context [debouncedSave_body env text ?s0] =>
      pose proof (save_requests env text s0) as (Hsent & Htr & Hto & _);
      destruct (debouncedSave_body env text s0) as [[[]|e] s1]
  end; cbn -[sent_texts pending_text growing] in *.
  all: apply chain_intro in Hs as (H1 & H2 & H3 & H4 & H5).
  all: unfold pending_text in H3, H4, H5; rewrite Ht in H3, H4, H5.
  all: assert (Hin : text ∈ [text]) by left.
  all: apply chain_intro; unfold pending_text; cbn -[sent_texts growing];
    rewrite ?Hto, ?Htr; cbn -[sent_texts growing].
  all: replace (sent_texts _) with (sent_texts s1) by reflexivity.
  all: destruct Hsent as [Hsent|Hsent]; rewrite Hsent;
       replace (sent_texts _) with (sent_texts s) by reflexivity.
  all: try (split; [exact H1|]; split; [exact H2|]; split; [intros ? Hb; inversion Hb|];
            split; [exact I|]; intros ? ? ? Hb; inversion Hb).
  all: split; [apply growing_app; split; [exact H1|]; split; [cbn; auto|];
               intros a b Ha Hb; apply list_elem_of_singleton in Hb as ->; auto|].
  all: split; [intros a Ha; apply elem_of_app in Ha as [Ha|Ha]; auto;
               apply list_elem_of_singleton in Ha as ->; auto|].
  all: split; [intros ? Hb; inversion Hb|]; split; [exact I|];
       intros ? ? ? Hb; inversion Hb.
Qed.

Lemma chain_step (env : environment) (ev : event) (s : Broadcaster.state) :
  chain s -> chain (step env ev s).
Proof.
  intros Hs. destruct (is_control ev) eqn:Hev.
  - eapply chain_untouched; [|exact Hs]. apply (control_persister env ev Hev).
  - destruct ev as [uuid| | | |sc| |ms]; try discriminate; unfold step, react.
    + exact Hs.
    + destruct sc as [parts|]; [now apply chain_content | exact Hs].
    + unfold bind, get.
      pose proof (run_timers_returns env (clock s + ms) s) as Hret.
      pose proof (chain_timers env (clock s + ms) s Hs) as Hch.
      destruct (run_timers env (clock s + ms) s) as [[[]|e] s1]; [|discriminate].
      exact Hch.
Qed.


Lemma primary_key_insert (sid user text lang : string) (t : list row) :
  primary_key t -> primary_key (insert sid user text lang t).
Proof.
  intros [Hnd Hpos]. split.
  - unfold insert. rewrite map_app. cbn [map].
    apply NoDup_app. split; [exact Hnd|]. split; [|apply NoDup_singleton].
    intros z Hz Hz'. apply list_elem_of_singleton in Hz'. subst z.
    apply list_elem_of_In, in_map_iff in Hz as (x & Hid & Hx).
    apply list_elem_of_In, fresh_id_above in Hx. cbn in Hid. lia.
  - unfold insert. apply Forall_app. split; [exact Hpos|].
    constructor; [apply fresh_id_positive | constructor].
Qed.

Lemma primary_key_update (rid : Z) (text : string) (now : Z) (t : list row) :
  primary_key t -> primary_key (update rid text now t).
Proof.
  intros [Hnd Hpos]. split.
  - replace (map id (update rid text now t)) with (map id t); [exact Hnd|].
    unfold update. rewrite map_map. apply map_ext. intros x.
    now destruct (Z.eqb (id x) rid).
  - unfold update. rewrite List.Forall_forall in *. intros y Hy.
    apply in_map_iff in Hy as (x & <- & Hx). specialize (Hpos x Hx).
    now destruct (Z.eqb (id x) rid).
Qed.

Lemma matching_insert (sid user text lang : string) (t : list row) :
  matching sid (insert sid user text lang t)
  = matching sid t ++ [{| id := fresh_id t; session_id := sid; user_id := user;
                          full_transcript_text := text; updated_at := None;
                          source_language := Some lang |}].
Proof.
  unfold insert, matching. rewrite filter_app. f_equal.
  cbn. now rewrite decide_True by reflexivity.
Qed.

(** A save whose lookup is answered keeps the session at one row at
    most, whatever becomes of the write. *)
Lemma save_one_row (env : environment) (text : string) (s : Broadcaster.state) :
  store_faults env Select <> Some ErrorResult ->
  one_row s -> one_row (snd (debouncedSave_body env text s)).
Proof.
  intros Hsel [Hpk Hlen]. unfold one_row.
  unfold debouncedSave_body, store_call, bind, get, set_store, upd, modify, ret, throw.
  destruct (store_faults env Select) as [[|e]|]; [congruence|split; assumption|].
  cbn -[matching primary_key select_single insert update].
  destruct (matching (sessionIdRef s) (table s)) as [|r [|r2 l]] eqn:Hm;
    cbn in Hlen; [| |lia].
  - assert (Hs : select_single (sessionIdRef s) (table s) = None)
      by (unfold select_single; now rewrite Hm).
    rewrite Hs.
    destruct (store_faults env Insert) as [[|e]|];
      cbn -[matching primary_key select_single insert update];
      try (split; [exact Hpk|rewrite Hm; cbn; lia]).
    split; [now apply primary_key_insert|]. rewrite matching_insert, Hm. cbn. lia.
  - assert (Hr : r ∈ table s).
    { assert (Hin : r ∈ matching (sessionIdRef s) (table s))
        by (rewrite Hm; apply list_elem_of_here).
      now apply list_elem_of_filter in Hin as [_ Hin]. }
    assert (Hs : select_single (sessionIdRef s) (table s) = Some (id r))
      by (unfold select_single; now rewrite Hm).
    assert (Hid : Z.eqb (id r) 0 = false).
    { apply Z.eqb_neq. destruct Hpk as [_ Hpos]. rewrite List.Forall_forall in Hpos.
      apply list_elem_of_In, Hpos in Hr. lia. }
    rewrite Hs, Hid.
    destruct (store_faults env Update) as [[|e]|];
      cbn -[matching primary_key select_single insert update];
      try (split; [exact Hpk|rewrite Hm; cbn; lia]).
    split; [now apply primary_key_update|]. rewrite matching_update, Hm. cbn. lia.
Qed.

Lemma one_row_step (env : environment) (ev : event) (s : Broadcaster.state) :
  is_mount ev = false -> store_faults env Select <> Some ErrorResult ->
  one_row s ->
  one_row (step env ev s) /\ sessionIdRef (step env ev s) = sessionIdRef s.
Proof.
  intros Hm Hsel Hs. destruct (is_control ev) eqn:Hev.
  - destruct (control_persister env ev Hev s) as (_ & _ & Ht & _ & _ & _ & _ & Hsid & _).
    unfold one_row, step. rewrite Ht, Hsid. split; [exact Hs|reflexivity].
  - destruct ev as [uuid| | | |sc| |ms]; try discriminate; unfold step, react.
    + destruct sc as [parts|]; [|split; [exact Hs|reflexivity]].
      destruct (handleContent_spec parts s) as (_ & _ & _ & _ & _ & Ht & _ & _ & Hsid).
      cbn zeta in Ht, Hsid. unfold one_row. rewrite Ht, Hsid. split; [exact Hs|reflexivity].
    + unfold bind, get.
      pose proof (run_timers_returns env (clock s + ms) s) as Hret.
      assert (Hrun : one_row (snd (run_timers env (clock s + ms) s)) /\
                     sessionIdRef (snd (run_timers env (clock s + ms) s)) = sessionIdRef s).
      { unfold run_timers, bind, get, set_timeout, set_clock, try_catch, set_unhandled,
          upd, modify.
        destruct (due (clock s + ms) (timeout s)) as [[deadline text]|];
          [|split; [exact Hs|reflexivity]].
        cbn -[debouncedSave_body one_row].
        match goal with
        | |- context [debouncedSave_body env text ?s0] =>
            pose proof (save_one_row env text s0 Hsel Hs) as Hone;
            pose proof (save_requests env text s0) as (_ & _ & _ & Hsid);
            destruct (debouncedSave_body env text s0) as [[[]|e] s1]
        end; cbn -[one_row] in *; split; assumption. }
      destruct (run_timers env (clock s + ms) s) as [[[]|e] s1]; [|discriminate].
      exact Hrun.
Qed.



End Ledgers.

(** ** The two revisions, and the unused save *)

Section Revisions.
Import Eff Eff.Notations Store Broadcaster Session.
Import Browser AudioRecorder.

(** X20.  The two revisions of [toggleBroadcast] compared, with the microphone
    as source.  Stopping is the same.  A start that goes through is the
    same.  A start that fails differs: the earlier revision lets the
    error escape, and if the connection had been opened it stays open
    with the recording flag set; the later revision catches the error,
    logs it and runs [stopBroadcast] from that very state. *)
Theorem toggleBroadcast_revisions (env : environment) (s : Broadcaster.state) :
  audioSource s = microphone ->
  (isRecording s = true ->
   toggleBroadcast env s = Earlier.toggleBroadcast env s) /\
  (isRecording s = false ->
   (forall s1, Earlier.toggleBroadcast env s = (Returns tt, s1) ->
               toggleBroadcast env s = (Returns tt, s1)) /\
   (forall e s1, Earlier.toggleBroadcast env s = (Throws e, s1) ->
      toggleBroadcast env s
      = (Broadcaster.console_error "Failed to start broadcast" ;; stopBroadcast env) s1 /\
      (connect_error env = None -> isRecording s1 = true /\ connected s1 = true) /\
      (connect_error env <> None -> s1 = s))).
Proof.
  intros Hsrc. split; intros Hrec.
  - unfold toggleBroadcast, Earlier.toggleBroadcast, stopBroadcast, bind, get.
    now rewrite Hrec.
  - assert (Hmic : acquire_display env s = (Returns (Some None), s)).
    { unfold acquire_display, bind, get. now rewrite Hsrc. }
    assert (Heq : toggleBroadcast env s
                  = match Earlier.toggleBroadcast env s with
                    | (Returns a, s1) => (Returns a, s1)
                    | (Throws e, s1) =>
                        (Broadcaster.console_error "Failed to start broadcast" ;;
                         stopBroadcast env) s1
                    end).
    { unfold toggleBroadcast, Earlier.toggleBroadcast, try_catch, bind, get.
      rewrite Hrec, Hmic. reflexivity. }
    rewrite Heq. split.
    + intros s1 ->. reflexivity.
    + intros e s1 He. rewrite He. split; [reflexivity|].
      revert He. unfold Earlier.toggleBroadcast, bind, get. rewrite Hrec.
      unfold Broadcaster.connect.
      destruct (connect_error env) as [e0|].
      * unfold throw. intros [= <- <-]. split; [discriminate|reflexivity].
      * unfold set_connected, setIsRecording, set_recorder, on_recorder, upd, modify.
        cbn.
        destruct (start (recorder_faults env) None (fresh_recorder, browser s))
          as [[[]|e1] [r' w']]; cbn; intros [= <- <-]; try discriminate.
        cbn. split; [split; reflexivity|congruence].
Qed.

Lemma toggleBroadcast_revisions_witness :
  let env :=
    {| recorder_faults := fun a =>
         match a with NewAudioContext => Some "NotSupportedError"%string | _ => None end;
       store_faults := Store.no_faults; getDisplayMedia := Shared 1;
       connect_error := None |} in
  let s := run [(calm, Mount "abc")] (initial microphone empty_world [] 0) in
  let s1 := snd (Earlier.toggleBroadcast env s) in
  isRecording s1 = true /\ connected s1 = true /\
  isRecording (snd (toggleBroadcast env s)) = false.
Proof.
  intros env s s1.
  destruct (toggleBroadcast_revisions env s eq_refl) as [_ H].
  destruct (H eq_refl) as [_ H2].
  destruct (H2 "NotSupportedError"%string s1 eq_refl) as (_ & H3 & _).
  destruct (H3 eq_refl) as [H4 H5].
  split; [exact H4|]. split; [exact H5|]. reflexivity.
Defined.

(** X21.  [saveToDb] never throws.  Without a session identifier or without
    text it does nothing.  Otherwise it sends one upsert; since the
    payload carries no [id], nothing can conflict and an answered upsert
    adds a row each time it is called.  A rejected call is caught and
    logged; an error result is dropped without a trace. *)
Theorem saveToDb_catches (env : environment) (fullText : string) (s : Broadcaster.state) :
  let s' := snd (saveToDb env fullText s) in
  let sid := sessionIdRef s in
  fst (saveToDb env fullText s) = Returns tt /\
  (sid = ""%string \/ fullText = ""%string -> s' = s) /\
  (sid <> ""%string -> fullText <> ""%string ->
   requests s' = requests s ++ [ReqUpsert sid "broadcaster-user" fullText (clock s)] /\
   (store_faults env Upsert = None ->
    table s' = upsert sid "broadcaster-user" fullText (clock s) (table s) /\
    length (matching sid (table s')) = S (length (matching sid (table s))) /\
    browser s' = browser s) /\
   (store_faults env Upsert = Some ErrorResult ->
    table s' = table s /\ browser s' = browser s) /\
   (forall e, store_faults env Upsert = Some (Rejects e) ->
    table s' = table s /\
    browser s' = Browser.console_error "DB Save Error" (browser s))).
Proof.
  cbn zeta. unfold saveToDb, bind, get. cbn beta.
  destruct (sessionIdRef s) as [|c sid] eqn:Hsid; cbn [is_empty orb].
  { split; [reflexivity|]. split; [reflexivity|]. congruence. }
  destruct fullText as [|c' text]; cbn [is_empty orb].
  { split; [reflexivity|]. split; [reflexivity|]. congruence. }
  unfold try_catch, store_call, bind, get, set_store, Broadcaster.console_error,
    set_recorder, upd, modify, ret, throw. cbn.
  destruct (store_faults env Upsert) as [[|e]|]; cbn.
  - split; [reflexivity|]. split; [intros [?|?]; discriminate|]. intros _ _.
    split; [reflexivity|]. split; [discriminate|]. split; [auto|]. discriminate.
  - split; [reflexivity|]. split; [intros [?|?]; discriminate|]. intros _ _.
    split; [reflexivity|]. split; [discriminate|]. split; [discriminate|].
    intros ? [= <-]. split; reflexivity.
  - split; [reflexivity|]. split; [intros [?|?]; discriminate|]. intros _ _.
    split; [reflexivity|]. split; [|split; discriminate]. intros _.
    split; [reflexivity|]. split; [|reflexivity].
    unfold upsert, matching. rewrite filter_app, length_app. cbn.
    rewrite decide_True by reflexivity. cbn. lia.
Qed.

End Revisions.

(** ** The settings store *)

Section SettingsStore.
Import Settings.

Variable toString : number -> string.
Variables DEFAULT_LIVE_API_MODEL DEFAULT_VOICE : string.

Local Abbreviation generate := (generateSystemPrompt toString).
Local Abbreviation apply := (Settings.apply toString).
Local Abbreviation in_sync := (Settings.in_sync toString).

(** X22.  The system prompt follows the language and the speech rate: it is
    generated for them when the store is created and again whenever one
    of the two is set, and no other setter than [setSystemPrompt]
    touches it.  A prompt entered by hand is therefore discarded by the
    next change of language or rate.  Setting the language and setting
    the rate commute. *)
Theorem prompt_follows_language_and_rate (st : state) (l : string) (rate : number)
        (prompt : string) (a : action) :
  in_sync (initial toString DEFAULT_LIVE_API_MODEL DEFAULT_VOICE) /\
  in_sync (setLanguage toString l st) /\ in_sync (setSpeechRate toString rate st) /\
  (is_prompt_edit a = false -> in_sync st -> in_sync (apply a st)) /\
  systemPrompt (setLanguage toString l (setSystemPrompt prompt st))
  = generate l (speechRate st) /\
  systemPrompt (setSpeechRate toString rate (setSystemPrompt prompt st))
  = generate (language st) rate /\
  setLanguage toString l (setSpeechRate toString rate st)
  = setSpeechRate toString rate (setLanguage toString l st).
Proof.
  split; [reflexivity|]. split; [reflexivity|]. split; [reflexivity|].
  split; [|repeat split].
  intros Ha Hs. destruct a; try discriminate; try exact Hs; reflexivity.
Qed.

Lemma length_app_string (a b : string) :
  String.length (a +:+ b) = (String.length a + String.length b)%nat.
Proof.
  induction a as [|ch a IH]; [reflexivity|].
  change (S (String.length (a +:+ b)) = S (String.length a + String.length b)).
  now f_equal.
Qed.

(** X23.  The pace line of the prompt is the natural one at rate 1 and for a
    rate that is not a number.  The fallback for an empty language
    covers the target line only: the prompt for the empty language is
    the prompt for Taglish with the language missing from its objective
    line, and so differs from it. *)
Theorem generateSystemPrompt_fallback (speed : number) :
  speedInstruction toString (of_Z 1) = "PACE: Natural, conversational speed."%string /\
  speedInstruction toString NaN = "PACE: Natural, conversational speed."%string /\
  (exists head tail,
      generate "" speed = head +:+ tail /\
      generate "Taglish (Philippines)" speed
      = head +:+ "Taglish (Philippines)" +:+ tail) /\
  generate "" speed <> generate "Taglish (Philippines)" speed.
Proof.
  split; [reflexivity|]. split; [reflexivity|].
  set (head := template_0 +:+ "Taglish (Philippines)" +:+ template_1 +:+
               speedInstruction toString speed +:+ template_2).
  set (tail := template_3 +:+ personaInstruction +:+ template_4).
  assert (H1 : generate "" speed = head +:+ tail).
  { subst head tail. unfold generateSystemPrompt. cbn [is_empty].
    rewrite !append_assoc. reflexivity. }
  assert (H2 : generate "Taglish (Philippines)" speed
               = head +:+ "Taglish (Philippines)" +:+ tail).
  { subst head tail. unfold generateSystemPrompt. cbn [is_empty].
    rewrite !append_assoc. reflexivity. }
  split; [now exists head, tail|].
  rewrite H1, H2. intros H. apply (inj (String.app head)) in H.
  apply (f_equal String.length) in H. rewrite length_app_string in H.
  cbn [String.length] in H. lia.
Qed.

End SettingsStore.

(** ** The tools store *)

Section ToolStore.
Import Tools.

Lemma some_named_spec (n : string) (l : list FunctionCall) :
  some_named n l = true <-> n ∈ map name l.
Proof.
  unfold some_named. rewrite existsb_exists, list_elem_of_In, in_map_iff.
  split; intros (x & H1 & H2); exists x.
  - apply String.eqb_eq in H2. auto.
  - split; [exact H2|]. now apply String.eqb_eq.
Qed.

Lemma some_named_false (n : string) (l : list FunctionCall) :
  some_named n l = false <-> n ∉ map name l.
Proof.
  rewrite <- some_named_spec. destruct (some_named n l); split; congruence.
Qed.

Lemma candidate_inj (j k : nat) : candidate j = candidate k -> j = k.
Proof.
  assert (Hsplit : forall i, candidate (S i) = "new_function" +:+ ("_" +:+ pretty (S i)))
    by reflexivity.
  assert (H0 : candidate 0 = "new_function" +:+ "") by reflexivity.
  destruct j as [|j], k as [|k]; [reflexivity| | |].
  - rewrite H0, Hsplit. intros H. apply (inj (String.app "new_function")) in H.
    discriminate.
  - rewrite H0, Hsplit. intros H. apply (inj (String.app "new_function")) in H.
    discriminate.
  - rewrite !Hsplit. intros H.
    apply (inj (String.app "new_function")), (inj (String.app "_")) in H.
    now apply (inj pretty) in H.
Qed.

Lemma pick_name_next (fuel : nat) (l : list FunctionCall) (k : nat) :
  pick_name fuel l (candidate k) (S k)
  = if some_named (candidate k) l then
      match fuel with
      | O => None
      | S fuel' => pick_name fuel' l (candidate (S k)) (S (S k))
      end
    else Some (candidate k).
Proof. destruct fuel; reflexivity. Qed.

(** The loop returns the first candidate, from the [k]-th on, that no
    tool bears; it runs out of fuel only if the candidates [k] to
    [k + fuel] are all taken. *)
Lemma pick_name_spec (l : list FunctionCall) (fuel k : nat) :
  match pick_name fuel l (candidate k) (S k) with
  | Some n =>
      exists j, (k <= j <= k + fuel)%nat /\ n = candidate j /\ (n ∉ map name l) /\
                forall i, (k <= i < j)%nat -> candidate i ∈ map name l
  | None => forall i, (k <= i <= k + fuel)%nat -> candidate i ∈ map name l
  end.
Proof.
  revert k. induction fuel as [|fuel IH]; intros k; rewrite pick_name_next;
    destruct (some_named (candidate k) l) eqn:Hk.
  - intros i Hi. replace i with k by lia. now apply some_named_spec.
  - exists k. split; [lia|]. split; [reflexivity|]. split; [now apply some_named_false|].
    intros i Hi. lia.
  - specialize (IH (S k)). destruct (pick_name fuel l (candidate (S k)) (S (S k))) as [n|].
    + destruct IH as (j & Hj & Hn & Hfree & Htaken). exists j.
      split; [lia|]. split; [exact Hn|]. split; [exact Hfree|].
      intros i Hi. destruct (decide (i = k)) as [->|Hne]; [now apply some_named_spec|].
      apply Htaken. lia.
    + intros i Hi. destruct (decide (i = k)) as [->|Hne]; [now apply some_named_spec|].
      apply IH. lia.
  - exists k. split; [lia|]. split; [reflexivity|]. split; [now apply some_named_false|].
    intros i Hi. lia.
Qed.

Lemma candidates_exceed (l : list FunctionCall) :
  ~ (forall i, (0 <= i <= 0 + length l)%nat -> candidate i ∈ map name l).
Proof.
  intros Hall.
  assert (Hnd : List.NoDup (map candidate (seq 0 (S (length l))))).
  { apply NoDup_ListNoDup, NoDup_fmap_2_strong; [|apply NoDup_ListNoDup, seq_NoDup].
    intros x y _ _. apply candidate_inj. }
  assert (Hincl : incl (map candidate (seq 0 (S (length l)))) (map name l)).
  { intros n Hn. apply in_map_iff in Hn as (i & <- & Hi). apply in_seq in Hi.
    apply list_elem_of_In, Hall. lia. }
  pose proof (NoDup_incl_length Hnd Hincl) as Hlen.
  rewrite !length_map, length_seq in Hlen. lia.
Qed.

Lemma pick_name_enough (l : list FunctionCall) (fuel : nat) :
  (length l <= fuel)%nat ->
  exists j, (j <= length l)%nat /\
            pick_name fuel l "new_function" 1 = Some (candidate j) /\
            (candidate j ∉ map name l) /\
            forall i, (i < j)%nat -> candidate i ∈ map name l.
Proof.
  intros Hfuel. pose proof (pick_name_spec l fuel 0) as H.
  change (candidate 0) with "new_function"%string in H.
  destruct (pick_name fuel l "new_function" 1) as [n|].
  - destruct H as (j & Hj & -> & Hfree & Htaken).
    exists j. split; [|split; [reflexivity|split; [exact Hfree|]]].
    + destruct (Nat.le_gt_cases j (length l)) as [Hle|Hgt]; [exact Hle|].
      exfalso. apply (candidates_exceed l). intros i Hi. apply Htaken. lia.
    + intros i Hi. apply Htaken. lia.
  - exfalso. apply (candidates_exceed l). intros i Hi. apply H. lia.
Qed.

(** X24.  [addTool] terminates: its loop needs at most as many rounds as there
    are tools.  It appends one enabled tool, named by the first of
    [new_function], [new_function_1], [new_function_2], ... that no
    tool bears, and leaves the other tools as they are. *)
Theorem addTool_picks_fresh_name (st : state) (fuel : nat) :
  (length (tools st) <= fuel)%nat ->
  exists j,
    (j <= length (tools st))%nat /\
    addTool fuel st = Some (set_tools (tools st ++ [new_tool (candidate j)]) st) /\
    (candidate j ∉ names st) /\
    (forall i, (i < j)%nat -> candidate i ∈ names st) /\
    (NoDup (names st) ->
     NoDup (names (set_tools (tools st ++ [new_tool (candidate j)]) st))).
Proof.
  intros Hfuel.
  destruct (pick_name_enough (tools st) fuel Hfuel) as (j & Hj & Hpick & Hfree & Htaken).
  exists j. split; [exact Hj|]. split; [unfold addTool; now rewrite Hpick|].
  split; [exact Hfree|]. split; [exact Htaken|].
  intros Hnd. unfold names. cbn. rewrite map_app. cbn.
  apply NoDup_app. split; [exact Hnd|].
  split; [|apply NoDup_singleton].
  intros n Hn Hn'. apply list_elem_of_singleton in Hn'. now subst.
Qed.

Lemma addTool_picks_fresh_name_witness :
  let st := {| tools := [new_tool "new_function"; new_tool "new_function_2"];
               warnings := [] |} in
  exists j,
    (j <= 2)%nat /\
    addTool 2 st = Some (set_tools (tools st ++ [new_tool (candidate j)]) st) /\
    candidate j ∉ names st.
Proof.
  intros st.
  destruct (addTool_picks_fresh_name st 2 ltac:(cbn; lia)) as (j & H1 & H2 & H3 & _).
  exists j. repeat split; assumption.
Defined.

Lemma toggle_names (n : string) (st : state) : names (toggleTool n st) = names st.
Proof.
  unfold names, toggleTool. cbn. rewrite map_map. apply map_ext.
  intros t. now destruct (String.eqb (name t) n).
Qed.

Lemma remove_names (n : string) (st : state) :
  names (removeTool n st) = filter (fun m => m <> n) (names st).
Proof.
  unfold names, removeTool. cbn. induction (tools st) as [|t l IH]; [reflexivity|].
  cbn [map]. rewrite !filter_cons. destruct (decide (name t <> n)); cbn; now rewrite IH.
Qed.

Lemma update_names (oldName : string) (u : FunctionCall) (st : state) :
  names (updateTool oldName u st)
  = if negb (String.eqb oldName (name u)) && some_named (name u) (tools st)
    then names st
    else map (fun m => if String.eqb m oldName then name u else m) (names st).
Proof.
  unfold names, updateTool.
  destruct (negb (String.eqb oldName (name u)) && some_named (name u) (tools st));
    [reflexivity|].
  cbn. rewrite !map_map. apply map_ext. intros t.
  now destruct (String.eqb (name t) oldName).
Qed.

Lemma apply_distinct (a : action) (st : state) :
  NoDup (names st) -> exists st', apply a st = Some st' /\ NoDup (names st').
Proof.
  intros Hnd. destruct a as [n| |n|oldName u]; cbn [apply].
  - eexists. split; [reflexivity|]. now rewrite toggle_names.
  - destruct (pick_name_enough (tools st) (length (tools st)) (Nat.le_refl _))
      as (j & _ & Hpick & Hfree & _).
    unfold addTool. rewrite Hpick. eexists. split; [reflexivity|].
    unfold names. cbn. rewrite map_app. cbn.
    apply NoDup_app. split; [exact Hnd|]. split; [|apply NoDup_singleton].
    intros m Hm Hm'. apply list_elem_of_singleton in Hm'. now subst.
  - eexists. split; [reflexivity|]. rewrite remove_names. now apply NoDup_filter.
  - eexists. split; [reflexivity|]. rewrite update_names.
    destruct (String.eqb_spec oldName (name u)) as [->|Hne]; cbn [negb andb].
    + replace (map _ (names st)) with (names st); [exact Hnd|].
      rewrite <- (map_id (names st)) at 1. apply map_ext. intros m.
      now destruct (String.eqb_spec m (name u)).
    + destruct (some_named (name u) (tools st)) eqn:Hsome; [exact Hnd|].
      apply some_named_false in Hsome.
      apply NoDup_fmap_2_strong; [|exact Hnd].
      intros x y Hx Hy.
      destruct (String.eqb_spec x oldName), (String.eqb_spec y oldName);
        intros H; subst; try reflexivity; contradiction.
Qed.

(** X25.  The names of the tools are pairwise distinct at all times: starting
    from the empty store, every sequence of toggle, add, remove and
    update calls runs through and leaves no two tools with the same
    name. *)
Theorem tool_names_stay_distinct (acts : list action) :
  exists st, run acts initial = Some st /\ NoDup (names st).
Proof.
  assert (H0 : NoDup (names initial)) by constructor.
  revert H0. generalize initial.
  induction acts as [|a acts IH]; intros st Hnd; cbn [run].
  - eauto.
  - destruct (apply_distinct a st Hnd) as (st' & -> & Hnd'). now apply IH.
Qed.

(** X26.  Toggling a tool twice restores the store; toggling a name that no
    tool bears changes nothing; the number of tools is kept. *)
Theorem toggleTool_involutive (toolName : string) (st : state) :
  toggleTool toolName (toggleTool toolName st) = st /\
  (toolName ∉ names st -> toggleTool toolName st = st) /\
  length (tools (toggleTool toolName st)) = length (tools st).
Proof.
  destruct st as [l w]. unfold toggleTool, set_tools, names. cbn. repeat split.
  - f_equal. rewrite map_map. rewrite <- (map_id l) at 2. apply map_ext.
    intros [n d p e s]. cbn. destruct (String.eqb n toolName) eqn:Hn; cbn;
      rewrite ?Hn; [now rewrite negb_involutive|reflexivity].
  - intros Hfree. f_equal. rewrite <- (map_id l) at 2. apply map_ext_in.
    intros t Ht. destruct (String.eqb_spec (name t) toolName) as [<-|]; [|reflexivity].
    exfalso. apply Hfree. now apply list_elem_of_In, in_map.
  - apply length_map.
Qed.

Lemma toggleTool_involutive_witness :
  let st := {| tools := [new_tool "a"]; warnings := [] |} in
  ("b"%string ∉ names st) /\ toggleTool "b" st = st.
Proof.
  intros st.
  assert (H : "b"%string ∉ names st).
  { intros H. apply list_elem_of_singleton in H. discriminate. }
  split; [exact H|].
  exact (proj1 (proj2 (toggleTool_involutive "b" st)) H).
Defined.

(** X27.  Removing the tool that [addTool] has just added restores the store;
    removing a name leaves no tool of that name, and removing it again
    changes nothing. *)
Theorem removeTool_undoes_addTool (st st' : state) (fuel : nat) (t : FunctionCall) :
  addTool fuel st = Some st' -> last (tools st') = Some t ->
  removeTool (name t) st' = st /\
  (forall n, n ∉ names (removeTool n st')) /\
  (forall n, removeTool n (removeTool n st') = removeTool n st').
Proof.
  unfold addTool. intros Hadd Hlast.
  pose proof (pick_name_spec (tools st) fuel 0) as Hspec.
  change (candidate 0) with "new_function"%string in Hspec.
  destruct (pick_name fuel (tools st) "new_function" 1) as [n|]; [|discriminate].
  destruct Hspec as (j & _ & -> & Hfree & _).
  injection Hadd as <-. cbn in Hlast. rewrite last_snoc in Hlast. injection Hlast as <-.
  split; [|split].
  - destruct st as [l w]. unfold removeTool, set_tools. cbn in *. f_equal.
    rewrite filter_app. cbn. rewrite decide_False by (intros H; now apply H).
    cbn. rewrite app_nil_r.
    clear -Hfree. induction l as [|x l IH]; [reflexivity|].
    rewrite filter_cons. cbn in Hfree. apply not_elem_of_cons in Hfree as [Hx Hl].
    rewrite decide_True by congruence. now rewrite IH.
  - intros n. rewrite remove_names. intros H. apply list_elem_of_filter in H as [H _].
    now apply H.
  - intros n. unfold removeTool, set_tools. cbn. f_equal.
    generalize (tools st ++ [new_tool (candidate j)]). intros l.
    induction l as [|x l IH]; [reflexivity|].
    rewrite filter_cons. destruct (decide (name x <> n)) as [Hx|Hx]; [|exact IH].
    rewrite filter_cons, decide_True by exact Hx. now rewrite IH.
Qed.

Lemma removeTool_undoes_addTool_witness :
  let st := {| tools := [new_tool "new_function"]; warnings := [] |} in
  let st' := set_tools (tools st ++ [new_tool "new_function_1"]) st in
  removeTool "new_function_1" st' = st.
Proof.
  intros st st'.
  exact (proj1 (removeTool_undoes_addTool st st' 1 (new_tool "new_function_1")
                  eq_refl eq_refl)).
Defined.

(** X28.  [updateTool] refuses to rename a tool onto the name of another: the
    tools stay as they are and a warning is logged.  Updating a name
    that no tool bears changes nothing.  Otherwise every tool of that
    name is replaced in place, no other tool is touched and nothing is
    logged. *)
Theorem updateTool_guards_names (oldName : string) (u : FunctionCall) (st : state) :
  (oldName <> name u -> name u ∈ names st ->
   tools (updateTool oldName u st) = tools st /\
   warnings (updateTool oldName u st)
   = warnings st ++ [already_exists (name u)]) /\
  (oldName ∉ names st -> tools (updateTool oldName u st) = tools st) /\
  (oldName = name u \/ name u ∉ names st ->
   warnings (updateTool oldName u st) = warnings st /\
   length (tools (updateTool oldName u st)) = length (tools st) /\
   forall i t, tools st !! i = Some t ->
               tools (updateTool oldName u st) !! i
               = Some (if String.eqb (name t) oldName then u else t)).
Proof.
  unfold updateTool, names. split; [|split].
  - intros Hne Hin. apply some_named_spec in Hin. rewrite Hin.
    destruct (String.eqb_spec oldName (name u)); [contradiction|]. cbn. auto.
  - intros Hfree.
    destruct (negb (String.eqb oldName (name u)) && some_named (name u) (tools st));
      [reflexivity|].
    cbn. rewrite <- (map_id (tools st)) at 2. apply map_ext_in. intros t Ht.
    destruct (String.eqb_spec (name t) oldName) as [<-|]; [|reflexivity].
    exfalso. apply Hfree. now apply list_elem_of_In, in_map.
  - intros Hok.
    assert (Hgo : negb (String.eqb oldName (name u)) && some_named (name u) (tools st)
                  = false).
    { destruct Hok as [->|Hfree]; [now rewrite String.eqb_refl|].
      apply some_named_false in Hfree. rewrite Hfree. apply andb_false_r. }
    rewrite Hgo. cbn. split; [reflexivity|]. split; [apply length_map|].
    intros i t Hi.
    change (map ?f (tools st)) with (f <$> tools st).
    now rewrite list_lookup_fmap, Hi.
Qed.

Lemma updateTool_guards_names_witness :
  let st := {| tools := [new_tool "a"; new_tool "b"]; warnings := [] |} in
  tools (updateTool "a" (new_tool "b") st) = tools st /\
  warnings (updateTool "a" (new_tool "b") st)
  = warnings st ++ [already_exists "b"].
Proof.
  intros st.
  refine (proj1 (updateTool_guards_names "a" (new_tool "b") st) _ _).
  - discriminate.
  - apply list_elem_of_In. right. left. reflexivity.
Defined.

End ToolStore.

(** ** The conversation log *)

Section Log.
Import LogStore.

Lemma spread_assoc (a b c : turn) : spread (spread a b) c = spread a (spread b c).
Proof. unfold spread. now rewrite (assoc_L (∪)). Qed.

Lemma spread_empty (a : turn) : spread a ∅ = a.
Proof. unfold spread. apply (left_id_L ∅ (∪)). Qed.

Lemma updateLastTurn_snoc (update t : turn) (turns : list turn) :
  updateLastTurn update (turns ++ [t]) = turns ++ [spread t update].
Proof.
  unfold updateLastTurn. rewrite length_app. cbn [length].
  replace (length turns + 1)%nat with (S (length turns)) by lia. cbn [Nat.eqb].
  cbv zeta. replace (S (length turns) - 1)%nat with (length turns) by lia.
  rewrite lookup_app_r, Nat.sub_diag by lia. cbn.
  rewrite insert_app_r_alt, Nat.sub_diag by lia. reflexivity.
Qed.

(** X29.  [updateLastTurn] leaves an empty log alone; otherwise it merges the
    update into the last turn and touches no other turn.  Two updates in
    a row amount to one update in which the fields of the later one
    win; an update without fields changes nothing.  A turn that was just
    added carries the time of its addition, whatever timestamp it came
    with. *)
Theorem updateLastTurn_merges (u1 u2 t : turn) (turns : list turn) (now : Z) :
  updateLastTurn u1 [] = [] /\
  updateLastTurn u1 (turns ++ [t]) = turns ++ [spread t u1] /\
  length (updateLastTurn u1 turns) = length turns /\
  updateLastTurn u2 (updateLastTurn u1 turns) = updateLastTurn (spread u1 u2) turns /\
  updateLastTurn ∅ turns = turns /\
  (exists added, last (addTurn now t turns) = Some added /\
                 added !! "timestamp" = Some (VDate now)) /\
  updateLastTurn u1 (addTurn now t turns)
  = turns ++ [spread (<["timestamp" := VDate now]> t) u1].
Proof.
  split; [reflexivity|]. split; [apply updateLastTurn_snoc|].
  assert (Hcases : turns = [] \/ exists l x, turns = l ++ [x]).
  { destruct turns as [|y l] using rev_ind; [now left|right; eauto]. }
  split; [|split; [|split; [|split]]].
  - destruct Hcases as [->|(l & x & ->)]; [reflexivity|].
    rewrite updateLastTurn_snoc, !length_app. reflexivity.
  - destruct Hcases as [->|(l & x & ->)]; [reflexivity|].
    now rewrite !updateLastTurn_snoc, spread_assoc.
  - destruct Hcases as [->|(l & x & ->)]; [reflexivity|].
    now rewrite updateLastTurn_snoc, spread_empty.
  - unfold addTurn, spread. rewrite last_snoc. eexists. split; [reflexivity|].
    rewrite lookup_union_l'; [apply lookup_singleton_eq|].
    rewrite lookup_singleton_eq. eauto.
  - unfold addTurn. rewrite updateLastTurn_snoc. do 3 f_equal.
    unfold spread. now rewrite insert_union_singleton_l.
Qed.

(** X30.  [updateTurn] keeps the number and the order of the turns and merges
    the update into every turn that carries the identifier; a turn with
    another identifier, or with none, is untouched, and if no turn
    carries the identifier the log is unchanged.  Unless the update
    rewrites the identifier, applying it twice is applying it once. *)
Theorem updateTurn_by_id (id : string) (update : turn) (turns : list turn) :
  length (updateTurn id update turns) = length turns /\
  (forall i t, turns !! i = Some t ->
     updateTurn id update turns !! i
     = Some (if decide (t !! "id" = Some (VString id)) then spread t update else t)) /\
  (Forall (fun t => t !! "id" <> Some (VString id)) turns ->
   updateTurn id update turns = turns) /\
  (update !! "id" = None ->
   updateTurn id update (updateTurn id update turns) = updateTurn id update turns).
Proof.
  unfold updateTurn. split; [apply length_map|]. split; [|split].
  - intros i t Hi. change (map ?f turns) with (f <$> turns).
    now rewrite list_lookup_fmap, Hi.
  - intros Hall. rewrite <- (map_id turns) at 2. apply map_ext_in.
    intros t Ht. rewrite List.Forall_forall in Hall. specialize (Hall t Ht).
    now rewrite decide_False.
  - intros Hid. rewrite map_map. apply map_ext. intros t.
    destruct (decide (t !! "id" = Some (VString id))) as [Ht|Ht].
    + assert (Hs : spread t update !! "id" = Some (VString id)).
      { unfold spread. now rewrite lookup_union_r. }
      rewrite decide_True by exact Hs. unfold spread.
      now rewrite (assoc_L (∪)), (idemp_L (∪)).
    + now rewrite decide_False.
Qed.

Lemma updateTurn_by_id_witness :
  let t : turn := {["id" := VString "7"; "text" := VString "Hel"]} in
  let update : turn := {["text" := VString "Hello"]} in
  update !! "id" = None /\
  updateTurn "7" update (updateTurn "7" update [t]) = updateTurn "7" update [t].
Proof.
  intros t update.
  assert (H : update !! "id" = None) by reflexivity.
  split; [exact H|].
  exact (proj2 (proj2 (proj2 (updateTurn_by_id "7" update [t]))) H).
Defined.

End Log.
